(** * shotgunEvents: the event-dispatch engine

    A shallow embedding of the daemon's dispatch core
    ([src/callback.py], [src/plugin.py], [src/pluginCollection.py],
    [src/engine.py], [src/registrar.py]) and the properties of it that
    the specification states.

    Conventions.
    - Python [dict]s are [gmap]s and [None] is [option]'s [None].  A
      [gmap] is walked in the order of its keys, a [dict] in the order of
      insertion: where the code iterates over a [dict], the order of the
      log records of the model may differ from the code's; no value
      computed depends on it.
    - A [datetime] is a [Z]: microseconds on the naive wall clock; a
      [timedelta] is a [Z] number of microseconds.
    - Everything outside the daemon (wall clock, user plugin code, the
      upstream server, the unpickler) lives in an abstract [World]; the
      daemon's own observable actions (log records, callback
      invocations, sleeps) are appended to a trace.
    - An uncaught Python exception is the [None] result of the monad [M].
    - Objects are records, updated functionally; the cursor tuple that a
      plugin and its collection's state data share is copied, the state
      data being refreshed from the plugins before every read
      ([getState]). *)

From stdpp Require Import gmap strings list fin_maps sorting.
From Stdlib Require Import ZArith Lia Ascii.

Local Open Scope Z_scope.

Set Warnings "-clear-no-such-hyp".

(** ** Events and filters *)

(** The fields of an [EventLogEntry] dictionary that the engine reads. *)
Record Event := mkEvent {
  event_id : Z;                      (* event["id"] *)
  event_type : string;               (* event["event_type"] *)
  attribute_name : option string;    (* event["attribute_name"], None or a str *)
  created_at : Z;                    (* event["created_at"] *)
  session_uuid : string              (* event["session_uuid"] *)
}.

(** [matchEvents]: event type (or ["*"]) to [None] or a list of attribute
    names. *)
Abbreviation MatchEvents := (gmap string (option (list string))).

(** The state of a plugin as [setState] accepts it: an [int] or a
    [(lastEventId, backlog)] tuple. *)
Inductive PluginState :=
| StateInt (n : Z)
| StateTuple (lastEventId : option Z) (backlog : gmap Z Z).

(** What [pickle.load] can do with the bytes of the event id file: return
    the pickled map from collection path to plugin name to plugin state,
    raise [pickle.UnpicklingError], or raise something else. *)
Inductive PickleResult :=
| Unpickled (eventIdData : gmap string (gmap string PluginState))
| UnpicklingError
| OtherPickleError.

(** ** The world outside the daemon and the trace of what the daemon does *)

Inductive LogLevel := DEBUG | INFO | WARNING | ERROR | CRITICAL.

(** One constructor per kind of log record of the modelled code.  A
    [Timing] record names the callback by its logger; the text of the
    record shows that name without "plugin." and adds the duration
    [endTime - startTime] and the delay [startTime - created_at]. *)
Inductive LogMessage :=
| TimeoutElapsed (k : Z)
| ProcessedFromBacklog (i : Z)
| EventTooOld (i last : Z)
| EventsTooOld (ids : list Z) (last : Z)
| Dispatching (ids : list Z) (callback : string)
| SkippingInactiveCallback (callback : string)
| EventNeverHappened (i : Z)
| EventsNeverHappened (lo hi : Z)
| AddingToBacklog (i : Z)
| ErrorProcessing (stopNote : bool)
| Timing (event_id created_at : Z) (logger : string) (startTime endTime : Z)
    (error : bool)
| SkippingInactive
| GotEvents (n : nat) (first last : Z)
| UnableToConnect (attempt maxRetries : Z) (msg : string)
| ReadLastEventId (n : Z).

Inductive Effect :=
| Log (logger : string) (level : LogLevel) (msg : LogMessage)
| Invoke (callback : string) (events : list Event)
| SetSessionUuid (callback : string) (uuid : string)
| Sleep (seconds : Z).

(** What one call of [sg.find] can do. *)
Inductive FindOutcome :=
| Found (events : list Event)
| ProtocolError (msg : string)
| ResponseError (msg : string)
| SocketError (msg : string)
| UnknownError (msg : string).

(** The operations of the outside world the modelled code calls. *)
Class Environment (World : Type) := {
  (* datetime.datetime.now() *)
  clock_now : World → Z * World;
  (* self._sg.find("EventLogEntry", [["id", "greater_than", n]], ..., limit) *)
  sg_find : Z → Z → World → FindOutcome * World;
  (* time.sleep(seconds) *)
  time_sleep : Z → World → World;
  (* whether the optional sentry_sdk module was importable *)
  sentry_sdk : bool;
  (* pickle.load on a file with these bytes *)
  pickle_load : string → PickleResult
}.

Section Daemon.
Context {World : Type} `{Environment World}.

Record St := mkSt { world : World; trace : list Effect }.

Definition M (A : Type) : Type := St → option (A * St).

Definition ret {A} (a : A) : M A := λ s, Some (a, s).

Definition bind {A B} (m : M A) (k : A → M B) : M B :=
  λ s, match m s with
       | Some (a, s') => k a s'
       | None => None
       end.

Definition raise {A} : M A := λ _, None.

Definition emit (e : Effect) : M unit :=
  λ s, Some (tt, mkSt (world s) (trace s ++ [e])).

Definition emit_all (es : list Effect) : M unit :=
  λ s, Some (tt, mkSt (world s) (trace s ++ es)).

Definition now : M Z :=
  λ s, let '(t, w) := clock_now (world s) in Some (t, mkSt w (trace s)).

Definition in_world {A} (f : World → A * World) : M A :=
  λ s, let '(a, w) := f (world s) in Some (a, mkSt w (trace s)).

End Daemon.

Arguments St World : clear implicits.
Arguments M World A : clear implicits.

Declare Scope daemon_scope.
Delimit Scope daemon_scope with daemon.
Notation "x <- m ;; k" := (bind m (λ x, k))
  (at level 100, m at next level, right associativity) : daemon_scope.
Notation "m ;; k" := (bind m (λ _, k))
  (at level 100, right associativity) : daemon_scope.
Local Open Scope daemon_scope.

(** ** callback.py *)

Section Callbacks.
Context {World : Type} `{Environment World}.

(** What a callback reads of its engine: [self._engine._useSessionUUId]
    and whether [self._engine.timing_logger] is set. *)
Record EngineSettings := mkSettings {
  _useSessionUUId : bool;
  timing_logger : bool
}.

(** A [Callback] (argument type [Event]) or a [BatchCallback] (argument
    type [list Event]).  [_callback] is the user function: it runs in
    the world and either returns ([false]) or raises ([true]). *)
Record Callback (A : Type) := mkCallback {
  _name : string;
  _logger : string;
  _engine : EngineSettings;
  _matchEvents : option MatchEvents;
  _stopOnError : bool;
  _active : bool;
  _callback : A → World → bool * World
}.
Arguments mkCallback {A}.
Arguments _engine {A}.
Arguments _name {A}.
Arguments _logger {A}.
Arguments _matchEvents {A}.
Arguments _stopOnError {A}.
Arguments _active {A}.
Arguments _callback {A}.

Definition deactivate {A} (cb : Callback A) : Callback A :=
  mkCallback (_name cb) (_logger cb) (_engine cb) (_matchEvents cb)
    (_stopOnError cb) false (_callback cb).

Definition isActive {A} (cb : Callback A) : bool := _active cb.

(** [Callback.canProcess] *)
Definition canProcess {A} (cb : Callback A) (event : Event) : bool :=
  match _matchEvents cb with
  | None => true
  | Some matchEvents =>
    if decide (matchEvents = ∅) then true
    else
      let eventType :=
        if decide (is_Some (matchEvents !! "*"%string)) then Some "*"%string
        else if decide (is_Some (matchEvents !! event_type event))
             then Some (event_type event)
             else None in
      match eventType with
      | None => false
      | Some eventType =>
        match matchEvents !! eventType with
        | None => false
        | Some None => true
        | Some (Some attributes) =>
          if decide ("*"%string ∈ attributes) then true
          else match attribute_name event with
               | Some a => bool_decide (a ≠ ""%string ∧ a ∈ attributes)
               | None => false
               end
        end
      end
  end.

(** The body shared by [Callback.process] and [BatchCallback.process];
    [events] is the event, or the events, of the argument.  Set the
    session uuid of the (last) event on the callback's upstream handle
    and read the clock, if the engine says so; run the user function;
    when it raises, log twice at critical (the second record carries
    the sentry extras) and, if [stopOnError], deactivate; write one
    timing record per event; return the callback and its [_active]
    flag. *)
Definition run_callback {A} (events : A → list Event) (cb : Callback A) (arg : A)
  : M World (Callback A * bool) :=
  (if _useSessionUUId (_engine cb) then
     match last (events arg) with
     | Some event => emit (SetSessionUuid (_name cb) (session_uuid event))
     | None => ret tt
     end
   else ret tt) ;;
  startTime <- (if timing_logger (_engine cb) then now else ret 0) ;;
  emit (Invoke (_name cb) (events arg)) ;;
  error <- in_world (_callback cb arg) ;;
  cb' <- (if (error : bool) then
            emit (Log (_logger cb) CRITICAL (ErrorProcessing false)) ;;
            emit (Log (_logger cb) CRITICAL
                    (ErrorProcessing (sentry_sdk && _stopOnError cb))) ;;
            ret (if _stopOnError cb then deactivate cb else cb)
          else ret cb) ;;
  (if timing_logger (_engine cb) then
     endTime <- now ;;
     emit_all ((λ event, Log "timing" INFO
                           (Timing (event_id event) (created_at event)
                              (_logger cb) startTime endTime error))
               <$> events arg)
   else ret tt) ;;
  ret (cb', _active cb').

(** [Callback.process] *)
Definition Callback_process (cb : Callback Event) (event : Event)
  : M World (Callback Event * bool) :=
  run_callback (λ e, [e]) cb event.

(** [BatchCallback.process] *)
Definition BatchCallback_process (cb : Callback (list Event))
  (events : list Event) : M World (Callback (list Event) * bool) :=
  run_callback (λ es, es) cb events.

End Callbacks.

Arguments Callback World A : clear implicits.
Arguments mkCallback {World A}.
Arguments _engine {World A}.
Arguments _name {World A}.
Arguments _logger {World A}.
Arguments _matchEvents {World A}.
Arguments _stopOnError {World A}.
Arguments _active {World A}.
Arguments _callback {World A}.

(** ** plugin.py *)

Section Plugins.
Context {World : Type} `{Environment World}.

(** [timedelta(minutes=n)] *)
Definition minutes (n : Z) : Z := n * 60 * 1000000.

(** time in minutes after which we consider a pending event won't happen *)
Definition BACKLOG_TIMEOUT : Z := 5.

(** A [Plugin] (callbacks take one event) or a [BatchPlugin] (callbacks
    take a list of events). *)
Record Plugin (A : Type) := mkPlugin {
  _pluginName : string;
  p_active : bool;                       (* self._active *)
  _callbacks : list (Callback World A);
  _lastEventId : option Z;
  _backlog : gmap Z Z
}.
Arguments mkPlugin {A}.
Arguments _pluginName {A}.
Arguments p_active {A}.
Arguments _callbacks {A}.
Arguments _lastEventId {A}.
Arguments _backlog {A}.

Definition getName {A} (p : Plugin A) : string := _pluginName p.

(** [self.logger]: the logger "plugin.<name>" *)
Definition logger {A} (p : Plugin A) : string := "plugin." +:+ getName p.

Definition with_callbacks {A} (cbs : list (Callback World A)) (a : bool)
  (p : Plugin A) : Plugin A :=
  mkPlugin (_pluginName p) a cbs (_lastEventId p) (_backlog p).

Definition with_cursor {A} (l : option Z) (b : gmap Z Z) (p : Plugin A)
  : Plugin A :=
  mkPlugin (_pluginName p) (p_active p) (_callbacks p) l b.

(** [Plugin.setState] *)
Definition Plugin_setState {A} (state : PluginState) (p : Plugin A) : Plugin A :=
  match state with
  | StateInt n => with_cursor (Some n) (_backlog p) p
  | StateTuple l b => with_cursor l b p
  end.

(** [Plugin.getState] *)
Definition Plugin_getState {A} (p : Plugin A) : PluginState :=
  StateTuple (_lastEventId p) (_backlog p).

(** [del d[k]]: [KeyError] when [k] is not a key. *)
Definition dict_del (k : Z) (d : gmap Z Z) : M World (gmap Z Z) :=
  match d !! k with
  | Some _ => ret (delete k d)
  | None => raise
  end.

(** [d[k]]: [KeyError] when [k] is not a key. *)
Definition dict_get (k : Z) (d : gmap Z Z) : M World Z :=
  match d !! k with
  | Some v => ret v
  | None => raise
  end.

(** The loop of [Plugin.getNextUnprocessedEventId] over
    [list(self._backlog)], a snapshot of the keys: [v = self._backlog[k]]
    reads the live dictionary. *)
Fixpoint getNext_loop (lg : string) (t : Z) (keys : list Z)
  (backlog : gmap Z Z) (nextId : option Z) : M World (gmap Z Z * option Z) :=
  match keys with
  | [] => ret (backlog, nextId)
  | k :: keys' =>
    v <- dict_get k backlog ;;
    if bool_decide (v < t) then
      emit (Log lg WARNING (TimeoutElapsed k)) ;;
      backlog' <- dict_del k backlog ;;
      getNext_loop lg t keys' backlog' nextId
    else
      let nextId' :=
        match nextId with
        | None => Some k
        | Some n => if bool_decide (k < n) then Some k else Some n
        end in
      getNext_loop lg t keys' backlog nextId'
  end.

(** [Plugin.getNextUnprocessedEventId].  [if self._lastEventId:] is
    Python truthiness: neither [None] nor [0]. *)
Definition Plugin_getNextUnprocessedEventId {A} (p : Plugin A)
  : M World (Plugin A * option Z) :=
  let nextId :=
    match _lastEventId p with
    | Some l => if bool_decide (l ≠ 0) then Some (l + 1) else None
    | None => None
    end in
  t <- now ;;
  r <- getNext_loop (logger p) t (map_to_list (_backlog p)).*1 (_backlog p) nextId ;;
  ret (with_cursor (_lastEventId p) r.1 p, r.2).

(** The loop of [_updateLastEventId] over [range(lastEventId + 1, id)]. *)
Fixpoint backlog_add (lg : string) (expiration : Z) (skipped : list Z)
  (backlog : gmap Z Z) : M World (gmap Z Z) :=
  match skipped with
  | [] => ret backlog
  | skippedId :: rest =>
    emit (Log lg INFO (AddingToBacklog skippedId)) ;;
    backlog_add lg expiration rest (<[skippedId := expiration]> backlog)
  end.

(** [Plugin._updateLastEventId] *)
Definition _updateLastEventId {A} (event : Event) (p : Plugin A)
  : M World (Plugin A) :=
  backlog <-
    match _lastEventId p with
    | Some last =>
      if bool_decide (event_id event > last + 1) then
        t <- now ;;
        if bool_decide (t > created_at event + minutes BACKLOG_TIMEOUT) then
          (if bool_decide (event_id event = last + 2)
           then emit (Log (logger p) INFO (EventNeverHappened (last + 1)))
           else emit (Log (logger p) INFO
                        (EventsNeverHappened (last + 1) (event_id event - 1)))) ;;
          ret (_backlog p)
        else
          t' <- now ;;
          backlog_add (logger p) (t' + minutes BACKLOG_TIMEOUT)
            (seqZ (last + 1) (event_id event - (last + 1))) (_backlog p)
      else ret (_backlog p)
    | None => ret (_backlog p)
    end ;;
  ret (with_cursor (Some (event_id event)) backlog p).

(** The loop of [Plugin._process] over the callbacks; the second
    component tells whether the loop ended in
    [self._active = False; break]. *)
Fixpoint _process_loop (lg : string) (event : Event)
  (cbs : list (Callback World Event))
  : M World (list (Callback World Event) * bool) :=
  match cbs with
  | [] => ret ([], false)
  | callback :: rest =>
    if isActive callback then
      if canProcess callback event then
        emit (Log lg DEBUG (Dispatching [event_id event] (_name callback))) ;;
        r <- Callback_process callback event ;;
        if negb r.2 then ret (r.1 :: rest, true)
        else
          r' <- _process_loop lg event rest ;;
          ret (r.1 :: r'.1, r'.2)
      else
        r' <- _process_loop lg event rest ;;
        ret (callback :: r'.1, r'.2)
    else
      emit (Log lg DEBUG (SkippingInactiveCallback (_name callback))) ;;
      r' <- _process_loop lg event rest ;;
      ret (callback :: r'.1, r'.2)
  end.

(** [Plugin._process] *)
Definition Plugin__process (event : Event) (p : Plugin Event)
  : M World (Plugin Event * bool) :=
  r <- _process_loop (logger p) event (_callbacks p) ;;
  let p' := with_callbacks r.1 (if r.2 then false else p_active p) p in
  ret (p', p_active p').

(** [Plugin.process] *)
Definition Plugin_process (event : Event) (p : Plugin Event)
  : M World (Plugin Event * bool) :=
  if decide (is_Some (_backlog p !! event_id event)) then
    r <- Plugin__process event p ;;
    if r.2 then
      emit (Log (logger p) INFO (ProcessedFromBacklog (event_id event))) ;;
      backlog <- dict_del (event_id event) (_backlog r.1) ;;
      p' <- _updateLastEventId event
              (with_cursor (_lastEventId r.1) backlog r.1) ;;
      ret (p', p_active p')
    else ret (r.1, p_active r.1)
  else
    match _lastEventId p with
    | Some last =>
      if bool_decide (event_id event ≤ last) then
        emit (Log (logger p) DEBUG (EventTooOld (event_id event) last)) ;;
        ret (p, p_active p)
      else
        r <- Plugin__process event p ;;
        if r.2 then
          p' <- _updateLastEventId event r.1 ;;
          ret (p', p_active p')
        else ret (r.1, p_active r.1)
    | None =>
      r <- Plugin__process event p ;;
      if r.2 then
        p' <- _updateLastEventId event r.1 ;;
        ret (p', p_active p')
      else ret (r.1, p_active r.1)
    end.

(** The loop of [BatchPlugin._process] over the callbacks. *)
Fixpoint Batch_process_loop (lg : string) (events : list Event)
  (cbs : list (Callback World (list Event)))
  : M World (list (Callback World (list Event)) * bool) :=
  match cbs with
  | [] => ret ([], false)
  | callback :: rest =>
    if isActive callback then
      let events_to_process :=
        filter (λ event, canProcess callback event = true) events in
      match events_to_process with
      | _ :: _ =>
        emit (Log lg DEBUG (Dispatching (event_id <$> events_to_process)
                              (_name callback))) ;;
        r <- BatchCallback_process callback events_to_process ;;
        if negb r.2 then ret (r.1 :: rest, true)
        else
          r' <- Batch_process_loop lg events rest ;;
          ret (r.1 :: r'.1, r'.2)
      | [] =>
        r' <- Batch_process_loop lg events rest ;;
        ret (callback :: r'.1, r'.2)
      end
    else
      emit (Log lg DEBUG (SkippingInactiveCallback (_name callback))) ;;
      r' <- Batch_process_loop lg events rest ;;
      ret (callback :: r'.1, r'.2)
  end.

(** [BatchPlugin._process] *)
Definition BatchPlugin__process (events : list Event) (p : Plugin (list Event))
  : M World (Plugin (list Event) * bool) :=
  r <- Batch_process_loop (logger p) events (_callbacks p) ;;
  let p' := with_callbacks r.1 (if r.2 then false else p_active p) p in
  ret (p', p_active p').

(** [for event in events_in_backlog: ... del ...; self._updateLastEventId(event)] *)
Fixpoint Batch_ack_backlog (events_in_backlog : list Event)
  (p : Plugin (list Event)) : M World (Plugin (list Event)) :=
  match events_in_backlog with
  | [] => ret p
  | event :: rest =>
    emit (Log (logger p) INFO (ProcessedFromBacklog (event_id event))) ;;
    backlog <- dict_del (event_id event) (_backlog p) ;;
    p' <- _updateLastEventId event (with_cursor (_lastEventId p) backlog p) ;;
    Batch_ack_backlog rest p'
  end.

(** [for event in events: self._updateLastEventId(event)] *)
Fixpoint Batch_ack (events : list Event) (p : Plugin (list Event))
  : M World (Plugin (list Event)) :=
  match events with
  | [] => ret p
  | event :: rest =>
    p' <- _updateLastEventId event p ;;
    Batch_ack rest p'
  end.

(** [BatchPlugin.process] *)
Definition BatchPlugin_process (events : list Event) (p : Plugin (list Event))
  : M World (Plugin (list Event) * bool) :=
  let events_in_backlog :=
    filter (λ event, is_Some (_backlog p !! event_id event)) events in
  let old_events :=
    match _lastEventId p with
    | Some last => filter (λ event, event_id event ≤ last) events
    | None => []
    end in
  match events_in_backlog with
  | _ :: _ =>
    r <- BatchPlugin__process events p ;;
    if r.2 then
      p' <- Batch_ack_backlog events_in_backlog r.1 ;;
      ret (p', p_active p')
    else ret (r.1, p_active r.1)
  | [] =>
    match old_events, _lastEventId p with
    | _ :: _, Some last =>
      emit (Log (logger p) DEBUG
              (EventsTooOld (event_id <$> old_events) last)) ;;
      ret (p, p_active p)
    | _, _ =>
      r <- BatchPlugin__process events p ;;
      if r.2 then
        p' <- Batch_ack events r.1 ;;
        ret (p', p_active p')
      else ret (r.1, p_active r.1)
    end
  end.

End Plugins.

Arguments Plugin World A : clear implicits.
Arguments mkPlugin {World A}.
Arguments _pluginName {World A}.
Arguments p_active {World A}.
Arguments _callbacks {World A}.
Arguments _lastEventId {World A}.
Arguments _backlog {World A}.

(** ** pluginCollection.py *)

(** The order of [str]: lexicographic on the characters' codes. *)
Definition str_le (a b : string) : Prop := String.leb a b = true.

#[export] Instance str_le_dec : RelDecision str_le.
Proof. intros a b. unfold str_le. apply _. Defined.

(** [sorted(d.keys())] on [str] keys *)
Definition sorted_keys {V} (d : gmap string V) : list string :=
  merge_sort str_le (map_to_list d).*1.

Section Collections.
Context {World : Type} `{Environment World}.

Record PluginCollection (A : Type) := mkCollection {
  path : string;
  _plugins : gmap string (Plugin World A);     (* basename to plugin *)
  _stateData : gmap string PluginState
}.
Arguments mkCollection {A}.
Arguments path {A}.
Arguments _plugins {A}.
Arguments _stateData {A}.

(** [for plugin in self: body]: [__iter__] sorts the basenames once and
    yields [self._plugins[basename]] for each; the body works on the
    plugin and on the rest of the state [S] it touches. *)
Fixpoint for_plugins {A S} (body : Plugin World A → S → M World (Plugin World A * S))
  (basenames : list string) (plugins : gmap string (Plugin World A)) (acc : S)
  : M World (gmap string (Plugin World A) * S) :=
  match basenames with
  | [] => ret (plugins, acc)
  | basename :: rest =>
    match plugins !! basename with
    | Some plugin =>
      r <- body plugin acc ;;
      for_plugins body rest (<[basename := r.1]> plugins) r.2
    | None => raise
    end
  end.

(** What [setState] can be given: an [int] or a mapping from plugin name
    to plugin state. *)
Inductive CollectionState :=
| CStateInt (n : Z)
| CStateMap (states : gmap string PluginState).

(** [if pluginState:] for the value of [dict.get] *)
Definition state_truthy (st : option PluginState) : bool :=
  match st with
  | None => false
  | Some (StateInt n) => bool_decide (n ≠ 0)
  | Some (StateTuple _ _) => true
  end.

(** [PluginCollection.setState] *)
Definition PluginCollection_setState {A} (state : CollectionState)
  (c : PluginCollection A) : M World (PluginCollection A) :=
  match state with
  | CStateInt n =>
    r <- for_plugins
           (λ plugin stateData,
              let plugin' := Plugin_setState (StateInt n) plugin in
              ret (plugin',
                   <[getName plugin' := Plugin_getState plugin']> stateData))
           (sorted_keys (_plugins c)) (_plugins c) (_stateData c) ;;
    ret (mkCollection (path c) r.1 r.2)
  | CStateMap states =>
    r <- for_plugins
           (λ plugin (_ : unit),
              let pluginState := states !! getName plugin in
              if state_truthy pluginState
              then ret (from_option (λ st, Plugin_setState st plugin) plugin
                          pluginState, tt)
              else ret (plugin, tt))
           (sorted_keys (_plugins c)) (_plugins c) tt ;;
    ret (mkCollection (path c) r.1 states)
  end.

(** [PluginCollection.getState] *)
Definition PluginCollection_getState {A} (c : PluginCollection A)
  : M World (PluginCollection A * gmap string PluginState) :=
  r <- for_plugins
         (λ plugin stateData,
            ret (plugin, <[getName plugin := Plugin_getState plugin]> stateData))
         (sorted_keys (_plugins c)) (_plugins c) (_stateData c) ;;
  ret (mkCollection (path c) r.1 r.2, r.2).

(** [newId is not None and (eId is None or newId < eId)] *)
Definition keep_least (eId newId : option Z) : option Z :=
  match newId, eId with
  | Some n, None => Some n
  | Some n, Some e => if bool_decide (n < e) then Some n else Some e
  | None, _ => eId
  end.

(** [PluginCollection.getNextUnprocessedEventId] *)
Definition PluginCollection_getNextUnprocessedEventId {A}
  (c : PluginCollection A) : M World (PluginCollection A * option Z) :=
  r <- for_plugins
         (λ plugin eId,
            if negb (p_active plugin) then ret (plugin, eId)
            else
              r <- Plugin_getNextUnprocessedEventId plugin ;;
              ret (r.1, keep_least eId r.2))
         (sorted_keys (_plugins c)) (_plugins c) None ;;
  ret (mkCollection (path c) r.1 (_stateData c), r.2).

(** [PluginCollection.process] and [BatchPluginCollection.process]; the
    two differ in the plugin's [process] only. *)
Definition process_if_active {A E}
  (process : E → Plugin World A → M World (Plugin World A * bool))
  (event : E) (plugin : Plugin World A) (_ : unit)
  : M World (Plugin World A * unit) :=
  if p_active plugin then
    r <- process event plugin ;;
    ret (r.1, tt)
  else
    emit (Log (logger plugin) DEBUG SkippingInactive) ;;
    ret (plugin, tt).

Definition Collection_process_with {A E}
  (process : E → Plugin World A → M World (Plugin World A * bool))
  (event : E) (c : PluginCollection A) : M World (PluginCollection A) :=
  r <- for_plugins (process_if_active process event)
         (sorted_keys (_plugins c)) (_plugins c) tt ;;
  ret (mkCollection (path c) r.1 (_stateData c)).

Definition PluginCollection_process :=
  Collection_process_with Plugin_process.

Definition BatchPluginCollection_process :=
  Collection_process_with BatchPlugin_process.

End Collections.

Arguments PluginCollection World A : clear implicits.
Arguments mkCollection {World A}.
Arguments path {World A}.
Arguments _plugins {World A}.
Arguments _stateData {World A}.

(** ** engine.py *)

Section Engines.
Context {World : Type} `{Environment World}.

Record Engine (A : Type) := mkEngine {
  _pluginCollections : list (PluginCollection World A);
  _maxConnRetries : Z;          (* config: [daemon] max_conn_retries *)
  _connRetrySleep : Z;          (* config: [daemon] conn_retry_sleep *)
  maxEventBatchSize : Z         (* config.getMaxEventBatchSize() *)
}.
Arguments mkEngine {A}.
Arguments _pluginCollections {A}.
Arguments _maxConnRetries {A}.
Arguments _connRetrySleep {A}.
Arguments maxEventBatchSize {A}.

Definition with_collections {A} (cs : list (PluginCollection World A))
  (eng : Engine A) : Engine A :=
  mkEngine cs (_maxConnRetries eng) (_connRetrySleep eng) (maxEventBatchSize eng).

(** [self.log]: the logger "engine" *)
Definition engine_log : string := "engine".

(** [time.sleep(seconds)] *)
Definition sleep (seconds : Z) : M World unit :=
  emit (Sleep seconds) ;;
  in_world (λ w, (tt, time_sleep seconds w)).

(** [Engine._writeConnectionAttemptLog] *)
Definition _writeConnectionAttemptLog {A} (eng : Engine A)
  (conn_attempts : Z) (msg : string) : M World unit :=
  if bool_decide (conn_attempts = _maxConnRetries eng - 1) then
    emit (Log engine_log ERROR
            (UnableToConnect conn_attempts (_maxConnRetries eng) msg)) ;;
    sleep (_connRetrySleep eng)
  else
    emit (Log engine_log WARNING
            (UnableToConnect conn_attempts (_maxConnRetries eng) msg)).

(** [[coll.getNextUnprocessedEventId() for coll in self._pluginCollections]] *)
Fixpoint collections_nextIds {A} (cs : list (PluginCollection World A))
  : M World (list (PluginCollection World A) * list (option Z)) :=
  match cs with
  | [] => ret ([], [])
  | coll :: rest =>
    r <- PluginCollection_getNextUnprocessedEventId coll ;;
    r' <- collections_nextIds rest ;;
    ret (r.1 :: r'.1, r.2 :: r'.2)
  end.

(** The retry loop of [_getNewEvents] over [range(self._maxConnRetries)]. *)
Fixpoint find_attempts {A} (eng : Engine A) (nextEventId : Z)
  (attempts : list Z) : M World (list Event) :=
  match attempts with
  | [] => ret []
  | conn_attempts :: rest =>
    outcome <- in_world (sg_find (nextEventId - 1) (maxEventBatchSize eng)) ;;
    match outcome with
    | Found events =>
      match events with
      | first :: _ =>
        emit (Log engine_log DEBUG
                (GotEvents (length events) (event_id first)
                   (event_id (List.last events first)))) ;;
        ret events
      | [] => ret events
      end
    | ProtocolError msg | ResponseError msg | SocketError msg =>
      _writeConnectionAttemptLog eng conn_attempts msg ;;
      find_attempts eng nextEventId rest
    | UnknownError msg =>
      _writeConnectionAttemptLog eng conn_attempts ("Unknown error: " +:+ msg) ;;
      find_attempts eng nextEventId rest
    end
  end.

(** [Engine._getNewEvents] *)
Definition _getNewEvents {A} (eng : Engine A)
  : M World (Engine A * list Event) :=
  r <- collections_nextIds (_pluginCollections eng) ;;
  let nextEventId := foldl keep_least None r.2 in
  let eng' := with_collections r.1 eng in
  match nextEventId with
  | Some nextEventId =>
    events <- find_attempts eng' nextEventId (seqZ 0 (_maxConnRetries eng')) ;;
    ret (eng', events)
  | None => ret (eng', [])
  end.

(** *** The legacy event id file *)

(** ASCII whitespace, as [bytes.strip] understands it. *)
Definition is_space (c : Ascii.ascii) : bool :=
  bool_decide (c ∈ [" "; "009"; "010"; "011"; "012"; "013"]%char).

Definition is_digit (c : Ascii.ascii) : bool :=
  bool_decide (48 ≤ Z.of_nat (Ascii.nat_of_ascii c) ≤ 57).

(** [fh.readline()]: up to and including the first newline. *)
Fixpoint bytes_readline (b : string) : string :=
  match b with
  | EmptyString => EmptyString
  | String c rest =>
    if bool_decide (c = "010"%char) then String c EmptyString
    else String c (bytes_readline rest)
  end.

Fixpoint bytes_lstrip (b : string) : string :=
  match b with
  | EmptyString => EmptyString
  | String c rest => if is_space c then bytes_lstrip rest else b
  end.

(** [bytes.strip()] *)
Definition bytes_strip (b : string) : string :=
  String.rev (bytes_lstrip (String.rev (bytes_lstrip b))).

Fixpoint all_digits (b : string) : bool :=
  match b with
  | EmptyString => true
  | String c rest => is_digit c && all_digits rest
  end.

(** [bytes.isdigit()]: not empty and ASCII digits only. *)
Definition bytes_isdigit (b : string) : bool :=
  match b with
  | EmptyString => false
  | _ => all_digits b
  end.

Fixpoint int_of_digits (acc : Z) (b : string) : Z :=
  match b with
  | EmptyString => acc
  | String c rest =>
    int_of_digits (10 * acc + (Z.of_nat (Ascii.nat_of_ascii c) - 48)) rest
  end.

(** [int(line)] on a line of digits *)
Definition int_of_bytes (b : string) : Z := int_of_digits 0 b.

(** [for collection in self._pluginCollections: collection.setState(state)] *)
Fixpoint collections_setState {A} (state : CollectionState)
  (cs : list (PluginCollection World A))
  : M World (list (PluginCollection World A)) :=
  match cs with
  | [] => ret []
  | collection :: rest =>
    collection' <- PluginCollection_setState state collection ;;
    rest' <- collections_setState state rest ;;
    ret (collection' :: rest')
  end.

(** The handler of [pickle.UnpicklingError] in [_loadEventIdData]: read
    an old-style id file, a single int on the first line. *)
Definition load_legacy_id {A} (contents : string) (eng : Engine A)
  : M World (Engine A) :=
  let line := bytes_strip (bytes_readline contents) in
  if bytes_isdigit line then
    let lastEventId := int_of_bytes line in
    emit (Log engine_log DEBUG (ReadLastEventId lastEventId)) ;;
    cs <- collections_setState (CStateInt lastEventId) (_pluginCollections eng) ;;
    ret (with_collections cs eng)
  else ret eng.

(** [Engine._loadEventIdData].  [file] is the content of the event id
    file when one is configured and exists.  Two parts of the function
    are left open: [restore], what is done with a map that unpickled
    (the body of the inner [try]), and [bootstrap], what is done without
    a file (the outer [else]). *)
Definition _loadEventIdData {A}
  (restore : gmap string (gmap string PluginState) → Engine A → M World (Engine A))
  (bootstrap : Engine A → M World (Engine A))
  (file : option string) (eng : Engine A) : M World (Engine A) :=
  match file with
  | Some contents =>
    match pickle_load contents with
    | Unpickled eventIdData => restore eventIdData eng
    | UnpicklingError => load_legacy_id contents eng
    | OtherPickleError => raise
    end
  | None => bootstrap eng
  end.

End Engines.

Arguments Engine World A : clear implicits.
Arguments mkEngine {World A}.
Arguments _pluginCollections {World A}.
Arguments _maxConnRetries {World A}.
Arguments _connRetrySleep {World A}.
Arguments maxEventBatchSize {World A}.

(** ** registrar.py *)

(** The outcome of an attribute access. *)
Inductive Lookup (V : Type) :=
| Value (v : V)
| AttributeError (msg : string).
Arguments Value {V}.
Arguments AttributeError {V}.

Section Registrars.
Context {P : Type}.

Record Registrar := mkRegistrar {
  _plugin : P;
  _allowed : list string
}.

(** What an attribute access on a registrar can return. *)
Inductive Attribute :=
| OfPlugin (plugin : P) (name : string)   (* getattr(plugin, name) *)
| ThePlugin (plugin : P)                  (* registrar._plugin *)
| TheAllowed (names : list string)        (* registrar._allowed *)
| OfClass (name : string)                 (* a method of class Registrar *)
| OfObject (name : string).               (* inherited from object *)

(** [Registrar.__init__] *)
Definition Registrar__init__ (plugin : P) : Registrar :=
  mkRegistrar plugin ["logger"; "setEmails"; "registerCallback"].

(** The attributes of a [Plugin] or [BatchPlugin]: those set in
    [Plugin.__init__] and the methods of the class. *)
Definition Plugin_attributes : list string :=
  ["_engine"; "_path"; "_pluginName"; "_active"; "_callbacks"; "_mtime";
   "_lastEventId"; "_backlog"; "logger";
   "getName"; "setState"; "getState"; "getNextUnprocessedEventId";
   "isActive"; "setEmails"; "load"; "registerCallback"; "process";
   "_process"; "_updateLastEventId"; "__iter__"; "__str__"; "__init__"].

(** Names that every Python object answers to (the attributes of
    [object] and of a class instance). *)
Variable object_has : string → bool.

(** [getattr(plugin, name)] *)
Definition Plugin_getattr (plugin : P) (name : string) : Lookup Attribute :=
  if decide (name ∈ Plugin_attributes) then Value (OfPlugin plugin name)
  else if object_has name then Value (OfObject name)
  else AttributeError ("'Plugin' object has no attribute '" +:+ name +:+ "'").

(** [Registrar.__getattr__] *)
Definition Registrar__getattr__ (self : Registrar) (name : string)
  : Lookup Attribute :=
  if decide (name ∈ _allowed self) then Plugin_getattr (_plugin self) name
  else AttributeError
         ("type object 'Registrar' has no attribute '" +:+ name +:+ "'").

(** [registrar.name]: Python looks in the instance and in the class (and
    in [object]) first and calls [__getattr__] only when that finds
    nothing. *)
Definition Registrar_getattribute (self : Registrar) (name : string)
  : Lookup Attribute :=
  if decide (name = "_plugin") then Value (ThePlugin (_plugin self))
  else if decide (name = "_allowed") then Value (TheAllowed (_allowed self))
  else if decide (name ∈ ["__init__"; "getLogger"; "__getattr__"])
  then Value (OfClass name)
  else if object_has name then Value (OfObject name)
  else Registrar__getattr__ self name.

(** [Registrar.getLogger]: [return self.logger] *)
Definition Registrar_getLogger (self : Registrar) : Lookup Attribute :=
  Registrar_getattribute self "logger".

End Registrars.

Arguments Registrar P : clear implicits.
Arguments Attribute P : clear implicits.

(** * Loading and reloading the plugins *)

(** ** Paths (posixpath, on the names the loader handles) *)

(** [str.startswith] *)
Definition str_startswith (prefix s : string) : bool := String.prefix prefix s.

(** [str.endswith] *)
Fixpoint str_endswith (suffix s : string) : bool :=
  if decide (s = suffix) then true
  else match s with
       | EmptyString => false
       | String _ rest => str_endswith suffix rest
       end.

(** [os.path.join(a, b)] *)
Definition os_path_join (a b : string) : string :=
  if str_startswith "/" b then b
  else if decide (a = "") then b
  else if str_endswith "/" a then a +:+ b
  else a +:+ "/" +:+ b.

(** [p.rpartition(c)], as [(head, tail)], when [c] occurs in [p]. *)
Fixpoint rsplit_at (c : Ascii.ascii) (p : string) : option (string * string) :=
  match p with
  | EmptyString => None
  | String x rest =>
    match rsplit_at c rest with
    | Some (head, tail) => Some (String x head, tail)
    | None => if decide (x = c) then Some (EmptyString, rest) else None
    end
  end.

(** [os.path.split(p)[1]]: what follows the last slash. *)
Definition os_path_basename (p : string) : string :=
  match rsplit_at "/" p with
  | Some (_, tail) => tail
  | None => p
  end.

Fixpoint all_dots (s : string) : bool :=
  match s with
  | EmptyString => true
  | String x rest => bool_decide (x = "."%char) && all_dots rest
  end.

(** [os.path.splitext(name)[0]] for a [name] without a slash: cut at
    the last dot, unless only dots come before it. *)
Definition splitext_root (name : string) : string :=
  match rsplit_at "." name with
  | Some (root, _) => if all_dots root then name else root
  | None => name
  end.

(** ** The loader's view of the world *)

(** One completed call of [registerCallback] by a plugin's
    [registerCallbacks]: the name the [Callback] finds for the function
    ([callback.__name__]), the function, and the arguments [matchEvents]
    and [stopOnError]. *)
Record Registration (World A : Type) := mkRegistration {
  reg_name : string;
  reg_callback : A → World → bool * World;
  reg_matchEvents : option MatchEvents;
  reg_stopOnError : bool
}.
Arguments mkRegistration {World A}.
Arguments reg_name {World A}.
Arguments reg_callback {World A}.
Arguments reg_matchEvents {World A}.
Arguments reg_stopOnError {World A}.

(** What executing a plugin file and calling its [registerCallbacks]
    comes to: the execution raises; or the module has no callable
    [registerCallbacks]; or the function is called with the registrar,
    completes the calls [calls] of [registerCallback] in this order,
    and then returns or raises. *)
Inductive ModuleOutcome (World A : Type) :=
| ExecFailed
| NoRegisterFunction
| Registered (calls : list (Registration World A)) (raised : bool).
Arguments ExecFailed {World A}.
Arguments NoRegisterFunction {World A}.
Arguments Registered {World A}.

(** The operations on the disk that the loader calls; [None] is an
    [OSError]. *)
Class Disk (World A : Type) := {
  (* os.listdir(path) *)
  os_listdir : string → World → option (list string);
  (* os.path.isfile(path) *)
  os_path_isfile : string → World → bool;
  (* os.path.getmtime(path) *)
  os_path_getmtime : string → World → option Z;
  (* loader.exec_module(plugin) and regFunc(Registrar(self)) *)
  exec_plugin : string → string → World → ModuleOutcome World A * World
}.

(** The records that loading and the keeping of the event ids write,
    beside those of [LogMessage]. *)
Inductive StartupMessage :=
| LoadingPlugin (path : string)
| ReloadingPlugin (path : string)
| CouldNotLoad (path : string)
| ErrorRunningRegister (path : string)
| NoRegisterCallbacks (path : string)
| LastEventIdFromDatabase (lastEventId : option Z)
| NoStateFound
| CanNotWrite (file : string).

(** One journal for both: what the daemon's dispatching code does
    ([Ran]) and what loading and persistence log ([Logged]). *)
Inductive Entry :=
| Ran (e : Effect)
| Logged (logger : string) (level : LogLevel) (msg : StartupMessage).

Section Loader.
Context {World A : Type} `{Environment World} `{Disk World A}.

(** The state that loading and persistence thread: the world, and the
    journal. *)
Record LSt := mkLSt { disk : World; journal : list Entry }.

Definition L (X : Type) : Type := LSt → option (X * LSt).

Definition lret {X} (x : X) : L X := λ s, Some (x, s).

Definition lbind {X Y} (m : L X) (k : X → L Y) : L Y :=
  λ s, match m s with
       | Some (x, s') => k x s'
       | None => None
       end.

Definition lraise {X} : L X := λ _, None.

Definition log_startup (logger : string) (level : LogLevel)
    (msg : StartupMessage) : L unit :=
  λ s, Some (tt, mkLSt (disk s) (journal s ++ [Logged logger level msg])).

(** Run a piece of the dispatching code: it starts in the world as it
    is, and what it adds to its trace goes to the journal. *)
Definition lift {X} (m : M World X) : L X :=
  λ s, match m (mkSt (disk s) []) with
       | Some (x, d) => Some (x, mkLSt (world d) (journal s ++ (Ran <$> trace d)))
       | None => None
       end.

(** Act on the world. *)
Definition in_disk {X} (f : World → X * World) : L X :=
  λ s, let '(x, w) := f (disk s) in Some (x, mkLSt w (journal s)).

(** Look at the disk. *)
Definition on_disk {X} (f : World → X) : L X := λ s, Some (f (disk s), s).

(** Look at the disk, where the look may raise. *)
Definition try_disk {X} (f : World → option X) : L X :=
  λ s, match f (disk s) with
       | Some x => Some (x, s)
       | None => None
       end.

End Loader.

Arguments LSt World : clear implicits.
Arguments L World X : clear implicits.

Declare Scope loader_scope.
Delimit Scope loader_scope with loader.
Notation "x <- m ;; k" := (lbind m (λ x, k))
  (at level 100, m at next level, right associativity) : loader_scope.
Notation "m ;; k" := (lbind m (λ _, k))
  (at level 100, right associativity) : loader_scope.

(** ** Plugin.__init__, registerCallback and load (plugin.py);
       PluginCollection.load and get_plugin (pluginCollection.py) *)

Section Loading.
Context {World A : Type} `{Environment World} `{Disk World A}.
Local Open Scope loader_scope.

(** What every callback gets from the engine. *)
Variable settings : EngineSettings.

(** [Plugin.__init__] (and [BatchPlugin]'s): a plugin that was never
    loaded.  The set-up of the plugin's logger is not part of the
    model. *)
Definition Plugin__init__ (plugin_path : string) : L World (Plugin World A) :=
  isfile <- on_disk (os_path_isfile plugin_path) ;;
  if negb isfile then lraise
  else lret (mkPlugin (splitext_root (os_path_basename plugin_path))
               true [] None ∅).

(** [Callback.__init__], for a callable with a [__name__] *)
Definition Callback__init__ (plugin : Plugin World A)
    (r : Registration World A) : Callback World A :=
  mkCallback (reg_name r) (logger plugin +:+ "." +:+ reg_name r) settings
    (reg_matchEvents r) (reg_stopOnError r) true (reg_callback r).

(** [Plugin.registerCallback] and [BatchPlugin.registerCallback] *)
Definition Plugin_registerCallback (plugin : Plugin World A)
    (r : Registration World A) : Plugin World A :=
  with_callbacks (_callbacks plugin ++ [Callback__init__ plugin r])
    (p_active plugin) plugin.

(** [Plugin.load].  [_path] and [_mtime], the two fields of a plugin
    that only [load] uses, are passed in, and the new [_mtime] is
    returned with the plugin. *)
Definition Plugin_load (_path : string) (_mtime : option Z)
    (plugin : Plugin World A) : L World (Plugin World A * option Z) :=
  mtime <- try_disk (os_path_getmtime _path) ;;
  stale <-
    match _mtime with
    | None => log_startup engine_log INFO (LoadingPlugin _path) ;; lret true
    | Some loaded =>
      if bool_decide (loaded < mtime)
      then log_startup engine_log INFO (ReloadingPlugin _path) ;; lret true
      else lret false
    end ;;
  if negb (stale : bool) then lret (plugin, _mtime)
  else
    let plugin := with_callbacks [] true plugin in
    outcome <- in_disk (exec_plugin (_pluginName plugin) _path) ;;
    match outcome with
    | ExecFailed =>
      log_startup (logger plugin) ERROR (CouldNotLoad _path) ;;
      lret (with_callbacks [] false plugin, Some mtime)
    | NoRegisterFunction =>
      log_startup engine_log CRITICAL (NoRegisterCallbacks _path) ;;
      lret (with_callbacks [] false plugin, Some mtime)
    | Registered calls raised =>
      let plugin := foldl Plugin_registerCallback plugin calls in
      if raised then
        log_startup engine_log CRITICAL (ErrorRunningRegister _path) ;;
        lret (with_callbacks (_callbacks plugin) false plugin, Some mtime)
      else lret (plugin, Some mtime)
    end.

(** [PluginCollection.get_plugin] *)
Definition get_plugin (collection_path basename : string)
  : L World (Plugin World A) :=
  Plugin__init__ (os_path_join collection_path basename).

(** The loop of [PluginCollection.load] over [os.listdir(self.path)].
    [plugins] is [self._plugins] and [newPlugins] the dictionary being
    filled; [mtimes] holds the [_mtime] of the plugins of either once
    they have been loaded.  A plugin taken from [self._plugins] is the
    same object in both dictionaries, so what [load] does to it shows
    in both. *)
Fixpoint load_loop (collection_path : string) (listing : list string)
    (plugins newPlugins : gmap string (Plugin World A)) (mtimes : gmap string Z)
  : L World (gmap string (Plugin World A) * gmap string Z) :=
  match listing with
  | [] => lret (newPlugins, mtimes)
  | basename :: rest =>
    if negb (str_endswith ".py" basename) || str_startswith "." basename
    then load_loop collection_path rest plugins newPlugins mtimes
    else
      match plugins !! basename with
      | Some plugin =>
        r <- Plugin_load (os_path_join collection_path basename)
               (mtimes !! basename) plugin ;;
        load_loop collection_path rest
          (<[basename := r.1]> plugins) (<[basename := r.1]> newPlugins)
          (from_option (λ t, <[basename := t]> mtimes) mtimes r.2)
      | None =>
        plugin <- get_plugin collection_path basename ;;
        r <- Plugin_load (os_path_join collection_path basename) None plugin ;;
        load_loop collection_path rest
          plugins (<[basename := r.1]> newPlugins)
          (from_option (λ t, <[basename := t]> mtimes) mtimes r.2)
      end
  end.

(** [PluginCollection.load].  The [_mtime]s of the plugins are kept
    beside the collection, by basename; those of plugins that are
    dropped are dropped with them. *)
Definition PluginCollection_load (c : PluginCollection World A)
    (mtimes : gmap string Z)
  : L World (PluginCollection World A * gmap string Z) :=
  listing <- try_disk (os_listdir (path c)) ;;
  r <- load_loop (path c) listing (_plugins c) ∅ mtimes ;;
  lret (mkCollection (path c) r.1 (_stateData c),
        filter (λ kv, is_Some (r.1 !! kv.1)) r.2).

End Loading.


(** * Keeping the event ids (engine.py) *)

(** What one call of [self._sg.find_one("EventLogEntry", ...)] can do:
    return the latest entry, of which the ["id"] is read, or [None]
    when there is no entry; raise one of [sg.ProtocolError],
    [sg.ResponseError], [socket.error]; raise something else. *)
Inductive FindOneOutcome :=
| FoundOne (result : option Z)
| FindOneError (msg : string)
| FindOneUnknownError (msg : string).

(** The operations on the event id file, and the call upstream for the
    latest event; [None] is an [OSError]. *)
Class Storage (World : Type) := {
  (* os.path.exists(file) *)
  os_path_exists : string → World → bool;
  (* open(file, "rb") and what is read from it *)
  read_file : string → World → option string;
  (* with open(file, "wb") as fh: pickle.dump(data, fh, protocol=2) *)
  pickle_dump :
    gmap string (gmap string PluginState) → string → World → option World;
  (* self._sg.find_one("EventLogEntry", filters=[], fields=["id"], order) *)
  sg_find_one : World → FindOneOutcome * World
}.

Section Persistence.
Context {World A : Type} `{Environment World} `{Storage World}.
Local Open Scope loader_scope.

(** The engine with the two things the keeping of the event ids needs
    beside it: [self._eventIdData] and the configured
    [self.config.getEventIdFile()]. *)
Record EngineData := mkEngineData {
  engine : Engine World A;
  _eventIdData : gmap string (gmap string PluginState);
  eventIdFile : option string
}.

Definition with_engine (eng : Engine World A) (d : EngineData) : EngineData :=
  mkEngineData eng (_eventIdData d) (eventIdFile d).

(** The [for conn_attempts in range(self._maxConnRetries)] loop of
    [_getLastEventIdFromDatabase].  There is no [break]: an answer does
    not end the loop. *)
Fixpoint find_one_attempts (eng : Engine World A) (attempts : list Z)
    (lastEventId : option Z) : L World (option Z) :=
  match attempts with
  | [] => lret lastEventId
  | conn_attempts :: rest =>
    outcome <- in_disk sg_find_one ;;
    match outcome with
    | FindOneError msg =>
      lift (_writeConnectionAttemptLog eng conn_attempts msg) ;;
      find_one_attempts eng rest lastEventId
    | FindOneUnknownError msg =>
      lift (_writeConnectionAttemptLog eng conn_attempts
              ("Unknown error: " +:+ msg)) ;;
      find_one_attempts eng rest lastEventId
    | FoundOne result =>
      let lastEventId :=
        match result with
        | Some id => Some id
        | None => lastEventId
        end in
      log_startup engine_log INFO (LastEventIdFromDatabase lastEventId) ;;
      find_one_attempts eng rest lastEventId
    end
  end.

(** [Engine._getLastEventIdFromDatabase]: the first [rounds] turns of
    [while lastEventId is None]; without an answer within them the
    model gives up ([None], as for an exception). *)
Fixpoint _getLastEventIdFromDatabase (rounds : nat) (eng : Engine World A)
  : L World Z :=
  match rounds with
  | O => lraise
  | S rounds' =>
    lastEventId <- find_one_attempts eng (seqZ 0 (_maxConnRetries eng)) None ;;
    match lastEventId with
    | Some id => lret id
    | None => _getLastEventIdFromDatabase rounds' eng
    end
  end.

(** [for collection in self._pluginCollections:
       self._eventIdData[collection.path] = collection.getState()] *)
Fixpoint save_states (cs : list (PluginCollection World A))
    (eventIdData : gmap string (gmap string PluginState))
  : M World (list (PluginCollection World A)
             * gmap string (gmap string PluginState)) :=
  match cs with
  | [] => ret ([], eventIdData)
  | collection :: rest =>
    r <- PluginCollection_getState collection ;;
    r' <- save_states rest (<[path collection := r.2]> eventIdData) ;;
    ret (r.1 :: r'.1, r'.2)
  end%daemon.

(** [Engine._saveEventIdData].  The loop over the items dumps the whole
    of [self._eventIdData] once, at the first state that is not empty,
    and warns if there is none.  The dictionaries are taken by value:
    that the backlog of an entry may be one object with the backlog of
    a plugin is not modelled. *)
Definition _saveEventIdData (d : EngineData) : L World EngineData :=
  match eventIdFile d with
  | Some file =>
    r <- lift (save_states (_pluginCollections (engine d)) (_eventIdData d)) ;;
    let d' := mkEngineData (with_collections r.1 (engine d)) r.2 (eventIdFile d) in
    if bool_decide (Exists (λ state, state ≠ ∅) (map_to_list r.2).*2) then
      written <- on_disk (pickle_dump r.2 file) ;;
      match written with
      | Some w => λ s, Some (d', mkLSt w (journal s))
      | None => log_startup engine_log ERROR (CanNotWrite file) ;; lret d'
      end
    else log_startup engine_log WARNING NoStateFound ;; lret d'
  | None => lret d
  end.

(** The first loop of the inner [try] of [_loadEventIdData]: give each
    collection the state the file has for its path; the positions of
    the collections for which it has none, or an empty one, are
    returned ([noStateCollections]). *)
Fixpoint restore_states (eventIdData : gmap string (gmap string PluginState))
    (position : nat) (cs : list (PluginCollection World A))
  : M World (list (PluginCollection World A) * list nat) :=
  match cs with
  | [] => ret ([], [])
  | collection :: rest =>
    match eventIdData !! path collection with
    | Some state =>
      if decide (state = ∅) then
        r <- restore_states eventIdData (S position) rest ;;
        ret (collection :: r.1, position :: r.2)
      else
        collection' <- PluginCollection_setState (CStateMap state) collection ;;
        r <- restore_states eventIdData (S position) rest ;;
        ret (collection' :: r.1, r.2)
    | None =>
      r <- restore_states eventIdData (S position) rest ;;
      ret (collection :: r.1, position :: r.2)
    end
  end%daemon.

(** [Engine._loadEventIdData], all of it but one part: [fallback], what
    is done for the collections without state in the file (the body of
    [if noStateCollections:]). *)
Definition Engine__loadEventIdData
    (fallback : list nat → EngineData → L World EngineData)
    (rounds : nat) (d : EngineData) : L World EngineData :=
  file <-
    match eventIdFile d with
    | Some file =>
      if decide (file = "") then lret None
      else
        there <- on_disk (os_path_exists file) ;;
        lret (if there : bool then Some file else None)
    | None => lret None
    end ;;
  match file with
  | Some file =>
    contents <- try_disk (read_file file) ;;
    match pickle_load contents with
    | Unpickled eventIdData =>
      r <- lift (restore_states eventIdData 0
                   (_pluginCollections (engine d))) ;;
      let d' := mkEngineData (with_collections r.1 (engine d)) eventIdData
                  (eventIdFile d) in
      match r.2 with
      | [] => lret d'
      | noStateCollections => fallback noStateCollections d'
      end
    | UnpicklingError =>
      eng <- lift (load_legacy_id contents (engine d)) ;;
      lret (with_engine eng d)
    | OtherPickleError => lraise
    end
  | None =>
    lastEventId <- _getLastEventIdFromDatabase rounds (engine d) ;;
    cs <- (if bool_decide (lastEventId ≠ 0)
           then lift (collections_setState (CStateInt lastEventId)
                        (_pluginCollections (engine d)))
           else lret (_pluginCollections (engine d))) ;;
    _saveEventIdData (with_engine (with_collections cs (engine d)) d)
  end.

End Persistence.

Arguments EngineData World A : clear implicits.
Arguments mkEngineData {World A}.
Arguments engine {World A}.
Arguments _eventIdData {World A}.
Arguments eventIdFile {World A}.


(** * Loggers and their handlers (utilities.py, engine.py, config.py) *)

(** A value that can stand where addresses are expected: plugins pass
    what they like to [setEmails]. *)
Inductive PyValue :=
| PyBool (b : bool)
| PyStr (s : string).

(** The [mailhost] of an [SMTPHandler]: a host name, or a
    [(host, port)] tuple. *)
Inductive MailHost :=
| HostName (host : string)
| HostPort (host : string) (port : Z).

(** The handlers of a logger, as far as the daemon tells them apart:
    [CustomSMTPHandler] (an [SMTPHandler]) with the arguments of its
    constructor, [TimedRotatingFileHandler] with its path, and any
    other handler. *)
Inductive Handler :=
| SMTPHandler (mailhost : MailHost) (fromaddr : string)
    (toaddrs : list PyValue) (subject : string)
    (credentials : option string * option string) (secure : bool)
| TimedRotatingFileHandler (filename : string)
| OtherHandler (name : string).

(** [isinstance(handler, logging.handlers.SMTPHandler)] *)
Definition is_SMTPHandler (h : Handler) : bool :=
  match h with
  | SMTPHandler _ _ _ _ _ _ => true
  | _ => false
  end.

(** [isinstance(handler, logging.handlers.TimedRotatingFileHandler)] *)
Definition is_TimedRotatingFileHandler (h : Handler) : bool :=
  match h with
  | TimedRotatingFileHandler _ => true
  | _ => false
  end.

(** The loop [for handler in logger.handlers: ...] of
    [removeHandlersFromLogger], from position [i] on.  The iterator of
    a list goes by position, and [logger.removeHandler(handler)] takes
    the handler out of the very list that is iterated: a handler object
    is in the list once, at position [i].  The loop ends when [i] is
    past the end; [fuel] bounds its turns for the definition. *)
Fixpoint remove_from (fuel : nat) (i : nat) (selected : Handler → bool)
    (handlers : list Handler) : list Handler :=
  match fuel with
  | O => handlers
  | S fuel' =>
    match handlers !! i with
    | None => handlers
    | Some handler =>
      if selected handler
      then remove_from fuel' (S i) selected (delete i handlers)
      else remove_from fuel' (S i) selected handlers
    end
  end.

(** [utilities.removeHandlersFromLogger]; [handlerTypes] is [None] or
    the test for the given type.  The loop makes at most as many turns
    as the list is long. *)
Definition removeHandlersFromLogger (handlerTypes : option (Handler → bool))
    (handlers : list Handler) : list Handler :=
  remove_from (length handlers) 0
    (λ handler, match handlerTypes with
                | None => true
                | Some isinstance => isinstance handler
                end)
    handlers.

(** [utilities.setFilePathOnLogger].  The constructor of the file
    handler opens the file, which may fail: [can_open]. *)
Definition setFilePathOnLogger (can_open : string → bool) (file : string)
    (handlers : list Handler) : option (list Handler) :=
  let handlers := removeHandlersFromLogger (Some is_TimedRotatingFileHandler)
                    handlers in
  if can_open file then Some (handlers ++ [TimedRotatingFileHandler file])
  else None.

(** Truthiness of a [str], of a list and of a mail host. *)
Definition str_truthy (s : string) : bool := bool_decide (s ≠ "").

Definition list_truthy {X} (l : list X) : bool :=
  match l with
  | [] => false
  | _ => true
  end.

Definition host_truthy (h : MailHost) : bool :=
  match h with
  | HostName host => str_truthy host
  | HostPort _ _ => true
  end.

(** [utilities.addMailHandlerToLogger] *)
Definition addMailHandlerToLogger (smtpServer : MailHost) (fromAddr : string)
    (toAddrs : list PyValue) (emailSubject : string)
    (username password : option string) (secure : bool)
    (handlers : list Handler) : list Handler :=
  if host_truthy smtpServer && str_truthy fromAddr && list_truthy toAddrs
     && str_truthy emailSubject
  then handlers ++ [SMTPHandler smtpServer fromAddr toAddrs emailSubject
                      (username, password) secure]
  else handlers.

(** The [emails] section of the configuration.  An option that the
    file may lack is [None] then; an option that [getint] or
    [getboolean] cannot read is [Some None]. *)
Record EmailConfig := mkEmailConfig {
  emails_server : option string;
  emails_port : option (option Z);
  emails_from : option string;
  emails_to : option string;
  emails_subject : option string;
  emails_username : option string;
  emails_password : option string;
  emails_useTLS : option (option bool)
}.

(** [str.isspace] on a character below 256 *)
Definition str_isspace (c : Ascii.ascii) : bool :=
  let n := Z.of_nat (Ascii.nat_of_ascii c) in
  bool_decide (9 ≤ n ≤ 13 ∨ 28 ≤ n ≤ 32 ∨ n = 133 ∨ n = 160).

Fixpoint str_lstrip (s : string) : string :=
  match s with
  | EmptyString => EmptyString
  | String c rest => if str_isspace c then str_lstrip rest else s
  end.

(** [str.strip()] *)
Definition str_strip (s : string) : string :=
  String.rev (str_lstrip (String.rev (str_lstrip s))).

(** [s.split(",")]: never empty. *)
Fixpoint str_split_comma (s : string) : list string :=
  match s with
  | EmptyString => [EmptyString]
  | String c rest =>
    if decide (c = ","%char) then EmptyString :: str_split_comma rest
    else match str_split_comma rest with
         | piece :: pieces => String c piece :: pieces
         | [] => [String c EmptyString]
         end
  end.

(** [Config.getToAddrs] *)
Definition getToAddrs (config : EmailConfig) : option (list string) :=
  to ← emails_to config; Some (str_strip <$> str_split_comma to).

(** [Config.getSMTPPort] *)
Definition getSMTPPort (config : EmailConfig) : option Z :=
  match emails_port config with
  | Some port => port
  | None => Some 25
  end.

(** [Config.getSecureSMTP] *)
Definition getSecureSMTP (config : EmailConfig) : option bool :=
  match emails_useTLS config with
  | Some useTLS => useTLS
  | None => Some false
  end.

(** What [setEmailsOnLogger] can be given as [emails]. *)
Inductive Emails :=
| EmailsBool (b : bool)
| EmailsSeq (addrs : list PyValue)     (* a list or a tuple *)
| EmailsOther.

(** [Engine.setEmailsOnLogger]: the handlers of the logger afterwards,
    or [None] for an exception.  The mail handlers are removed before
    anything can raise; Python would leave the logger without them
    then. *)
Definition setEmailsOnLogger (config : EmailConfig) (emails : Emails)
    (handlers : list Handler) : option (list Handler) :=
  let handlers := removeHandlersFromLogger (Some is_SMTPHandler) handlers in
  match emails with
  | EmailsBool false => Some handlers
  | _ =>
    smtpServer ← emails_server config;
    smtpPort ← getSMTPPort config;
    fromAddr ← emails_from config;
    emailSubject ← emails_subject config;
    secure ← getSecureSMTP config;
    toAddrs ← match emails with
              | EmailsBool _ => (fmap PyStr) <$> getToAddrs config
              | EmailsSeq addrs => Some addrs
              | EmailsOther => None
              end;
    Some (addMailHandlerToLogger (HostPort smtpServer smtpPort) fromAddr
            toAddrs emailSubject (emails_username config)
            (emails_password config) secure handlers)
  end.

(** [Plugin.setEmails]: it takes any number of arguments, which arrive
    as a tuple. *)
Definition Plugin_setEmails (config : EmailConfig) (emails : list PyValue)
    (handlers : list Handler) : option (list Handler) :=
  setEmailsOnLogger config (EmailsSeq emails) handlers.


(** * The main loop (engine.py) *)

Section MainLoop.
Context {World A : Type} `{Environment World} `{Disk World A} `{Storage World}.
Local Open Scope loader_scope.

(** The engine as [mainLoop] sees it: with its event id data, the
    [_mtime]s of the plugins (collection by collection, in the order
    of [self._pluginCollections]), [self._fetchInterval] and
    [self.start_engine]. *)
Record Runtime := mkRuntime {
  engine_data : EngineData World A;
  _mtimes : list (gmap string Z);
  _fetchInterval : Z;
  start_engine : bool
}.

(** [for collection in self._pluginCollections: collection.load()] *)
Fixpoint load_collections (settings : EngineSettings)
    (cs : list (PluginCollection World A)) (mtimes : list (gmap string Z))
  : L World (list (PluginCollection World A) * list (gmap string Z)) :=
  match cs with
  | [] => lret ([], [])
  | collection :: rest =>
    r <- PluginCollection_load settings collection (default ∅ (head mtimes)) ;;
    r' <- load_collections settings rest (tail mtimes) ;;
    lret (r.1 :: r'.1, r.2 :: r'.2)
  end.

(** [Engine.mainLoop].  [dispatch] stands for the two loops that hand
    the events to the collections, one for each mode. *)
Definition mainLoop_with
    (dispatch : list Event → list (PluginCollection World A)
                → M World (list (PluginCollection World A)))
    (settings : EngineSettings)
    (fallback : list nat → EngineData World A → L World (EngineData World A))
    (rounds : nat) (r : Runtime) : L World Runtime :=
  if start_engine r then
    let d := engine_data r in
    fetched <- lift (_getNewEvents (engine d)) ;;
    let events := fetched.2 in
    cs <- lift (dispatch events (_pluginCollections fetched.1)) ;;
    let d := mkEngineData (with_collections cs fetched.1) (_eventIdData d)
               (eventIdFile d) in
    d <- (match events with
          | _ :: _ => _saveEventIdData d
          | [] => lret d
          end) ;;
    (if bool_decide (Z.of_nat (length events) < maxEventBatchSize (engine d))
     then lift (sleep (_fetchInterval r))
     else lret tt) ;;
    loaded <- load_collections settings (_pluginCollections (engine d))
                (_mtimes r) ;;
    let d := mkEngineData (with_collections loaded.1 (engine d))
               (_eventIdData d) (eventIdFile d) in
    d <- (match events with
          | _ :: _ => Engine__loadEventIdData fallback rounds d
          | [] => lret d
          end) ;;
    lret (mkRuntime d loaded.2 (_fetchInterval r) (start_engine r))
  else lret r.

End MainLoop.

Arguments Runtime World A : clear implicits.
Arguments mkRuntime {World A}.
Arguments engine_data {World A}.
Arguments _mtimes {World A}.
Arguments _fetchInterval {World A}.
Arguments start_engine {World A}.

Section Dispatch.
Context {World : Type} `{Environment World}.

(** [for collection in self._pluginCollections: collection.process(event)] *)
Fixpoint collections_process (event : Event)
    (cs : list (PluginCollection World Event))
  : M World (list (PluginCollection World Event)) :=
  match cs with
  | [] => ret []
  | collection :: rest =>
    collection' <- PluginCollection_process event collection ;;
    rest' <- collections_process event rest ;;
    ret (collection' :: rest')
  end.

(** [for event in events: for collection in self._pluginCollections:
       collection.process(event)] *)
Fixpoint dispatch_each (events : list Event)
    (cs : list (PluginCollection World Event))
  : M World (list (PluginCollection World Event)) :=
  match events with
  | [] => ret cs
  | event :: rest =>
    cs' <- collections_process event cs ;;
    dispatch_each rest cs'
  end.

(** [for collection in self._pluginCollections:
       if events: collection.process(events)] *)
Fixpoint dispatch_batch (events : list Event)
    (cs : list (PluginCollection World (list Event)))
  : M World (list (PluginCollection World (list Event))) :=
  match cs with
  | [] => ret []
  | collection :: rest =>
    collection' <- (match events with
                    | _ :: _ => BatchPluginCollection_process events collection
                    | [] => ret collection
                    end) ;;
    rest' <- dispatch_batch events rest ;;
    ret (collection' :: rest')
  end.

End Dispatch.

(** [Engine.mainLoop] when [self._is_batch_mode] is not set, and when
    it is. *)
Definition mainLoop {World} `{Environment World} `{Disk World Event}
    `{Storage World} := mainLoop_with (A:=Event) dispatch_each.

Definition batch_mainLoop {World} `{Environment World}
    `{Disk World (list Event)} `{Storage World} :=
  mainLoop_with (A:=list Event) dispatch_batch.


(** * What goes to Sentry (utilities.py) *)

(** A Sentry event as far as [sentry_pre_send] looks at it: what is
    under ['level'], ['tags'] and ['extra'], each of which may be
    missing; the latter two are dictionaries. *)
Record SentryEvent (V : Type) : Type := mkSentryEvent {
  sen_level : option V;
  sen_tags : option (gmap string V);
  sen_extra : option (gmap string V)
}.
Arguments mkSentryEvent {V}.
Arguments sen_level {V}.
Arguments sen_tags {V}.
Arguments sen_extra {V}.

(** [if 'level' in event['extra']: ...]; a missing ['extra'] is a
    KeyError. *)
Definition level_from_extra {V} (event : SentryEvent V)
  : option (SentryEvent V) :=
  extra ← sen_extra event;
  match extra !! "level"%string with
  | Some level =>
    Some (mkSentryEvent (Some level) (sen_tags event)
            (Some (delete "level"%string extra)))
  | None => Some event
  end.

Definition sentry_tags : list string :=
  ["plugin_name"; "stop_on_error"; "event_id"]%string.

(** The body of [for _sentry_tag in sentry_tags] *)
Definition tag_from_extra {V} (event : SentryEvent V) (_sentry_tag : string)
  : option (SentryEvent V) :=
  extra ← sen_extra event;
  match extra !! _sentry_tag with
  | Some value =>
    let tags := default ∅ (sen_tags event) in
    Some (mkSentryEvent (sen_level event)
            (Some (<[_sentry_tag := value]> tags))
            (Some (delete _sentry_tag extra)))
  | None => Some event
  end.

Fixpoint tags_from_extra {V} (tags : list string) (event : SentryEvent V)
  : option (SentryEvent V) :=
  match tags with
  | [] => Some event
  | _sentry_tag :: rest =>
    event' ← tag_from_extra event _sentry_tag;
    tags_from_extra rest event'
  end.

(** [sentry_pre_send]; the hint is not used. *)
Definition sentry_pre_send {V} (event : SentryEvent V)
  : option (SentryEvent V) :=
  event' ← level_from_extra event;
  tags_from_extra sentry_tags event'.

(** * A scripted world for the concrete runs *)

(** The clock shows [sw_time] and does not move by itself; [sg_find]
    plays back [sw_finds]; sleeping advances the clock. *)
Record ScriptedWorld := mkSW { sw_time : Z; sw_finds : list FindOutcome }.

#[export] Instance scripted_env : Environment ScriptedWorld := {
  clock_now w := (sw_time w, w);
  sg_find _ _ w :=
    match sw_finds w with
    | o :: rest => (o, mkSW (sw_time w) rest)
    | [] => (Found [], w)
    end;
  time_sleep n w := mkSW (sw_time w + n * 1000000) (sw_finds w);
  sentry_sdk := false;
  pickle_load _ := UnpicklingError
}.

(** User functions of the concrete runs. *)
Definition returns {A} : A → ScriptedWorld → bool * ScriptedWorld :=
  λ _ w, (false, w).


(** The plugins, events and engines of the concrete runs.  The clock
    shows noon; an event is [age] minutes old; no session uuid is set
    and no timing is logged. *)
Definition noon : Z := minutes 720.

Definition quiet : EngineSettings := mkSettings false false.

Definition at_noon : St ScriptedWorld := mkSt (mkSW noon []) [].

Definition event (i age : Z) : Event :=
  mkEvent i "Shotgun_Task_Change" (Some "sg_status_list") (noon - minutes age)
    "0a1b".

Definition cb_f : Callback ScriptedWorld Event :=
  mkCallback "f" "plugin.p.f" quiet None false true returns.

(** A plugin with one callback and an empty backlog, its cursor at 10. *)
Definition cursor10 : Plugin ScriptedWorld Event :=
  mkPlugin "p" true [cb_f] (Some 10) ∅.





Definition batch_B : Callback ScriptedWorld (list Event) :=
  mkCallback "B" "plugin.p.B" quiet None false true returns.


Definition batch13_B : Plugin ScriptedWorld (list Event) :=
  mkPlugin "p" true [batch_B] (Some 13) {[12 := noon + minutes 5]}.


(** A plugin with a backlog: 12 is awaited, 8 has expired. *)
Definition cursor13_backlog : Plugin ScriptedWorld Event :=
  mkPlugin "p" true [cb_f] (Some 13)
    (<[12 := noon + minutes 4]> {[8 := noon - minutes 1]}).

Definition one_collection : PluginCollection ScriptedWorld Event :=
  mkCollection "/plugins" {["p.py" := cursor13_backlog]} ∅.

Definition engine3 : Engine ScriptedWorld Event :=
  mkEngine [one_collection] 3 60 500.



Definition cursor_of {A} (eng : Engine ScriptedWorld A) (basename : string)
  : option (option Z) :=
  c ← _pluginCollections eng !! 0%nat;
  p ← _plugins c !! basename;
  Some (_lastEventId p).


(** A filter with a wildcard entry and an entry for one event type. *)
Definition wild_and_typed_filter : MatchEvents :=
  <["*" := Some ["sg_status_list"]]> (<["Shotgun_Task_Change" := None]> ∅).

Definition wild_and_typed_callback : Callback ScriptedWorld Event :=
  mkCallback "f" "plugin.p.f" quiet (Some wild_and_typed_filter) false true
    returns.

Definition task_description_change : Event :=
  mkEvent 12 "Shotgun_Task_Change" (Some "description") 0 "0a1b".

(** An old-style id file: a number on the first line. *)
Definition old_style_id_file : string :=
  " 12345" +:+ String "010"%char "anything else".

(** Noon, with an upstream that fails once and then answers. *)
Definition upstream_flaky : St ScriptedWorld :=
  mkSt (mkSW noon [SocketError "timed out"; Found [event 12 1; event 14 0]]) [].


(** The plugin of [one_collection] as it is after a restart: loaded
    again, without cursor and backlog. *)
Definition reloaded_collection : PluginCollection ScriptedWorld Event :=
  mkCollection "/plugins" {["p.py" := mkPlugin "p" true [cb_f] None ∅]} ∅.

(** An engine whose only plugin has been deactivated. *)
Definition engine_idle : Engine ScriptedWorld Event :=
  mkEngine
    [mkCollection "/plugins" {["p.py" := mkPlugin "p" false [cb_f] (Some 13) ∅]} ∅]
    3 60 500.


(** ** A scripted disk *)

(** Directories with their listings, and files with their times of
    modification.  Executing a plugin file changes nothing on the disk;
    what it registers is told by the plugin's name. *)
Record DiskWorld := mkDW {
  dw_dirs : gmap string (list string);
  dw_mtimes : gmap string Z
}.

Definition plugin_source (name : string) : ModuleOutcome DiskWorld Event :=
  if decide (name = "p") then
    Registered [mkRegistration "f" (λ _ w, (false, w)) None false] false
  else if decide (name = "broken") then ExecFailed
  else NoRegisterFunction.

#[export] Instance scripted_disk : Disk DiskWorld Event := {
  os_listdir dir w := dw_dirs w !! dir;
  os_path_isfile file w := bool_decide (is_Some (dw_mtimes w !! file));
  os_path_getmtime file w := dw_mtimes w !! file;
  exec_plugin name _ w := (plugin_source name, w)
}.

(** A plugin directory with two plugin files, a hidden file and a file
    that is no plugin. *)
Definition plugins_dir : LSt DiskWorld :=
  mkLSt (mkDW {["/plugins" := ["p.py"; "README"; ".hidden.py"; "q.py"]]}
           (<["/plugins/p.py" := 100]>
              (<["/plugins/q.py" := 50]> {["/plugins/.hidden.py" := 1]})))
        [].

(** The plugin of [p.py], deactivated, with a cursor and a backlog. *)
Definition stopped_p : Plugin DiskWorld Event :=
  mkPlugin "p" false [] (Some 13) {[12 := 0]}.

(** A collection that holds it, loaded when [p.py] was as it is now,
    and the plugin of a file that is gone. *)
Definition before_reload : PluginCollection DiskWorld Event :=
  mkCollection "/plugins"
    (<["p.py" := stopped_p]> {["gone.py" := mkPlugin "gone" true [] (Some 13) ∅]})
    ∅.


(** ** A scripted store *)

(** The state of one plugin, [p], as the concrete run saves it. *)
Definition saved_ids : gmap string (gmap string PluginState) :=
  {["/plugins" := {["p" := StateTuple (Some 13) {[12 := 5]}]}]}.

(** Files with their bytes, and the answers of the database to come.
    The pickle of this world knows one mapping, [saved_ids], which it
    writes as the bytes "ids". *)
Record StoreWorld := mkStore {
  st_files : gmap string string;
  st_answers : list FindOneOutcome
}.

#[export] Instance store_env : Environment StoreWorld := {
  clock_now w := (0, w);
  sg_find _ _ w := (Found [], w);
  time_sleep _ w := w;
  sentry_sdk := false;
  pickle_load bytes := if decide (bytes = "ids") then Unpickled saved_ids
                       else UnpicklingError
}.

#[export] Instance store_storage : Storage StoreWorld := {
  os_path_exists file w := bool_decide (is_Some (st_files w !! file));
  read_file file w := st_files w !! file;
  pickle_dump _ file w :=
    Some (mkStore (<[file := "ids"]> (st_files w)) (st_answers w));
  sg_find_one w :=
    match st_answers w with
    | o :: rest => (o, mkStore (st_files w) rest)
    | [] => (FoundOne None, w)
    end
}.

(** An engine with one plugin, its cursor at 13 and 12 awaited, and the
    same engine after a restart, the plugin loaded anew. *)
Definition running : EngineData StoreWorld Event :=
  mkEngineData
    (mkEngine
       [mkCollection "/plugins"
          {["p.py" := mkPlugin "p" true [] (Some 13) {[12 := 5]}]} ∅]
       3 60 500)
    ∅ (Some "/var/ids").

Definition restarted : EngineData StoreWorld Event :=
  mkEngineData
    (mkEngine
       [mkCollection "/plugins" {["p.py" := mkPlugin "p" true [] None ∅]} ∅]
       3 60 500)
    ∅ (Some "/var/ids").




Definition answering : LSt StoreWorld :=
  mkLSt (mkStore ∅ [FoundOne (Some 100); FindOneError "timed out";
                    FoundOne (Some 101)]) [].

(** No fallback is needed in the concrete runs. *)
Definition no_fallback (_ : list nat) (d : EngineData StoreWorld Event)
  : L StoreWorld (EngineData StoreWorld Event) := lret d.


(** ** Loggers of the concrete runs *)

(** A configuration that names a sender and a subject, but no server
    and no recipient. *)
Definition mail_config : EmailConfig :=
  mkEmailConfig (Some "") None (Some "daemon@studio") (Some "")
    (Some "SG daemon") None None None.

Definition old_mail : Handler :=
  SMTPHandler (HostPort "smtp" 25) "old@studio" [PyStr "td@studio"] "old"
    (None, None) false.

Definition stream : Handler := OtherHandler "stream".


(** The plugin directory of the scripted store: always the one file
    [p.py], which registers nothing. *)
#[export] Instance store_disk {A} : Disk StoreWorld A := {
  os_listdir dir _ := if decide (dir = "/plugins") then Some ["p.py"] else None;
  os_path_isfile _ _ := true;
  os_path_getmtime _ _ := Some 100;
  exec_plugin _ _ w := (NoRegisterFunction, w)
}.

(** The restarted engine, running, before any id was given to its
    plugin. *)
Definition idle : Runtime StoreWorld Event :=
  mkRuntime restarted [] 5 true.


(** * The specification's wording, where the code is compared with it *)

(** "A filter matches an event when (a) its event_type is present or the
    wildcard entry exists, and (b) the mapped attribute-set is
    all-attributes or contains the event's attribute_name."
    All-attributes is [None] or a list with ["*"] in it. *)
Definition spec_filter_matches (F : MatchEvents) (e : Event) : Prop :=
  ∃ k attrs,
    (k = event_type e ∨ k = "*") ∧ F !! k = Some attrs ∧
    (attrs = None ∨
     ∃ l, attrs = Some l ∧
          ("*" ∈ l ∨ ∃ a, attribute_name e = Some a ∧ a ∈ l)).

(** The world in which [process] calls the user function: the clock has
    been read once if timing is logged. *)
Definition call_world {World} `{Environment World} {A}
    (cb : Callback World A) (w : World) : World :=
  if timing_logger (_engine cb) then (clock_now w).2 else w.

(** The invocations of user functions that a trace records. *)
Definition invocations (tr : list Effect) : list (string * list Event) :=
  omap (λ eff, match eff with
               | Invoke callback events => Some (callback, events)
               | _ => None
               end) tr.

(** A full pass of a batch plugin over its callbacks with the list
    [events]: every active callback, in registration order, is handed
    the events of the list that pass its filter, if there are any. *)
Definition batch_deliveries {World} (events : list Event)
    (cbs : list (Callback World (list Event))) : list (string * list Event) :=
  omap (λ cb,
          if isActive cb then
            match filter (λ event, canProcess cb event = true) events with
            | [] => None
            | es => Some (_name cb, es)
            end
          else None) cbs.

(** A failed call of [sg.find], and the message that is logged for it. *)
Definition is_failure (o : FindOutcome) : Prop :=
  match o with
  | Found _ => False
  | _ => True
  end.

Definition failure_message (o : FindOutcome) : string :=
  match o with
  | Found _ => ""
  | ProtocolError msg | ResponseError msg | SocketError msg => msg
  | UnknownError msg => "Unknown error: " +:+ msg
  end.

(** The outcomes of [n] calls of [sg.find] in a row, from the world [w]. *)
Fixpoint find_outcomes {World} `{Environment World} (greater_than limit : Z)
    (n : nat) (w : World) : list FindOutcome :=
  match n with
  | O => []
  | S n' =>
    (sg_find greater_than limit w).1
    :: find_outcomes greater_than limit n' (sg_find greater_than limit w).2
  end.


(** What [getNextUnprocessedEventId] may do to a plugin: nothing but
    drop backlog entries that expired before some reading [t] of the
    clock (and nothing at all when the plugin is not active). *)
Definition backlog_pruned {World A} (p p' : Plugin World A) : Prop :=
  _pluginName p' = _pluginName p ∧ p_active p' = p_active p ∧
  _callbacks p' = _callbacks p ∧ _lastEventId p' = _lastEventId p ∧
  ((p_active p = false ∧ _backlog p' = _backlog p) ∨
   ∃ t, _backlog p' = filter (λ kv, ¬ kv.2 < t) (_backlog p)).

Definition collection_pruned {World A} (c c' : PluginCollection World A) : Prop :=
  path c' = path c ∧ _stateData c' = _stateData c ∧
  ∀ b, option_Forall2 backlog_pruned (_plugins c !! b) (_plugins c' !! b).

Definition is_timeout_warning (eff : Effect) : Prop :=
  ∃ lg k, eff = Log lg WARNING (TimeoutElapsed k).

(** The trace grew by warnings about expired backlog keys only. *)
Definition only_timeout_warnings {World} (s s' : St World) : Prop :=
  ∃ tr, trace s' = trace s ++ tr ∧ Forall is_timeout_warning tr.


(** A full pass of a plugin over its callbacks with [event]: every
    active callback whose filter lets the event through is handed it,
    in registration order. *)
Definition deliveries {World} (event : Event)
    (cbs : list (Callback World Event)) : list (string * list Event) :=
  omap (λ cb, if isActive cb && canProcess cb event
              then Some (_name cb, [event]) else None) cbs.



(** What [PluginCollection.process] may add to the invocations: each
    one hands exactly [event] to an active callback of an active plugin
    of the collection whose filter lets the event through. *)
Definition invokes_active_only {World} (event : Event)
    (plugins : gmap string (Plugin World Event)) (s s' : St World) : Prop :=
  ∃ invs,
    invocations (trace s') = invocations (trace s) ++ invs ∧
    Forall (λ inv, ∃ b p cb,
              plugins !! b = Some p ∧ p_active p = true ∧
              cb ∈ _callbacks p ∧ isActive cb = true ∧
              canProcess cb event = true ∧ inv = (_name cb, [event])) invs.

(** The records of a fetch whose first attempts failed with the given
    outcomes, none of them the last attempt allowed: one warning each. *)
Definition retried_log (maxConnRetries : Z) (failures : list FindOutcome)
  : list Effect :=
  imap (λ i o, Log "engine" WARNING
                 (UnableToConnect (Z.of_nat i) maxConnRetries (failure_message o)))
       failures.

(** The debug record of a fetch that got events. *)
Definition got_events_log (events : list Event) : list Effect :=
  match events with
  | first :: _ =>
    [Log "engine" DEBUG
       (GotEvents (length events) (event_id first)
          (event_id (List.last events first)))]
  | [] => []
  end.


(** Name, cursor and backlog of [p'] are those of [p]. *)
Definition same_state {World A} (p p' : Plugin World A) : Prop :=
  _pluginName p' = _pluginName p ∧ _lastEventId p' = _lastEventId p ∧
  _backlog p' = _backlog p.

(** What [PluginCollection.load] leaves at [basename]: the plugin that
    was there, with its name, cursor and backlog, or else a new plugin,
    named after the file and without cursor and backlog. *)
Definition kept_or_new {World A} (collection_path : string)
    (old : gmap string (Plugin World A)) (basename : string)
    (p' : Plugin World A) : Prop :=
  match old !! basename with
  | Some p => same_state p p'
  | None =>
    _pluginName p'
    = splitext_root (os_path_basename (os_path_join collection_path basename)) ∧
    _lastEventId p' = None ∧ _backlog p' = ∅
  end.

(** The names [PluginCollection.load] does not skip. *)
Definition is_plugin_file (basename : string) : Prop :=
  str_endswith ".py" basename = true ∧ str_startswith "." basename = false.


(** The answers of the database that a journal records: the id each
    "Last event id" record carries. *)
Definition answers (j : list Entry) : list (option Z) :=
  omap (λ e, match e with
             | Logged _ INFO (LastEventIdFromDatabase lastEventId) =>
               Some lastEventId
             | _ => None
             end) j.

(** The attempts to connect that a journal records as failed. *)
Definition failed_attempts (j : list Entry) : list Z :=
  omap (λ e, match e with
             | Ran (Log _ _ (UnableToConnect attempt _ _)) => Some attempt
             | _ => None
             end) j.






(** What the loop of [removeHandlersFromLogger] comes to, read off the
    list: a selected handler goes, and the handler after it is passed
    over, selected or not. *)
Fixpoint passes_over (selected : Handler → bool) (handlers : list Handler)
  : list Handler :=
  match handlers with
  | [] => []
  | handler :: rest =>
    if selected handler then
      match rest with
      | [] => []
      | next :: rest' => next :: passes_over selected rest'
      end
    else handler :: passes_over selected rest
  end.

(** No selected handler comes directly after a selected one. *)
Definition none_adjacent (selected : Handler → bool) (handlers : list Handler)
  : Prop :=
  ∀ i h h', handlers !! i = Some h → handlers !! S i = Some h' →
            selected h = true → selected h' = false.

(** The handler that [setEmailsOnLogger] installs, if it installs one. *)
Definition mail_handler (config : EmailConfig) (toAddrs : list PyValue)
  : list Handler :=
  match emails_server config, getSMTPPort config, emails_from config,
        emails_subject config, getSecureSMTP config with
  | Some server, Some port, Some fromAddr, Some subject, Some secure =>
    if str_truthy fromAddr && list_truthy toAddrs && str_truthy subject
    then [SMTPHandler (HostPort server port) fromAddr toAddrs subject
            (emails_username config, emails_password config) secure]
    else []
  | _, _, _, _, _ => []
  end.


(** A plugin that gives the engine nothing to fetch from: it has no
    backlog and no cursor (or the cursor 0, which
    [getNextUnprocessedEventId] takes for none). *)
Definition no_cursor {World A} (p : Plugin World A) : Prop :=
  _backlog p = ∅ ∧ (_lastEventId p = None ∨ _lastEventId p = Some 0).

Definition all_without_cursor {World A} (cs : list (PluginCollection World A))
  : Prop :=
  Forall (λ c, ∀ b p, _plugins c !! b = Some p → no_cursor p) cs.

(** A turn of the main loop in which nothing is fetched, dispatched,
    saved or loaded from the id file: the plugins are asked for their
    next ids, the engine sleeps, and the plugins are reloaded. *)
Definition idle_turn {World A} `{Environment World} `{Disk World A}
    (settings : EngineSettings) (r : Runtime World A)
  : L World (Runtime World A) :=
  let d := engine_data r in
  (lift (collections_nextIds (_pluginCollections (engine d))) ;;
   (if bool_decide (0 < maxEventBatchSize (engine d))
    then lift (sleep (_fetchInterval r))
    else lret tt) ;;
   loaded <- load_collections settings (_pluginCollections (engine d))
               (_mtimes r) ;;
   lret (mkRuntime
           (mkEngineData (with_collections loaded.1 (engine d))
              (_eventIdData d) (eventIdFile d))
           loaded.2 (_fetchInterval r) (start_engine r)))%loader.



(** The keys that [sentry_pre_send] takes out of ['extra']. *)
Definition moved_keys : list string := ("level"%string :: sentry_tags).

(** What [sentry_pre_send] makes of an event with the given ['extra']:
    the moved keys are gone from ['extra'] and its other entries are as
    before; ['level'] is the level of ['extra'] if it had one; the tags
    of ['extra'] are written over those of ['tags'], which is created if
    need be, and only then. *)
Definition moved_out {V} (extra : gmap string V)
    (event event' : SentryEvent V) : Prop :=
  (∃ extra', sen_extra event' = Some extra' ∧
     ∀ k, extra' !! k = if decide (k ∈ moved_keys) then None else extra !! k) ∧
  sen_level event' = from_option Some (sen_level event) (extra !! "level"%string) ∧
  (∀ k, default ∅ (sen_tags event') !! k
        = if decide (k ∈ sentry_tags)
          then from_option Some (default ∅ (sen_tags event) !! k) (extra !! k)
          else default ∅ (sen_tags event) !! k) ∧
  (sen_tags event' = None ↔
   sen_tags event = None ∧ ∀ k, k ∈ sentry_tags → extra !! k = None).

(** * Properties *)

(** ** Filters (callback.py) *)

(** C5, as stated, fails: with a wildcard entry and an entry for the
    event's type, [canProcess] consults the wildcard entry only. *)
Lemma canProcess_wildcard_shadows_type :
  _matchEvents wild_and_typed_callback = Some wild_and_typed_filter ∧
  wild_and_typed_filter ≠ ∅ ∧
  ¬ (canProcess wild_and_typed_callback task_description_change = true ↔
     spec_filter_matches wild_and_typed_filter task_description_change).
Proof.
  split; [reflexivity|]. split.
  { intros Heq. apply (f_equal (λ m, m !! "*")) in Heq. vm_compute in Heq. discriminate. }
  intros [_ Hback].
  assert (Hcode : canProcess wild_and_typed_callback task_description_change = false)
    by (vm_compute; reflexivity).
  rewrite Hcode in Hback. enough (false = true) by discriminate.
  apply Hback. exists "Shotgun_Task_Change", None.
  split; [by left|]. split; [|by left].
  vm_compute. reflexivity.
Qed.

(** The guard [event["attribute_name"] and ...]: an empty attribute name
    never matches a list of names, not even one that holds the empty
    string. *)
Example canProcess_rejects_empty_attribute_name :
  canProcess
    (mkCallback "f" "plugin.p.f" quiet
       (Some ({["Shotgun_Task_Change" := Some [""]]} : MatchEvents))
       false true (returns (A := Event)))
    (mkEvent 12 "Shotgun_Task_Change" (Some "") 0 "0a1b") = false ∧
  spec_filter_matches {["Shotgun_Task_Change" := Some [""]]}
    (mkEvent 12 "Shotgun_Task_Change" (Some "") 0 "0a1b").
Proof.
  split; [vm_compute; reflexivity|].
  exists "Shotgun_Task_Change", (Some [""]).
  split; [by left|]. split; [vm_compute; reflexivity|].
  right. exists [""]. split; [done|]. right. exists "". split; [done|]. by left.
Qed.

(** C5 (amended): for a callback with a non-empty filter [F],
    [canProcess] is true exactly when the entry it selects -- the
    wildcard entry when [F] has one, otherwise the entry of the event's
    type -- exists and its attributes are [None], or contain ["*"], or
    contain the event's non-empty attribute name. *)
Theorem canProcess_iff {World A} (cb : Callback World A) (F : MatchEvents)
    (e : Event) :
  _matchEvents cb = Some F → F ≠ ∅ →
  (canProcess cb e = true ↔
   ∃ attrs,
     (F !! "*" = Some attrs ∨
      (F !! "*" = None ∧ F !! event_type e = Some attrs)) ∧
     (attrs = None ∨
      ∃ l, attrs = Some l ∧
           ("*" ∈ l ∨
            ∃ a, attribute_name e = Some a ∧ a ≠ "" ∧ a ∈ l))).
Proof.
  intros HF Hne. unfold canProcess. rewrite HF.
  destruct (decide (F = ∅)) as [|_]; [done|].
  destruct (decide (is_Some (F !! "*"))) as [[attrs Hw]|Hw].
  - rewrite Hw. split.
    + intros Hc. exists attrs. split; [by left|].
      destruct attrs as [l|]; [|by left]. right. exists l. split; [done|].
      destruct (decide ("*" ∈ l)); [by left|]. right.
      destruct (attribute_name e) as [a|]; [|done].
      apply bool_decide_eq_true_1 in Hc. exists a. naive_solver.
    + intros (attrs' & [Hsel|[Hsel _]] & Hok); simplify_eq.
      destruct Hok as [->|(l & -> & Hl)]; [done|].
      destruct (decide ("*" ∈ l)); [done|].
      destruct Hl as [|(a & -> & Hl)]; [done|].
      by apply bool_decide_eq_true.
  - apply eq_None_not_Some in Hw.
    destruct (decide (is_Some (F !! event_type e))) as [[attrs Ht]|Ht].
    + rewrite Ht. split.
      * intros Hc. exists attrs. split; [by right|].
        destruct attrs as [l|]; [|by left]. right. exists l. split; [done|].
        destruct (decide ("*" ∈ l)); [by left|]. right.
        destruct (attribute_name e) as [a|]; [|done].
        apply bool_decide_eq_true_1 in Hc. exists a. naive_solver.
      * intros (attrs' & [Hsel|[_ Hsel]] & Hok); simplify_eq.
        destruct Hok as [->|(l & -> & Hl)]; [done|].
        destruct (decide ("*" ∈ l)); [done|].
        destruct Hl as [|(a & -> & Hl)]; [done|].
        by apply bool_decide_eq_true.
    + apply eq_None_not_Some in Ht. split; [done|].
      intros (attrs' & [Hsel|[_ Hsel]] & _); congruence.
Qed.

Lemma canProcess_iff_witness :
  canProcess wild_and_typed_callback task_description_change = true ↔
  ∃ attrs,
    (wild_and_typed_filter !! "*" = Some attrs ∨
     (wild_and_typed_filter !! "*" = None ∧
      wild_and_typed_filter !! event_type task_description_change = Some attrs)) ∧
    (attrs = None ∨
     ∃ l, attrs = Some l ∧
          ("*" ∈ l ∨
           ∃ a, attribute_name task_description_change = Some a ∧ a ≠ "" ∧ a ∈ l)).
Proof.
  apply (canProcess_iff wild_and_typed_callback wild_and_typed_filter).
  - reflexivity.
  - intros Heq. apply (f_equal (λ m, m !! "*")) in Heq.
    vm_compute in Heq. discriminate.
Defined.

(** ** The cursor and the backlog (plugin.py) *)

Section PluginProperties.
Context {World : Type} `{Environment World}.

Lemma bind_Some {A B} (m : M World A) (k : A → M World B) (s : St World) b s' :
  bind m k s = Some (b, s') ↔
  ∃ a s1, m s = Some (a, s1) ∧ k a s1 = Some (b, s').
Proof.
  unfold bind. destruct (m s) as [[a s1]|]; naive_solver.
Qed.

Lemma getNext_loop_spec lg t keys : ∀ (b : gmap Z Z) n0 (s : St World),
  NoDup keys → (∀ k, k ∈ keys → is_Some (b !! k)) →
  ∃ b' n' tr,
    getNext_loop lg t keys b n0 s
      = Some ((b', n'), mkSt (world s) (trace s ++ tr)) ∧
    (∀ k, b' !! k =
          v ← b !! k; if decide (k ∈ keys ∧ v < t) then None else Some v) ∧
    (∀ eff, eff ∈ tr ↔
            ∃ k v, k ∈ keys ∧ b !! k = Some v ∧ v < t ∧
                   eff = Log lg WARNING (TimeoutElapsed k)) ∧
    match n' with
    | Some n =>
      (n0 = Some n ∨ (n ∈ keys ∧ ∃ v, b !! n = Some v ∧ ¬ v < t)) ∧
      (∀ m, n0 = Some m → n ≤ m) ∧
      (∀ k v, k ∈ keys → b !! k = Some v → ¬ v < t → n ≤ k)
    | None => n0 = None ∧ ∀ k v, k ∈ keys → b !! k = Some v → v < t
    end.
Proof.
  induction keys as [|k keys IH]; intros b n0 s Hnd Hin.
  - exists b, n0, []. simpl. unfold ret. rewrite app_nil_r. destruct s.
    split; [done|]. split.
    { intros k. by destruct (b !! k). }
    split.
    { intros eff. split; [by intros ?%elem_of_nil|].
      intros (k & v & Hk & _). by apply elem_of_nil in Hk. }
    destruct n0 as [n|].
    + split; [by left|]. split; [intros m [= ->]; lia|].
      intros k v Hk. by apply elem_of_nil in Hk.
    + split; [done|]. intros k v Hk. by apply elem_of_nil in Hk.
  - apply NoDup_cons in Hnd as [Hk Hnd].
    destruct (Hin k) as [v Hv]; [by left|].
    simpl. unfold bind at 1. unfold dict_get. rewrite Hv. unfold ret at 1.
    destruct (bool_decide (v < t)) eqn:Hexp.
    + apply bool_decide_eq_true_1 in Hexp.
      unfold bind at 1. unfold emit at 1. unfold bind at 1.
      unfold dict_del. rewrite Hv. unfold ret at 1.
      edestruct (IH (delete k b) n0
                   (mkSt (world s) (trace s ++ [Log lg WARNING (TimeoutElapsed k)])))
        as (b' & n' & tr & Hrun & Hb' & Htr & Hn'); [done| |].
      { intros k' Hk'. rewrite lookup_delete_ne; [|by intros ->].
        apply Hin. by right. }
      exists b', n', (Log lg WARNING (TimeoutElapsed k) :: tr).
      split. { rewrite Hrun. simpl. by rewrite <-app_assoc. }
      split.
      { intros k'. rewrite Hb'. destruct (decide (k' = k)) as [->|Hne].
        - rewrite lookup_delete_eq, Hv. simpl.
          rewrite decide_True; [done|]. split; [by left|done].
        - rewrite lookup_delete_ne by done. destruct (b !! k') as [v'|]; simpl; [|done].
          repeat case_decide; try done; exfalso; set_solver. }
      split.
      { intros eff. rewrite elem_of_cons, Htr. split.
        - intros [->|(k' & v' & Hk' & Hv' & Hlt & ->)].
          + exists k, v. split; [by left|done].
          + exists k', v'. split; [by right|].
            rewrite lookup_delete_ne in Hv' by (by intros ->). done.
        - intros (k' & v' & [->|Hk']%elem_of_cons & Hv' & Hlt & ->); [by left|].
          right. exists k', v'. rewrite lookup_delete_ne by (by intros ->). done. }
      destruct n' as [n|].
      * destruct Hn' as (Hsel & Hle0 & Hlek). split.
        { destruct Hsel as [|(Hn & v' & Hv' & Hnexp)]; [by left|]. right.
          split; [by right|]. exists v'.
          rewrite lookup_delete_ne in Hv' by (by intros ->). done. }
        split; [done|].
        intros k' v' [->|Hk']%elem_of_cons Hv' Hnexp.
        { rewrite Hv in Hv'. injection Hv' as <-. lia. }
        apply (Hlek k' v'); [done| |done].
        rewrite lookup_delete_ne by (by intros ->). done.
      * destruct Hn' as [-> Hall]. split; [done|].
        intros k' v' [->|Hk']%elem_of_cons Hv'.
        { rewrite Hv in Hv'. by injection Hv' as <-. }
        apply (Hall k' v'); [done|].
        rewrite lookup_delete_ne by (by intros ->). done.
    + apply bool_decide_eq_false_1 in Hexp.
      set (n1 := match n0 with
                 | None => Some k
                 | Some n => if bool_decide (k < n) then Some k else Some n
                 end).
      edestruct (IH b n1 s) as (b' & n' & tr & Hrun & Hb' & Htr & Hn'); [done| |].
      { intros k' Hk'. apply Hin. by right. }
      exists b', n', tr. split; [done|]. split.
      { intros k'. rewrite Hb'. destruct (b !! k') as [v'|] eqn:Hv'; simpl; [|done].
        repeat case_decide; try done; exfalso.
        - set_solver.
        - destruct (decide (k' = k)) as [->|]; [|set_solver].
          rewrite Hv in Hv'. injection Hv' as <-. naive_solver. }
      split.
      { intros eff. rewrite Htr. split.
        - intros (k' & v' & Hk' & Hrest). exists k', v'. split; [by right|done].
        - intros (k' & v' & [->|Hk']%elem_of_cons & Hv' & Hlt & ->).
          + rewrite Hv in Hv'. injection Hv' as <-. done.
          + by exists k', v'. }
      assert (Hn1 : ∃ m, n1 = Some m ∧ m ≤ k ∧ (n0 = Some m ∨ m = k) ∧
                        ∀ m0, n0 = Some m0 → m ≤ m0).
      { subst n1. destruct n0 as [n|].
        - case_bool_decide.
          + exists k. split; [done|]. split; [lia|]. split; [by right|].
            intros m0 [= ->]. lia.
          + exists n. split; [done|]. split; [lia|]. split; [by left|].
            intros m0 [= ->]. lia.
        - exists k. split; [done|]. split; [lia|]. split; [by right|]. done. }
      destruct Hn1 as (m & Hm & Hmk & Hmsel & Hmle). rewrite Hm in Hn'.
      destruct n' as [n|]; [|by destruct Hn'].
      destruct Hn' as (Hsel & Hle0 & Hlek).
      assert (n ≤ m) by (by apply Hle0).
      split.
      { destruct Hsel as [Heq|(Hn & Hrest)].
        - injection Heq as ->. destruct Hmsel as [ | -> ]; [by left|]. right. split; [by left|]. by exists v.
        - right. split; [by right|done]. }
      split.
      { intros m0 Hm0. specialize (Hmle m0 Hm0). lia. }
      intros k' v' [->|Hk']%elem_of_cons Hv' Hnexp; [lia|].
      by apply (Hlek k' v').
Qed.


(** Whatever the cursor, [getNextUnprocessedEventId] returns and does
    nothing to the plugin but drop the expired backlog keys. *)
Lemma getNextUnprocessedEventId_prunes {A} (p : Plugin World A) (s : St World) :
  ∃ p' r s',
    Plugin_getNextUnprocessedEventId p s = Some (p', r, s') ∧
    backlog_pruned p p' ∧ only_timeout_warnings s s'.
Proof.
  unfold Plugin_getNextUnprocessedEventId.
  unfold bind at 1. unfold now.
  destruct (clock_now (world s)) as [t w] eqn:Hclock. simpl.
  match goal with
  | |- context [getNext_loop _ _ _ _ ?n0] =>
    destruct (getNext_loop_spec (logger p) t (map_to_list (_backlog p)).*1
                (_backlog p) n0 (mkSt w (trace s)))
      as (b' & n' & tr & Hrun & Hb' & Htr & _)
  end.
  { apply NoDup_fst_map_to_list. }
  { intros k (v & Hkv)%list_elem_of_fmap. destruct Hkv as [-> Hkv].
    destruct v as [k v]. apply elem_of_map_to_list in Hkv. by exists v. }
  eexists _, _, _. unfold bind. rewrite Hrun. unfold ret. simpl.
  split; [done|]. split.
  - unfold backlog_pruned. simpl. repeat (split; [done|]). right. exists t.
    apply map_eq. intros k. rewrite Hb', map_lookup_filter.
    destruct (_backlog p !! k) as [v|] eqn:Hv; simpl; [|done].
    case_decide as Hd; case_guard as Hg; simpl in *; try done.
    + naive_solver.
    + exfalso. apply Hd. split; [|lia].
      apply list_elem_of_fmap. exists (k, v). split; [done|].
      by apply elem_of_map_to_list.
  - exists tr. split; [done|]. apply Forall_forall. intros eff Heff.
    apply Htr in Heff as (k & v & _ & _ & _ & ->). by eexists _, _.
Qed.


(** The dispatch loop does not touch the cursor; what it returns is the
    plugin's [_active] flag. *)
Lemma Plugin__process_cursor (e : Event) (p p1 : Plugin World Event)
    (s s1 : St World) (ok : bool) :
  Plugin__process e p s = Some (p1, ok, s1) →
  ok = p_active p1 ∧ _lastEventId p1 = _lastEventId p ∧
  _backlog p1 = _backlog p ∧ _pluginName p1 = _pluginName p.
Proof.
  unfold Plugin__process. intros (r & s2 & _ & Hret)%bind_Some.
  unfold ret in Hret. by simplify_eq.
Qed.

Lemma backlog_add_spec lg expiration skipped : ∀ (b : gmap Z Z) (s : St World),
  ∃ b',
    backlog_add lg expiration skipped b s
      = Some (b', mkSt (world s)
                    (trace s ++ ((λ k, Log lg INFO (AddingToBacklog k)) <$> skipped))) ∧
    ∀ k, b' !! k = if decide (k ∈ skipped) then Some expiration else b !! k.
Proof.
  induction skipped as [|k0 skipped IH]; intros b s.
  - exists b. simpl. unfold ret. rewrite app_nil_r. destruct s. split; [done|].
    intros k. destruct (decide (k ∈ [])) as [Hd|]; [by apply elem_of_nil in Hd|done].
  - destruct (IH (<[k0 := expiration]> b)
                (mkSt (world s) (trace s ++ [Log lg INFO (AddingToBacklog k0)])))
      as (b' & Hrun & Hb').
    exists b'. split.
    { simpl in *. unfold bind, emit. simpl. rewrite Hrun. by rewrite <-app_assoc. }
    intros k. rewrite Hb'. destruct (decide (k = k0)) as [->|Hne].
    + rewrite lookup_insert_eq.
      repeat case_decide; try done; exfalso; set_solver.
    + rewrite lookup_insert_ne by done.
      repeat case_decide; try done; exfalso; set_solver.
Qed.



(** ** Dispatch to the callbacks (plugin.py, callback.py) *)

Lemma invocations_app tr1 tr2 :
  invocations (tr1 ++ tr2) = invocations tr1 ++ invocations tr2.
Proof. apply omap_app. Qed.

Lemma invocations_logs {X} (f : X → LogMessage) lg lvl (xs : list X) :
  invocations ((λ x, Log lg lvl (f x)) <$> xs) = [].
Proof. induction xs as [|x xs IH]; [done|]. simpl. exact IH. Qed.

Local Ltac run_callback_cases cb arg s :=
  unfold run_callback, call_world in *;
  destruct (_useSessionUUId (_engine cb)), (timing_logger (_engine cb));
  try destruct (last _);
  unfold bind, emit, emit_all, now, in_world, ret; simpl in *;
  repeat match goal with
         | |- context [clock_now ?w] =>
           destruct (clock_now w) as [? ?]; simpl in *
         end;
  destruct (_callback cb arg _) as [? ?]; simpl in *; subst; simpl;
  repeat match goal with
         | |- context [clock_now ?w] =>
           destruct (clock_now w) as [? ?]; simpl in *
         end;
  try match goal with
      | Heq : _stopOnError cb = _ |- _ => rewrite !Heq
      end; simpl;
  eexists _, _; (split; [reflexivity|]); simpl;
  (split; [rewrite <-?app_assoc; reflexivity|]);
  rewrite ?invocations_app, ?invocations_logs; simpl;
  rewrite ?invocations_logs; reflexivity.

Lemma run_callback_raises {A} (events : A → list Event) (cb : Callback World A)
    (arg : A) (s : St World) :
  (_callback cb arg (call_world cb (world s))).1 = true →
  ∃ s' tr,
    run_callback events cb arg s
    = Some ((if _stopOnError cb then deactivate cb else cb,
             if _stopOnError cb then false else _active cb), s') ∧
    trace s' = trace s ++ tr ∧
    invocations tr = [(_name cb, events arg)].
Proof.
  intros Hraise. destruct (_stopOnError cb) eqn:Hstop;
    run_callback_cases cb arg s.
Qed.

Lemma run_callback_returns {A} (events : A → list Event) (cb : Callback World A)
    (arg : A) (s : St World) :
  (_callback cb arg (call_world cb (world s))).1 = false →
  ∃ s' tr,
    run_callback events cb arg s = Some ((cb, _active cb), s') ∧
    trace s' = trace s ++ tr ∧
    invocations tr = [(_name cb, events arg)].
Proof.
  intros Hret. run_callback_cases cb arg s.
Qed.



(** ** Batch mode (plugin.py) *)

(** [_updateLastEventId] always returns; it sets the cursor to the
    event's id, invokes nothing, removes nothing from the backlog and
    changes it inside the gap only. *)
Lemma _updateLastEventId_frame {A} (e : Event) (p : Plugin World A)
    (s : St World) :
  ∃ p' s',
    _updateLastEventId e p s = Some (p', s') ∧
    _lastEventId p' = Some (event_id e) ∧
    p_active p' = p_active p ∧ _callbacks p' = _callbacks p ∧
    _pluginName p' = _pluginName p ∧
    invocations (trace s') = invocations (trace s) ∧
    (∀ k, is_Some (_backlog p !! k) → is_Some (_backlog p' !! k)) ∧
    (∀ k, _backlog p' !! k ≠ _backlog p !! k →
          ∃ last, _lastEventId p = Some last ∧ last + 1 ≤ k ≤ event_id e - 1).
Proof.
  unfold _updateLastEventId.
  destruct (_lastEventId p) as [last|] eqn:Hlast.
  - case_bool_decide as Hgap.
    + unfold bind at 1. unfold bind at 1. unfold now at 1.
      destruct (clock_now (world s)) as [t w]. simpl.
      case_bool_decide as Hold.
      * unfold bind at 1.
        destruct (bool_decide (event_id e = last + 2));
          unfold emit, ret; simpl; eexists _, _; (split; [done|]); simpl;
          rewrite invocations_app, app_nil_r; naive_solver.
      * unfold bind at 1. unfold now at 1. simpl.
        destruct (clock_now w) as [t' w']. simpl.
        destruct (backlog_add_spec (logger p) (t' + minutes BACKLOG_TIMEOUT)
                    (seqZ (last + 1) (event_id e - (last + 1))) (_backlog p)
                    (mkSt w' (trace s))) as (b' & Hrun & Hb').
        rewrite Hrun. unfold ret. simpl.
        eexists _, _. split; [done|]. simpl.
        rewrite invocations_app, invocations_logs, app_nil_r.
        repeat (split; [done|]). split.
        { intros k Hk. rewrite Hb'. by case_decide. }
        intros k. rewrite Hb'. case_decide as Hd; [|done].
        intros _. exists last. split; [done|].
        apply elem_of_seqZ in Hd. lia.
    + unfold bind, ret. simpl. eexists _, _. split; [done|]. simpl.
      naive_solver.
  - unfold bind, ret. simpl. eexists _, _. split; [done|]. simpl.
    naive_solver.
Qed.

(** X4: outside the replay of a backlog id the cursor never goes back:
    the "too old" test of [Plugin.process] sees to it. *)
Lemma cursor_monotone_outside_backlog (p p' : Plugin World Event) (e : Event)
    (s s' : St World) (ok : bool) (l : Z) :
  _backlog p !! event_id e = None →
  _lastEventId p = Some l →
  Plugin_process e p s = Some (p', ok, s') →
  ∃ l', _lastEventId p' = Some l' ∧ l ≤ l'.
Proof.
  intros Hnin Hl. unfold Plugin_process.
  destruct (decide (is_Some (_backlog p !! event_id e))) as [[v Hin]|_];
    [congruence|].
  rewrite Hl. case_bool_decide as Hold.
  - unfold bind, emit, ret. simpl. intros [= <- _ _]. exists l. split; [done|lia].
  - intros (r & s1 & Hdisp & Hrest)%bind_Some.
    destruct r as [p1 ok1].
    apply Plugin__process_cursor in Hdisp as (_ & Hl1 & _). simpl in *.
    destruct ok1.
    + apply bind_Some in Hrest as (p2 & s2 & Hupd & Hret).
      unfold ret in Hret. injection Hret as <- _ _.
      destruct (_updateLastEventId_frame e p1 s1)
        as (p2' & s2' & Hupd' & Hl2 & _).
      rewrite Hupd in Hupd'. injection Hupd' as <- <-.
      exists (event_id e). split; [done|lia].
    + unfold ret in Hrest. injection Hrest as <- _ _.
      exists l. split; [congruence|lia].
Qed.


(** One turn of the loop of [Batch_ack_backlog]. *)
Lemma Batch_ack_backlog_step (e : Event) (p : Plugin World (list Event))
    (s : St World) :
  is_Some (_backlog p !! event_id e) →
  ∃ p2 s2,
    (∀ rest, Batch_ack_backlog (e :: rest) p s = Batch_ack_backlog rest p2 s2) ∧
    _lastEventId p2 = Some (event_id e) ∧
    p_active p2 = p_active p ∧ _callbacks p2 = _callbacks p ∧
    _pluginName p2 = _pluginName p ∧
    invocations (trace s2) = invocations (trace s) ∧
    _backlog p2 !! event_id e = None ∧
    (∀ k, k ≠ event_id e → is_Some (_backlog p !! k) → is_Some (_backlog p2 !! k)) ∧
    (∀ k, k ≠ event_id e → _backlog p2 !! k ≠ _backlog p !! k →
          ∃ last, _lastEventId p = Some last ∧ last + 1 ≤ k ≤ event_id e - 1).
Proof.
  intros [v Hin].
  set (s1 := mkSt (world s)
               (trace s ++ [Log (logger p) INFO (ProcessedFromBacklog (event_id e))])).
  set (p1 := with_cursor (_lastEventId p) (delete (event_id e) (_backlog p)) p).
  destruct (_updateLastEventId_frame e p1 s1)
    as (p2 & s2 & Hrun & Hlast & Hact & Hcbs & Hname & Hinv & Hkeep & Hchg).
  exists p2, s2. split.
  { intros rest. simpl. unfold bind at 1. unfold emit at 1.
    unfold bind at 1. unfold dict_del. rewrite Hin. unfold ret at 1.
    unfold bind at 1. fold s1 p1. by rewrite Hrun. }
  split; [done|]. split; [done|]. split; [done|]. split; [done|]. split.
  { rewrite Hinv. subst s1. simpl. rewrite invocations_app. simpl.
    by rewrite app_nil_r. }
  split.
  { destruct (decide (_backlog p2 !! event_id e = _backlog p1 !! event_id e))
      as [->|Hne].
    - subst p1. simpl. apply lookup_delete_eq.
    - apply Hchg in Hne as (last & _ & Hrange). lia. }
  split.
  { intros k Hk Hsome. apply Hkeep. subst p1. simpl.
    by rewrite lookup_delete_ne. }
  intros k Hk Hne. apply Hchg. subst p1. simpl.
  by rewrite lookup_delete_ne.
Qed.



(** One pass of [BatchPlugin._process] over the callbacks: it always
    returns; it hands out [batch_deliveries] in full, or, when a callback
    deactivates itself, up to and including that callback. *)
Local Ltac deliveries :=
  unfold batch_deliveries, isActive in *; simpl;
  repeat match goal with
         | Heq : _ = _ |- _ => rewrite Heq
         end; done.




End PluginProperties.

(** ** Collections (pluginCollection.py) *)

Lemma elem_of_sorted_keys {V} (d : gmap string V) (k : string) :
  k ∈ sorted_keys d ↔ is_Some (d !! k).
Proof.
  unfold sorted_keys. rewrite merge_sort_Permutation, list_elem_of_fmap. split.
  - intros ([k' v] & -> & Hkv). apply elem_of_map_to_list in Hkv. by exists v.
  - intros [v Hv]. exists (k, v). split; [done|]. by apply elem_of_map_to_list.
Qed.

Lemma NoDup_sorted_keys {V} (d : gmap string V) : NoDup (sorted_keys d).
Proof.
  unfold sorted_keys. rewrite merge_sort_Permutation.
  apply NoDup_fst_map_to_list.
Qed.

Section CollectionProperties.
Context {World : Type} `{Environment World}.

(** The rule for [for plugin in self]: a body that always returns,
    relates the plugin it leaves to the plugin it found by [R], keeps
    [I] of the state it threads and moves the world and the trace along
    the preorder [Q], gives a loop that always returns with every
    visited plugin related by [R], every other one untouched, [I] kept
    and the world and the trace moved along [Q]. *)
Lemma for_plugins_rule {A S}
    (body : Plugin World A → S → M World (Plugin World A * S))
    (Pp : Plugin World A → Prop) (R : Plugin World A → Plugin World A → Prop)
    (I : S → Prop) (Q : St World → St World → Prop)
    `{!Reflexive Q, !Transitive Q} :
  (∀ p a (s : St World), Pp p → I a →
     ∃ p' a' s', body p a s = Some ((p', a'), s') ∧ R p p' ∧ I a' ∧ Q s s') →
  ∀ keys plugins acc (s : St World),
    NoDup keys →
    (∀ k, k ∈ keys → ∃ p, plugins !! k = Some p ∧ Pp p) →
    I acc →
    ∃ plugins' acc' s',
      for_plugins body keys plugins acc s = Some ((plugins', acc'), s') ∧
      I acc' ∧ Q s s' ∧
      (∀ k, k ∉ keys → plugins' !! k = plugins !! k) ∧
      (∀ k p, k ∈ keys → plugins !! k = Some p →
              ∃ p', plugins' !! k = Some p' ∧ R p p').
Proof.
  intros Hbody keys. induction keys as [|k keys IH];
    intros plugins acc s Hnd Hin Hacc.
  - exists plugins, acc, s. simpl. unfold ret.
    repeat (split; [done|]). intros k p Hk. by apply elem_of_nil in Hk.
  - apply NoDup_cons in Hnd as [Hk Hnd].
    destruct (Hin k) as (p & Hp & HPp); [by left|].
    destruct (Hbody p acc s HPp Hacc)
      as (p1 & a1 & s1 & Hrun1 & HR1 & HI1 & HQ1).
    destruct (IH (<[k := p1]> plugins) a1 s1 Hnd)
      as (plugins' & acc' & s' & Hrun & HI & HQ & Hout & Hvis);
      [|done|].
    { intros k' Hk'. rewrite lookup_insert_ne by (by intros ->).
      apply Hin. by right. }
    exists plugins', acc', s'. simpl. rewrite Hp.
    unfold bind. rewrite Hrun1. simpl. rewrite Hrun.
    split; [done|]. split; [done|].
    split; [by etrans|]. split.
    + intros k' Hk'. rewrite Hout by set_solver.
      apply lookup_insert_ne. set_solver.
    + intros k' p' [->|Hk']%elem_of_cons Hp'.
      * rewrite Hp in Hp'. injection Hp' as <-.
        exists p1. split; [|done]. rewrite Hout by done.
        apply lookup_insert_eq.
      * apply Hvis; [done|]. rewrite lookup_insert_ne by (by intros ->). done.
Qed.

(** The loop over all the plugins of a collection, in sorted order. *)
Lemma for_all_plugins_rule {A S}
    (body : Plugin World A → S → M World (Plugin World A * S))
    (Pp : Plugin World A → Prop) (R : Plugin World A → Plugin World A → Prop)
    (I : S → Prop) (Q : St World → St World → Prop)
    `{!Reflexive Q, !Transitive Q}
    (plugins : gmap string (Plugin World A)) (acc : S) (s : St World) :
  (∀ p a (s : St World), Pp p → I a →
     ∃ p' a' s', body p a s = Some ((p', a'), s') ∧ R p p' ∧ I a' ∧ Q s s') →
  (∀ k p, plugins !! k = Some p → Pp p) →
  I acc →
  ∃ plugins' acc' s',
    for_plugins body (sorted_keys plugins) plugins acc s
      = Some ((plugins', acc'), s') ∧
    I acc' ∧ Q s s' ∧
    (∀ k, plugins !! k = None → plugins' !! k = None) ∧
    (∀ k p, plugins !! k = Some p → ∃ p', plugins' !! k = Some p' ∧ R p p').
Proof.
  intros Hbody HPp Hacc.
  destruct (for_plugins_rule body Pp R I Q Hbody (sorted_keys plugins)
              plugins acc s)
    as (plugins' & acc' & s' & Hrun & HI & HQ & Hout & Hvis); [| |done|].
  { apply NoDup_sorted_keys. }
  { intros k [p Hp]%elem_of_sorted_keys. exists p. split; [done|]. by eapply HPp. }
  exists plugins', acc', s'. repeat (split; [done|]). split.
  - intros k Hk. rewrite Hout; [done|].
    rewrite elem_of_sorted_keys, Hk. by intros [? ?].
  - intros k p Hp. apply Hvis; [|done]. apply elem_of_sorted_keys. by exists p.
Qed.

(** [setState] with an integer touches the cursors only. *)
Lemma PluginCollection_setState_int {A} (n : Z) (c : PluginCollection World A)
    (s : St World) :
  ∃ c',
    PluginCollection_setState (CStateInt n) c s = Some (c', s) ∧
    path c' = path c ∧
    ∀ b, _plugins c' !! b
         = (λ p, with_cursor (Some n) (_backlog p) p) <$> _plugins c !! b.
Proof.
  unfold PluginCollection_setState.
  match goal with
  | |- context [for_plugins ?body _ _ _] =>
    destruct (for_all_plugins_rule body (λ _, True)
                (λ p p', p' = with_cursor (Some n) (_backlog p) p)
                (λ _, True) eq (_plugins c) (_stateData c) s)
      as (plugins' & sd' & s' & Hrun & _ & <- & Hout & Hvis); [|done..|]
  end.
  { intros p a s0 _ _. unfold ret. by eexists _, _, _. }
  eexists. unfold bind. rewrite Hrun. unfold ret. split; [done|]. simpl.
  split; [done|].
  intros b. destruct (_plugins c !! b) as [p|] eqn:Hp; simpl.
  - by destruct (Hvis b p Hp) as (p' & -> & ->).
  - by apply Hout.
Qed.

(** C7 (amended): [setState] with an integer [n] sets the cursor of every
    plugin of the collection to [n] and leaves every backlog as it
    was; [setState] with a mapping keeps the mapping as the collection's
    state data, gives a plugin whose name is mapped to a
    [(lastId, backlog)] pair that cursor and that backlog, leaves a
    plugin with no entry alone, and the entries of names that no present
    plugin bears are still in what [getState] returns. *)
Theorem setState_spec {A} (c : PluginCollection World A) (s : St World) :
  (∀ n, ∃ c',
     PluginCollection_setState (CStateInt n) c s = Some (c', s) ∧
     ∀ b, _plugins c' !! b
          = (λ p, with_cursor (Some n) (_backlog p) p) <$> _plugins c !! b) ∧
  (∀ states, ∃ c',
     PluginCollection_setState (CStateMap states) c s = Some (c', s) ∧
     _stateData c' = states ∧
     (∀ b, _plugins c !! b = None → _plugins c' !! b = None) ∧
     (∀ b p l bk,
        _plugins c !! b = Some p →
        states !! getName p = Some (StateTuple l bk) →
        _plugins c' !! b = Some (with_cursor l bk p)) ∧
     (∀ b p,
        _plugins c !! b = Some p → states !! getName p = None →
        _plugins c' !! b = Some p) ∧
     ∃ c'' sd,
       PluginCollection_getState c' s = Some ((c'', sd), s) ∧
       ∀ name, (∀ b p, _plugins c !! b = Some p → getName p ≠ name) →
               sd !! name = states !! name).
Proof.
  split.
  - intros n.
    destruct (PluginCollection_setState_int n c s) as (c' & Hrun & _ & Hplugins).
    by exists c'.
  - intros states. unfold PluginCollection_setState.
    set (f := λ p : Plugin World A,
           if state_truthy (states !! getName p)
           then from_option (λ st, Plugin_setState st p) p (states !! getName p)
           else p).
    match goal with
    | |- context [for_plugins ?body _ _ _] =>
      destruct (for_all_plugins_rule body (λ _, True) (λ p p', p' = f p)
                  (λ _, True) eq (_plugins c) tt s)
        as (plugins' & [] & s' & Hrun & _ & <- & Hout & Hvis); [|done..|]
    end.
    { intros p a s0 _ _. subst f. simpl.
      destruct (state_truthy (states !! getName p)); unfold ret;
        by eexists _, _, _. }
    eexists. unfold bind at 1. rewrite Hrun. unfold ret at 1.
    split; [done|]. simpl. split; [done|]. split; [done|]. split.
    { intros b p l bk Hp Hst. destruct (Hvis b p Hp) as (p' & -> & ->).
      subst f. simpl. by rewrite Hst. }
    split.
    { intros b p Hp Hst. destruct (Hvis b p Hp) as (p' & -> & ->).
      subst f. simpl. by rewrite Hst. }
    unfold PluginCollection_getState. simpl.
    match goal with
    | |- context [for_plugins ?body _ _ _] =>
      destruct (for_all_plugins_rule body
                  (λ p, ∃ b p0, _plugins c !! b = Some p0 ∧ getName p = getName p0)
                  (λ p p', p' = p)
                  (λ sd, ∀ name,
                     (∀ b p, _plugins c !! b = Some p → getName p ≠ name) →
                     sd !! name = states !! name)
                  eq plugins' states s)
        as (plugins'' & sd & s'' & Hrun' & Hsd & <- & _ & _); [| |done|]
    end.
    { intros p sd s0 (b & p0 & Hp0 & Hname) Hsd. unfold ret.
      eexists _, _, _. split; [done|]. split; [done|]. split; [|done].
      intros name Hfresh. rewrite lookup_insert_ne; [by apply Hsd|].
      rewrite Hname. by eapply Hfresh. }
    { intros b p' Hp'. destruct (_plugins c !! b) as [p|] eqn:Hp.
      - destruct (Hvis b p Hp) as (p'' & Hp'' & ->).
        exists b, p. split; [done|].
        rewrite Hp' in Hp''. injection Hp'' as ->.
        subst f. simpl. destruct (state_truthy (states !! getName p)); [|done].
        by destruct (states !! getName p) as [[]|].
      - rewrite Hout in Hp' by done. done. }
    eexists _, sd. unfold bind. rewrite Hrun'. unfold ret. done.
Qed.

End CollectionProperties.

(** ** Fetching and the legacy id file (engine.py) *)

Section EngineProperties.
Context {World : Type} `{Environment World}.

#[local] Instance only_timeout_warnings_refl :
  Reflexive (@only_timeout_warnings World).
Proof. intros s. exists []. by rewrite app_nil_r. Qed.

#[local] Instance only_timeout_warnings_trans :
  Transitive (@only_timeout_warnings World).
Proof.
  intros s1 s2 s3 (tr1 & H1 & HT1) (tr2 & H2 & HT2). exists (tr1 ++ tr2).
  split; [by rewrite H2, H1, app_assoc|]. by apply Forall_app.
Qed.

Lemma PluginCollection_getNextUnprocessedEventId_prunes {A}
    (c : PluginCollection World A) (s : St World) :
  ∃ c' r s',
    PluginCollection_getNextUnprocessedEventId c s = Some (c', r, s') ∧
    collection_pruned c c' ∧ only_timeout_warnings s s'.
Proof.
  unfold PluginCollection_getNextUnprocessedEventId.
  match goal with
  | |- context [for_plugins ?body _ _ _] =>
    destruct (for_all_plugins_rule body (λ _, True) backlog_pruned
                (λ _, True) only_timeout_warnings (_plugins c) None s)
      as (plugins' & r & s' & Hrun & _ & HQ & Hout & Hvis); [|done..|]
  end.
  { intros p eId s0 _ _. destruct (p_active p) eqn:Hact; simpl.
    - destruct (getNextUnprocessedEventId_prunes p s0)
        as (p' & r & s' & Hrun & Hpr & HQ).
      unfold bind. rewrite Hrun. unfold ret. by eexists _, _, _.
    - unfold ret. eexists _, _, _. split; [done|]. split; [|done].
      unfold backlog_pruned. repeat (split; [done|]). by left. }
  eexists _, _, _. unfold bind at 1. rewrite Hrun. unfold ret. simpl.
  split; [done|]. split; [|done].
  split; [done|]. split; [done|]. simpl. intros b.
  destruct (_plugins c !! b) as [p|] eqn:Hp.
  - destruct (Hvis b p Hp) as (p' & -> & Hpr). by constructor.
  - rewrite Hout by done. constructor.
Qed.

Lemma collections_nextIds_prunes {A} (cs : list (PluginCollection World A)) :
  ∀ s : St World,
  ∃ cs' ids s',
    collections_nextIds cs s = Some (cs', ids, s') ∧
    Forall2 collection_pruned cs cs' ∧ only_timeout_warnings s s'.
Proof.
  induction cs as [|c cs IH]; intros s.
  - exists [], [], s. simpl. unfold ret. split; [done|]. split; [constructor|done].
  - destruct (PluginCollection_getNextUnprocessedEventId_prunes c s)
      as (c' & r & s1 & Hrun1 & Hpr1 & HQ1).
    destruct (IH s1) as (cs' & ids & s' & Hrun & Hpr & HQ).
    exists (c' :: cs'), (r :: ids), s'. simpl.
    unfold bind. rewrite Hrun1. simpl. rewrite Hrun. unfold ret. simpl.
    split; [done|]. split; [by constructor|]. by etrans.
Qed.


Lemma find_attempts_failed {A} (eng : Engine World A) (nextEventId i : Z)
    (rest : list Z) (s : St World) :
  is_failure (sg_find (nextEventId - 1) (maxEventBatchSize eng) (world s)).1 →
  find_attempts eng nextEventId (i :: rest) s
  = (_writeConnectionAttemptLog eng i
       (failure_message
          (sg_find (nextEventId - 1) (maxEventBatchSize eng) (world s)).1) ;;
     find_attempts eng nextEventId rest)
      (mkSt (sg_find (nextEventId - 1) (maxEventBatchSize eng) (world s)).2
         (trace s)).
Proof.
  intros Hfail. cbn [find_attempts]. unfold bind at 1. unfold in_world.
  destruct (sg_find (nextEventId - 1) (maxEventBatchSize eng) (world s))
    as [o w]. by destruct o.
Qed.

Lemma _writeConnectionAttemptLog_last {A} (eng : Engine World A) (i : Z)
    (msg : string) (s : St World) :
  i = _maxConnRetries eng - 1 →
  _writeConnectionAttemptLog eng i msg s
  = Some (tt, mkSt (time_sleep (_connRetrySleep eng) (world s))
                (trace s ++
                 [Log "engine" ERROR (UnableToConnect i (_maxConnRetries eng) msg);
                  Sleep (_connRetrySleep eng)])).
Proof.
  intros Hi. unfold _writeConnectionAttemptLog, engine_log.
  rewrite bool_decide_eq_true_2 by done.
  unfold bind, emit, sleep, bind, emit, in_world. simpl. by rewrite <-app_assoc.
Qed.

Lemma _writeConnectionAttemptLog_before {A} (eng : Engine World A) (i : Z)
    (msg : string) (s : St World) :
  i ≠ _maxConnRetries eng - 1 →
  _writeConnectionAttemptLog eng i msg s
  = Some (tt, mkSt (world s)
                (trace s ++
                 [Log "engine" WARNING
                    (UnableToConnect i (_maxConnRetries eng) msg)])).
Proof.
  intros Hi. unfold _writeConnectionAttemptLog, engine_log.
  by rewrite bool_decide_eq_false_2 by done.
Qed.




Lemma collections_setState_int {A} (n : Z)
    (cs : list (PluginCollection World A)) (s : St World) :
  ∃ cs',
    collections_setState (CStateInt n) cs s = Some (cs', s) ∧
    Forall2 (λ c c',
               path c' = path c ∧
               ∀ b, _plugins c' !! b
                    = (λ p, with_cursor (Some n) (_backlog p) p)
                        <$> _plugins c !! b) cs cs'.
Proof.
  induction cs as [|c cs IH].
  - exists []. simpl. unfold ret. split; [done|]. constructor.
  - destruct (PluginCollection_setState_int n c s) as (c' & Hrun1 & Hc').
    destruct IH as (cs' & Hrun & Hcs').
    exists (c' :: cs'). cbn [collections_setState].
    unfold bind at 1. rewrite Hrun1. unfold bind at 1. rewrite Hrun.
    unfold ret. split; [done|]. by constructor.
Qed.

(** C8: when the event id file exists, [pickle.load] raises
    [UnpicklingError] on it, and its first line, stripped, is a string
    of decimal digits, [_loadEventIdData] gives every plugin of every
    collection the number those digits denote as its cursor (and leaves
    the backlogs as they are). *)
Theorem legacy_id_file_seeds_every_plugin {A}
    (restore : gmap string (gmap string PluginState) → Engine World A
               → M World (Engine World A))
    (bootstrap : Engine World A → M World (Engine World A))
    (contents : string) (eng : Engine World A) (s : St World) :
  pickle_load contents = UnpicklingError →
  bytes_isdigit (bytes_strip (bytes_readline contents)) = true →
  ∃ eng' s',
    _loadEventIdData restore bootstrap (Some contents) eng s = Some (eng', s') ∧
    world s' = world s ∧
    trace s' = trace s ++
      [Log "engine" DEBUG
         (ReadLastEventId (int_of_bytes (bytes_strip (bytes_readline contents))))] ∧
    Forall2 (λ c c',
               path c' = path c ∧
               ∀ b, _plugins c' !! b
                    = (λ p, with_cursor
                              (Some (int_of_bytes
                                       (bytes_strip (bytes_readline contents))))
                              (_backlog p) p)
                        <$> _plugins c !! b)
      (_pluginCollections eng) (_pluginCollections eng').
Proof.
  intros Hpickle Hdigits. unfold _loadEventIdData. rewrite Hpickle.
  unfold load_legacy_id. rewrite Hdigits.
  unfold bind at 1. unfold emit at 1.
  match goal with
  | |- context [collections_setState ?st ?cs] =>
    match goal with
    | |- context [bind (collections_setState st cs) _ ?s0] =>
      destruct (collections_setState_int
                  (int_of_bytes (bytes_strip (bytes_readline contents)))
                  cs s0) as (cs' & Hrun & Hcs')
    end
  end.
  unfold bind. rewrite Hrun. unfold ret.
  eexists _, _. split; [done|]. simpl. done.
Qed.

End EngineProperties.

(** ** The registrar (registrar.py) *)

(** C9, as stated, fails: [getLogger] (and [_plugin], [_allowed]) can be
    accessed on a registrar although they are none of the three
    forwarded names. *)
Lemma Registrar_getLogger_is_exposed :
  ¬ (∀ (object_has : string → bool) (plugin : string) (name : string),
       name ∉ ["logger"; "setEmails"; "registerCallback"] →
       ∃ msg, Registrar_getattribute object_has (Registrar__init__ plugin) name
              = AttributeError msg).
Proof.
  intros Hclaim.
  destruct (Hclaim (λ _, false) "p" "getLogger") as [msg Hmsg].
  - intros Hin. repeat (apply elem_of_cons in Hin as [Hin|Hin]; [done|]).
    by apply elem_of_nil in Hin.
  - vm_compute in Hmsg. discriminate.
Qed.

(** C9 (amended): on a registrar, [__getattr__] forwards exactly the
    three names [logger], [setEmails] and [registerCallback] to the
    plugin and raises [AttributeError] for every other name; an
    attribute access succeeds exactly for those three names, for the
    registrar's own attributes ([_plugin], [_allowed], [__init__],
    [getLogger], [__getattr__]) and for what every object has. *)
Theorem Registrar_exposes {P} (object_has : string → bool) (plugin : P)
    (name : string) :
  (∀ n, n ∈ ["logger"; "setEmails"; "registerCallback"] → object_has n = false) →
  (name ∈ ["logger"; "setEmails"; "registerCallback"] →
   Registrar__getattr__ object_has (Registrar__init__ plugin) name
     = Value (OfPlugin plugin name) ∧
   Registrar_getattribute object_has (Registrar__init__ plugin) name
     = Value (OfPlugin plugin name)) ∧
  (name ∉ ["logger"; "setEmails"; "registerCallback"] →
   Registrar__getattr__ object_has (Registrar__init__ plugin) name
     = AttributeError
         ("type object 'Registrar' has no attribute '" +:+ name +:+ "'")) ∧
  ((∃ v, Registrar_getattribute object_has (Registrar__init__ plugin) name
         = Value v) ↔
   name ∈ ["logger"; "setEmails"; "registerCallback"] ∨
   name ∈ ["_plugin"; "_allowed"; "__init__"; "getLogger"; "__getattr__"] ∨
   object_has name = true).
Proof.
  intros Hobj.
  assert (Hfwd : name ∈ ["logger"; "setEmails"; "registerCallback"] →
                 Registrar__getattr__ object_has (Registrar__init__ plugin) name
                 = Value (OfPlugin plugin name)).
  { intros Hin. unfold Registrar__getattr__. simpl.
    rewrite decide_True by done. unfold Plugin_getattr.
    rewrite decide_True; [done|].
    repeat (apply elem_of_cons in Hin as [->|Hin]; [set_solver|]).
    by apply elem_of_nil in Hin. }
  assert (Hother : name ∉ ["logger"; "setEmails"; "registerCallback"] →
                   Registrar__getattr__ object_has (Registrar__init__ plugin) name
                   = AttributeError
                       ("type object 'Registrar' has no attribute '"
                        +:+ name +:+ "'")).
  { intros Hnin. unfold Registrar__getattr__. simpl.
    by rewrite decide_False by done. }
  assert (Hown : name ∈ ["logger"; "setEmails"; "registerCallback"] →
                 Registrar_getattribute object_has (Registrar__init__ plugin) name
                 = Registrar__getattr__ object_has (Registrar__init__ plugin) name).
  { intros Hin. unfold Registrar_getattribute.
    rewrite (Hobj name Hin).
    repeat (apply elem_of_cons in Hin as [->|Hin]; [done|]).
    by apply elem_of_nil in Hin. }
  split; [|split]; [|done|].
  { intros Hin. rewrite Hown by done. split; by apply Hfwd. }
  destruct (decide (name ∈ ["logger"; "setEmails"; "registerCallback"]))
    as [Hin|Hnin].
  { rewrite Hown, Hfwd by done. split; [by left|]. by eexists. }
  unfold Registrar_getattribute.
  destruct (decide (name = "_plugin")) as [->|?].
  { split; [|by eexists]. intros _. right. left. set_solver. }
  destruct (decide (name = "_allowed")) as [->|?].
  { split; [|by eexists]. intros _. right. left. set_solver. }
  destruct (decide (name ∈ ["__init__"; "getLogger"; "__getattr__"])) as [Hcls|Hcls].
  { split; [|by eexists]. intros _. right. left. set_solver. }
  destruct (object_has name) eqn:Hobjn.
  { split; [|by eexists]. intros _. by right; right. }
  rewrite Hother by done. split.
  - by intros [v ?].
  - intros [?|[Hown'|?]]; [done| |done]. exfalso. set_solver.
Qed.

Lemma Registrar_exposes_witness :
  Registrar__getattr__ (λ _, false) (Registrar__init__ "p") "registerCallback"
    = Value (OfPlugin "p" "registerCallback") ∧
  Registrar__getattr__ (λ _, false) (Registrar__init__ "p") "_plugin"
    = AttributeError "type object 'Registrar' has no attribute '_plugin'".
Proof.
  destruct (Registrar_exposes (λ _, false) "p" "registerCallback")
    as ([Hfwd _] & _); [done|set_solver|].
  destruct (Registrar_exposes (λ _, false) "p" "_plugin") as (_ & Hother & _);
    [done|].
  split; [done|]. apply Hother. set_solver.
Defined.

(** ** Concrete runs *)

(** C1 fails on the code (scenario S3 continued).  With the cursor at
    10 the plugin is offered 11, then 13 (one minute old, so 12 goes to
    the backlog), then 12, then 13 once more: the replay of 12 from the
    backlog sets the cursor back from 13 to 12, and 13, already
    dispatched, is dispatched a second time. *)
Theorem cursor_rewinds_on_backlog_replay :
  ∃ p1 p2 p3 p4 s1 s2 s3 s4,
    Plugin_process (event 11 1) cursor10 at_noon = Some (p1, true, s1) ∧
    Plugin_process (event 13 1) p1 s1 = Some (p2, true, s2) ∧
    Plugin_process (event 12 0) p2 s2 = Some (p3, true, s3) ∧
    Plugin_process (event 13 1) p3 s3 = Some (p4, true, s4) ∧
    _lastEventId <$> [p1; p2; p3; p4] = [Some 11; Some 13; Some 12; Some 13] ∧
    _backlog p2 = {[12 := noon + minutes 5]} ∧
    invocations (trace s4)
    = [("f", [event 11 1]); ("f", [event 13 1]); ("f", [event 12 0]);
       ("f", [event 13 1])].
Proof.
  eexists _, _, _, _, _, _, _, _.
  split; [vm_compute; reflexivity|].
  split; [vm_compute; reflexivity|].
  split; [vm_compute; reflexivity|].
  split; [vm_compute; reflexivity|].
  split; [vm_compute; reflexivity|].
  split; vm_compute; reflexivity.
Qed.




(** The same call on the concrete plugin: 8 has expired and is dropped
    with a warning, and 12 is the next id. *)
Example getNext_drops_8_returns_12 :
  ∃ p',
    Plugin_getNextUnprocessedEventId cursor13_backlog at_noon
    = Some (p', Some 12,
            mkSt (mkSW noon []) [Log "plugin.p" WARNING (TimeoutElapsed 8)]) ∧
    _backlog p' = {[12 := noon + minutes 4]}.
Proof. eexists. split; vm_compute; reflexivity. Qed.





(** C7, as stated, fails: [setState] with an integer sets the cursor and
    keeps the backlog the plugin had. *)
Lemma setState_int_keeps_backlog :
  ∃ c',
    PluginCollection_setState (CStateInt 20) one_collection at_noon
    = Some (c', at_noon) ∧
    _lastEventId <$> _plugins c' !! "p.py" = Some (Some 20) ∧
    _backlog <$> _plugins c' !! "p.py"
    = Some (<[12 := noon + minutes 4]> {[8 := noon - minutes 1]}) ∧
    _backlog <$> _plugins c' !! "p.py" ≠ Some ∅.
Proof.
  eexists. split; [vm_compute; reflexivity|].
  split; [vm_compute; reflexivity|].
  split; [vm_compute; reflexivity|]. vm_compute. discriminate.
Qed.



Lemma legacy_id_file_seeds_every_plugin_witness :
  ∃ eng' s',
    _loadEventIdData (λ _ eng, ret eng) (λ eng, ret eng)
      (Some old_style_id_file) engine3 at_noon = Some (eng', s') ∧
    cursor_of eng' "p.py" = Some (Some 12345).
Proof.
  destruct (legacy_id_file_seeds_every_plugin (λ _ eng, ret eng) (λ eng, ret eng)
              old_style_id_file engine3 at_noon)
    as (eng' & s' & Hrun & _).
  - reflexivity.
  - vm_compute. reflexivity.
  - exists eng', s'. split; [exact Hrun|].
    vm_compute in Hrun. injection Hrun as <- <-. vm_compute. reflexivity.
Defined.

(** Scenario S2: cursor at 10, events 11, 12, 13 go straight through. *)
Example straight_through :
  ∃ c' s',
    (c1 <- PluginCollection_process (event 11 0)
             (mkCollection "/plugins" {["p.py" := cursor10]} ∅) ;;
     c2 <- PluginCollection_process (event 12 0) c1 ;;
     PluginCollection_process (event 13 0) c2) at_noon = Some (c', s') ∧
    Plugin_getState <$> _plugins c' !! "p.py" = Some (StateTuple (Some 13) ∅) ∧
    invocations (trace s')
    = [("f", [event 11 0]); ("f", [event 12 0]); ("f", [event 13 0])].
Proof.
  eexists _, _. split; [vm_compute; reflexivity|].
  split; vm_compute; reflexivity.
Qed.

(** A callback of an engine that sets the session uuid and logs the
    timing: what one successful call leaves in the trace. *)
Example timed_callback_trace :
  Callback_process
    (mkCallback "f" "plugin.p.f" (mkSettings true true) None false true returns)
    (event 11 1) at_noon
  = Some ((mkCallback "f" "plugin.p.f" (mkSettings true true) None false true
             returns, true),
          mkSt (mkSW noon [])
            [SetSessionUuid "f" "0a1b";
             Invoke "f" [event 11 1];
             Log "timing" INFO
               (Timing 11 (noon - minutes 1) "plugin.p.f" noon noon false)]).
Proof. vm_compute. reflexivity. Qed.

(** * Further properties *)

(** ** Plugin.process and Plugin._process (plugin.py) *)

Section MorePluginProperties.
Context {World : Type} `{Environment World}.

(** One pass of [Plugin._process] over the callbacks: it always returns;
    unless it breaks off it leaves the callbacks as they are and makes
    all the [deliveries]; it breaks off at the first callback that stops
    on error and raises, which is the only one it changes. *)
Lemma _process_loop_spec lg e : ∀ cbs (s : St World),
  ∃ cbs' broke s1 tr,
    _process_loop lg e cbs s = Some ((cbs', broke), s1) ∧
    trace s1 = trace s ++ tr ∧
    if broke then
      ∃ pre cbA post,
        cbs = pre ++ cbA :: post ∧ cbs' = pre ++ deactivate cbA :: post ∧
        _active cbA = true ∧ _stopOnError cbA = true ∧
        invocations tr = deliveries e (pre ++ [cbA])
    else cbs' = cbs ∧ invocations tr = deliveries e cbs.
Proof.
  induction cbs as [|cb cbs IH]; intros s.
  - exists [], false, s, []. simpl. unfold ret. by rewrite app_nil_r.
  - cbn [_process_loop]. unfold isActive.
    destruct (_active cb) eqn:Hact.
    + destruct (canProcess cb e) eqn:Hcan.
      * unfold bind at 1. unfold emit at 1. unfold bind at 1.
        unfold Callback_process.
        set (s0 := mkSt (world s)
                     (trace s ++ [Log lg DEBUG (Dispatching [event_id e] (_name cb))])).
        assert (Hhead : ∀ tr2 tr,
                  invocations tr2 = [(_name cb, [e])] →
                  invocations
                    (Log lg DEBUG (Dispatching [event_id e] (_name cb)) :: tr2 ++ tr)
                  = (_name cb, [e]) :: invocations tr).
        { intros tr2 tr Hinv2.
          change (invocations (tr2 ++ tr) = (_name cb, [e]) :: invocations tr).
          by rewrite invocations_app, Hinv2. }
        destruct ((_callback cb e (call_world cb (world s0))).1) eqn:Hraised.
        -- destruct (run_callback_raises (λ e, [e]) cb e s0 Hraised)
             as (s2 & tr2 & Hcall & Htr2 & Hinv2).
           rewrite Hcall. destruct (_stopOnError cb) eqn:Hstop; cbn [fst snd negb].
           ++ unfold ret.
              eexists _, true, s2,
                (Log lg DEBUG (Dispatching [event_id e] (_name cb)) :: tr2).
              split; [done|].
              split; [rewrite Htr2; subst s0; simpl; by rewrite <-app_assoc|].
              exists [], cb, cbs. repeat (split; [done|]).
              rewrite <-(app_nil_r tr2), Hhead by done.
              unfold deliveries, isActive. simpl. by rewrite Hact, Hcan.
           ++ rewrite Hact. cbn [negb].
              destruct (IH s2) as (cbs' & broke & s1 & tr & Hrun & Htr & Hinv).
              unfold bind. rewrite Hrun. unfold ret. cbn [fst snd].
              eexists _, broke, s1,
                (Log lg DEBUG (Dispatching [event_id e] (_name cb)) :: tr2 ++ tr).
              split; [done|].
              split; [rewrite Htr, Htr2; subst s0; simpl;
                      by rewrite <-!app_assoc|].
              rewrite Hhead by done. destruct broke.
              ** destruct Hinv as (pre & cbA & post & -> & -> & HA & HS & Hinv).
                 exists (cb :: pre), cbA, post. repeat (split; [done|]).
                 rewrite Hinv. unfold deliveries, isActive. simpl.
                 by rewrite Hact, Hcan.
              ** destruct Hinv as [-> Hinv]. split; [done|].
                 rewrite Hinv. unfold deliveries, isActive. simpl.
                 by rewrite Hact, Hcan.
        -- destruct (run_callback_returns (λ e, [e]) cb e s0 Hraised)
             as (s2 & tr2 & Hcall & Htr2 & Hinv2).
           rewrite Hcall. cbn [fst snd]. rewrite Hact. cbn [negb].
           destruct (IH s2) as (cbs' & broke & s1 & tr & Hrun & Htr & Hinv).
           unfold bind. rewrite Hrun. unfold ret. cbn [fst snd].
           eexists _, broke, s1,
             (Log lg DEBUG (Dispatching [event_id e] (_name cb)) :: tr2 ++ tr).
           split; [done|].
           split; [rewrite Htr, Htr2; subst s0; simpl;
                   by rewrite <-!app_assoc|].
           rewrite Hhead by done. destruct broke.
           ++ destruct Hinv as (pre & cbA & post & -> & -> & HA & HS & Hinv).
              exists (cb :: pre), cbA, post. repeat (split; [done|]).
              rewrite Hinv. unfold deliveries, isActive. simpl.
              by rewrite Hact, Hcan.
           ++ destruct Hinv as [-> Hinv]. split; [done|].
              rewrite Hinv. unfold deliveries, isActive. simpl.
              by rewrite Hact, Hcan.
      * destruct (IH s) as (cbs' & broke & s1 & tr & Hrun & Htr & Hinv).
        unfold bind. rewrite Hrun. unfold ret. cbn [fst snd].
        exists (cb :: cbs'), broke, s1, tr.
        split; [done|]. split; [done|]. destruct broke.
        -- destruct Hinv as (pre & cbA & post & -> & -> & HA & HS & Hinv).
           exists (cb :: pre), cbA, post. repeat (split; [done|]).
           rewrite Hinv. unfold deliveries, isActive. simpl.
           by rewrite Hact, Hcan.
        -- destruct Hinv as [-> Hinv]. split; [done|].
           rewrite Hinv. unfold deliveries, isActive. simpl.
           by rewrite Hact, Hcan.
    + unfold bind at 1. unfold emit at 1.
      set (s0 := mkSt (world s)
                   (trace s ++ [Log lg DEBUG (SkippingInactiveCallback (_name cb))])).
      destruct (IH s0) as (cbs' & broke & s1 & tr & Hrun & Htr & Hinv).
      unfold bind. rewrite Hrun. unfold ret. cbn [fst snd].
      exists (cb :: cbs'), broke, s1,
        (Log lg DEBUG (SkippingInactiveCallback (_name cb)) :: tr).
      split; [done|].
      split; [rewrite Htr; subst s0; simpl; by rewrite <-app_assoc|].
      change (invocations (Log lg DEBUG (SkippingInactiveCallback (_name cb)) :: tr))
        with (invocations tr).
      destruct broke.
      * destruct Hinv as (pre & cbA & post & -> & -> & HA & HS & Hinv).
        exists (cb :: pre), cbA, post. repeat (split; [done|]).
        rewrite Hinv. unfold deliveries, isActive. simpl. by rewrite Hact.
      * destruct Hinv as [-> Hinv]. split; [done|].
        rewrite Hinv. unfold deliveries, isActive. simpl. by rewrite Hact.
Qed.

(** [Plugin.process], case by case.  Either the event is dropped as too
    old, with one debug record; or it is dispatched by the loop of
    [_process], and the cursor is updated if and only if the plugin is
    active afterwards. *)
Lemma Plugin_process_cases (e : Event) (p : Plugin World Event) (s : St World) :
  (_backlog p !! event_id e = None ∧
   ∃ l, _lastEventId p = Some l ∧ event_id e ≤ l ∧
        Plugin_process e p s
        = Some (p, p_active p,
                mkSt (world s)
                  (trace s ++ [Log (logger p) DEBUG (EventTooOld (event_id e) l)])))
  ∨
  ((is_Some (_backlog p !! event_id e) ∨
    ∀ l, _lastEventId p = Some l → l < event_id e) ∧
   ∃ cbs' broke s1 p' s',
     _process_loop (logger p) e (_callbacks p) s = Some ((cbs', broke), s1) ∧
     Plugin_process e p s = Some (p', p_active p', s') ∧
     invocations (trace s') = invocations (trace s1) ∧
     _pluginName p' = _pluginName p ∧ _callbacks p' = cbs' ∧
     p_active p' = (if broke then false else p_active p) ∧
     if p_active p' then
       _lastEventId p' = Some (event_id e) ∧
       _backlog p' !! event_id e = None ∧
       (∀ k, k ≠ event_id e →
             is_Some (_backlog p !! k) → is_Some (_backlog p' !! k)) ∧
       (∀ k, k ≠ event_id e → _backlog p' !! k ≠ _backlog p !! k →
             ∃ last, _lastEventId p = Some last ∧ last + 1 ≤ k ≤ event_id e - 1)
     else _lastEventId p' = _lastEventId p ∧ _backlog p' = _backlog p).
Proof.
  destruct (_process_loop_spec (logger p) e (_callbacks p) s)
    as (cbs' & broke & s1 & tr & Hloop & Htr & _).
  set (p1 := with_callbacks cbs' (if broke then false else p_active p) p).
  assert (Hdisp : Plugin__process e p s = Some (p1, p_active p1, s1)).
  { unfold Plugin__process, bind. rewrite Hloop. done. }
  assert (Hnew : _backlog p !! event_id e = None →
            ∃ p' s',
              (r <- Plugin__process e p ;;
               if r.2 then
                 p' <- _updateLastEventId e r.1 ;;
                 ret (p', p_active p')
               else ret (r.1, p_active r.1)) s
              = Some (p', p_active p', s') ∧
              invocations (trace s') = invocations (trace s1) ∧
              _pluginName p' = _pluginName p ∧ _callbacks p' = cbs' ∧
              p_active p' = (if broke then false else p_active p) ∧
              if p_active p' then
                _lastEventId p' = Some (event_id e) ∧
                _backlog p' !! event_id e = None ∧
                (∀ k, k ≠ event_id e →
                      is_Some (_backlog p !! k) → is_Some (_backlog p' !! k)) ∧
                (∀ k, k ≠ event_id e → _backlog p' !! k ≠ _backlog p !! k →
                      ∃ last, _lastEventId p = Some last ∧
                              last + 1 ≤ k ≤ event_id e - 1)
              else _lastEventId p' = _lastEventId p ∧ _backlog p' = _backlog p).
  { intros Hnin. unfold bind at 1. rewrite Hdisp. cbn [fst snd].
    destruct (p_active p1) eqn:Hact1.
    - destruct (_updateLastEventId_frame e p1 s1)
        as (p2 & s2 & Hupd & Hl2 & Ha2 & Hc2 & Hn2 & Hinv2 & Hkeep & Hchg).
      unfold bind. rewrite Hupd. unfold ret.
      exists p2, s2. split; [done|]. split; [done|].
      split; [by rewrite Hn2|]. split; [by rewrite Hc2|].
      split; [by rewrite Ha2|]. rewrite Ha2, Hact1.
      split; [done|]. split.
      + destruct (decide (_backlog p2 !! event_id e = _backlog p1 !! event_id e))
          as [Heq|Hne]; [by rewrite Heq|].
        apply Hchg in Hne as (last & _ & ?). lia.
      + split; [intros k _; apply Hkeep|intros k _; apply Hchg].
    - unfold ret. exists p1, s1. rewrite Hact1. done. }
  unfold Plugin_process.
  destruct (decide (is_Some (_backlog p !! event_id e))) as [[v Hin]|Hnin].
  - right. split; [left; by eexists|].
    exists cbs', broke, s1. unfold bind at 1. rewrite Hdisp. cbn [fst snd].
    destruct (p_active p1) eqn:Hact1.
    + unfold bind at 1. unfold emit at 1. unfold bind at 1.
      unfold dict_del. change (_backlog p1) with (_backlog p). rewrite Hin.
      unfold ret at 1.
      set (s2 := mkSt (world s1) _).
      set (p2 := with_cursor _ _ p1).
      destruct (_updateLastEventId_frame e p2 s2)
        as (p3 & s3 & Hupd & Hl3 & Ha3 & Hc3 & Hn3 & Hinv3 & Hkeep & Hchg).
      unfold bind. rewrite Hupd. unfold ret.
      exists p3, s3. split; [done|]. split; [done|].
      split.
      { rewrite Hinv3. subst s2. simpl. rewrite invocations_app. simpl.
        by rewrite app_nil_r. }
      split; [by rewrite Hn3|]. split; [by rewrite Hc3|].
      split; [by rewrite Ha3|]. rewrite Ha3. change (p_active p2) with (p_active p1).
      rewrite Hact1. split; [done|]. split.
      * destruct (decide (_backlog p3 !! event_id e = _backlog p2 !! event_id e))
          as [Heq|Hne].
        -- rewrite Heq. subst p2. simpl. apply lookup_delete_eq.
        -- apply Hchg in Hne as (last & _ & ?). lia.
      * split.
        -- intros k Hk Hsome. apply Hkeep. subst p2. simpl.
           by rewrite lookup_delete_ne.
        -- intros k Hk Hne. apply Hchg. subst p2. simpl.
           by rewrite lookup_delete_ne.
    + unfold ret. exists p1, s1. rewrite Hact1. done.
  - assert (Hnone : _backlog p !! event_id e = None).
    { destruct (_backlog p !! event_id e) eqn:E; [|done].
      destruct Hnin. by eexists. }
    destruct (_lastEventId p) as [l|] eqn:Hl.
    + case_bool_decide as Hold.
      * left. split; [done|]. exists l. split; [done|]. split; [done|].
        unfold bind, emit, ret. done.
      * right. split; [right; intros l' [= <-]; lia|].
        destruct (Hnew Hnone) as (p' & s' & Hrun & Hrest).
        by exists cbs', broke, s1, p', s'.
    + right. split; [right; intros l' [=]|].
      destruct (Hnew Hnone) as (p' & s' & Hrun & Hrest).
      by exists cbs', broke, s1, p', s'.
Qed.



(** X2: an event is handled at most once in a row.  After a call of
    [Plugin.process] that left the plugin active, the same event offered
    again is dropped as too old: no callback is invoked, the plugin is
    left as it is, and one debug record is written. *)
Theorem Plugin_process_again_is_dropped (e : Event) (p p1 : Plugin World Event)
    (s s1 : St World) :
  Plugin_process e p s = Some (p1, true, s1) →
  ∃ l, _lastEventId p1 = Some l ∧ event_id e ≤ l ∧
       ∀ s2 : St World,
         Plugin_process e p1 s2
         = Some (p1, true,
                 mkSt (world s2)
                   (trace s2 ++ [Log (logger p1) DEBUG (EventTooOld (event_id e) l)])).
Proof.
  intros Hfirst.
  assert (∃ l, _lastEventId p1 = Some l ∧ event_id e ≤ l ∧
               _backlog p1 !! event_id e = None ∧ p_active p1 = true)
    as (l & Hl & Hle & Hnin & Hact).
  { destruct (Plugin_process_cases e p s)
      as [(Hnin & l & Hl & Hle & Hrun)
         |(_ & cbs' & broke & s0 & p' & s' & _ & Hrun & _ & _ & _ & _ & Hpost)];
      rewrite Hrun in Hfirst.
    - injection Hfirst as -> Hact _. by exists l.
    - injection Hfirst as -> Hact _. rewrite Hact in Hpost.
      destruct Hpost as (Hl & Hnin & _). exists (event_id e).
      split; [done|]. split; [lia|done]. }
  exists l. split; [done|]. split; [done|]. intros s2.
  destruct (Plugin_process_cases e p1 s2)
    as [(_ & l' & Hl' & _ & Hrun)|([[v Hin]|Hnew] & _)].
  - rewrite Hl in Hl'. injection Hl' as <-. by rewrite Hrun, Hact.
  - congruence.
  - specialize (Hnew l Hl). lia.
Qed.




(** ** BatchPlugin.process (plugin.py) *)

Lemma filter_none {X} (P : X → Prop) `{∀ x, Decision (P x)} (l : list X) :
  Forall (λ x, ¬ P x) l → filter P l = [].
Proof. induction 1 as [|x l Hx _ IH]; [done|]. by rewrite filter_cons_False. Qed.




(** X6: one event at or below the cursor makes a batch plugin drop the
    whole list.  If no event of the list is a backlog id and some event
    of it is too old, [BatchPlugin.process] invokes no callback and
    leaves the plugin as it is, although the list may hold new events;
    it writes one debug record, which names the old events only. *)
Theorem batch_old_event_drops_list (events : list Event)
    (p : Plugin World (list Event)) (s : St World) (l : Z) (e : Event) :
  Forall (λ ev, _backlog p !! event_id ev = None) events →
  _lastEventId p = Some l →
  e ∈ events → event_id e ≤ l →
  BatchPlugin_process events p s
  = Some (p, p_active p,
          mkSt (world s)
            (trace s ++
             [Log (logger p) DEBUG
                (EventsTooOld
                   (event_id <$> filter (λ ev, event_id ev ≤ l) events) l)])).
Proof.
  intros Hnin Hl He Hold. unfold BatchPlugin_process.
  rewrite (filter_none (λ ev, is_Some (_backlog p !! event_id ev))).
  2:{ eapply Forall_impl; [exact Hnin|]. intros ev Hev [v Hv]. congruence. }
  rewrite Hl.
  assert (e ∈ filter (λ ev, event_id ev ≤ l) events) as Hin.
  { apply list_elem_of_filter. done. }
  destruct (filter (λ ev, event_id ev ≤ l) events) as [|e0 es] eqn:Hes.
  { by apply elem_of_nil in Hin. }
  unfold bind, emit, ret. done.
Qed.




(** The same loop raises as soon as an id comes a second time right
    after the first: the key is gone. *)
Lemma Batch_ack_backlog_repeated pre (e e' : Event) post :
  event_id e' = event_id e →
  ∀ (p : Plugin World (list Event)) (s : St World),
    Batch_ack_backlog (pre ++ e :: e' :: post) p s = None.
Proof.
  intros Hid. induction pre as [|e0 pre IH]; intros p s.
  - simpl app. destruct (_backlog p !! event_id e) as [v|] eqn:Hv.
    + destruct (Batch_ack_backlog_step e p s)
        as (p2 & s2 & Hstep & _ & _ & _ & _ & _ & Hgone & _); [by exists v|].
      rewrite Hstep. cbn [Batch_ack_backlog].
      unfold bind at 1, emit. unfold bind at 1, dict_del.
      by rewrite Hid, Hgone.
    + cbn [Batch_ack_backlog].
      unfold bind at 1, emit. unfold bind at 1, dict_del. by rewrite Hv.
  - cbn [app Batch_ack_backlog].
    unfold bind at 1, emit. unfold bind at 1.
    destruct (dict_del _ _ _) as [[b1 s1]|]; [|done].
    unfold bind at 1.
    destruct (_updateLastEventId _ _ _) as [[p1 s2]|]; [|done].
    apply IH.
Qed.


(** X28: when an event whose id is in the backlog comes twice in a row in
    the list and [BatchPlugin._process] returns True, [BatchPlugin.process]
    does not return: after the first of the two, [del self._backlog[...]]
    finds the id gone and raises KeyError (unless the loop was left by an
    exception before).  [_updateLastEventId] runs between the two and
    adds ids below the event's only. *)
Theorem BatchPlugin_process_repeated_id (pre : list Event) (e e' : Event)
    (post : list Event) (p : Plugin World (list Event)) (s : St World) :
  event_id e' = event_id e →
  is_Some (_backlog p !! event_id e) →
  (∃ p1 s1, BatchPlugin__process (pre ++ e :: e' :: post) p s
            = Some (p1, true, s1)) →
  BatchPlugin_process (pre ++ e :: e' :: post) p s = None.
Proof.
  intros Hid Hin (p1 & s1 & Hproc). unfold BatchPlugin_process.
  rewrite filter_app, !filter_cons.
  rewrite !decide_True by (by rewrite ?Hid).
  destruct (filter _ pre ++ e :: e' :: filter _ post) as [|e0 evs0] eqn:Hfilter.
  { by destruct (filter _ pre). }
  unfold bind at 1. rewrite Hproc. cbn [fst snd].
  unfold bind at 1. rewrite <- Hfilter.
  by rewrite (Batch_ack_backlog_repeated _ e e' _ Hid).
Qed.
End MorePluginProperties.

(** ** PluginCollection.getState, setState and process (pluginCollection.py) *)

Section MoreCollectionProperties.
Context {World : Type} `{Environment World}.

(** The loop of [getState] leaves the plugins alone and writes the
    state of each one under its name, in the order of the loop. *)
Lemma getState_loop {A} (plugins : gmap string (Plugin World A)) :
  ∀ keys (acc : gmap string PluginState) (s : St World),
    (∀ k, k ∈ keys → is_Some (plugins !! k)) →
    for_plugins
      (λ plugin stateData,
         ret (plugin, <[getName plugin := Plugin_getState plugin]> stateData))
      keys plugins acc s
    = Some ((plugins,
             foldl (λ a k, from_option
                             (λ p, <[getName p := Plugin_getState p]> a) a
                             (plugins !! k)) acc keys), s).
Proof.
  induction keys as [|k keys IH]; intros acc s Hin; [done|].
  destruct (Hin k) as [p Hp]; [by left|].
  cbn [for_plugins foldl]. rewrite Hp. unfold bind, ret at 1. cbn [fst snd].
  rewrite insert_id by done. rewrite IH; [done|].
  intros k' Hk'. apply Hin. by right.
Qed.

(** What that loop has written, name by name. *)
Lemma getState_fold_lookup {A} (plugins : gmap string (Plugin World A))
    (acc : gmap string PluginState) (keys : list string) :
  (∀ b1 b2 p1 p2, plugins !! b1 = Some p1 → plugins !! b2 = Some p2 →
                  getName p1 = getName p2 → b1 = b2) →
  let states :=
    foldl (λ a k, from_option (λ p, <[getName p := Plugin_getState p]> a) a
                    (plugins !! k)) acc keys in
  (∀ k p, k ∈ keys → plugins !! k = Some p →
          states !! getName p = Some (Plugin_getState p)) ∧
  (∀ n, (∀ k p, k ∈ keys → plugins !! k = Some p → getName p ≠ n) →
        states !! n = acc !! n).
Proof.
  intros Hinj. induction keys as [|k0 keys IH] using rev_ind; simpl.
  - split; [intros k p Hk; by apply elem_of_nil in Hk|done].
  - rewrite foldl_app. simpl. destruct IH as [IHin IHout]. split.
    + intros k p Hk Hp.
      destruct (plugins !! k0) as [p0|] eqn:Hp0; simpl.
      * destruct (decide (getName p0 = getName p)) as [Heq|Hne].
        -- assert (k0 = k) as -> by (by eapply Hinj).
           rewrite Hp in Hp0. injection Hp0 as ->. apply lookup_insert_eq.
        -- rewrite lookup_insert_ne by done. apply (IHin k); [|done].
           apply elem_of_app in Hk as [Hk|Hk]; [done|].
           apply list_elem_of_singleton in Hk as ->. congruence.
      * apply (IHin k); [|done].
        apply elem_of_app in Hk as [Hk|Hk]; [done|].
        apply list_elem_of_singleton in Hk as ->. congruence.
    + intros n Hfresh.
      destruct (plugins !! k0) as [p0|] eqn:Hp0; simpl.
      * rewrite lookup_insert_ne.
        -- apply IHout. intros k p Hk. apply Hfresh, elem_of_app. by left.
        -- apply (Hfresh k0); [|done]. apply elem_of_app. right. by left.
      * apply IHout. intros k p Hk. apply Hfresh, elem_of_app. by left.
Qed.

(** [getState], when the plugins have distinct names. *)
Lemma PluginCollection_getState_spec {A} (c : PluginCollection World A)
    (s : St World) :
  (∀ b1 b2 p1 p2, _plugins c !! b1 = Some p1 → _plugins c !! b2 = Some p2 →
                  getName p1 = getName p2 → b1 = b2) →
  ∃ states,
    PluginCollection_getState c s
    = Some (mkCollection (path c) (_plugins c) states, states, s) ∧
    (∀ b p, _plugins c !! b = Some p →
            states !! getName p = Some (Plugin_getState p)) ∧
    (∀ n, (∀ b p, _plugins c !! b = Some p → getName p ≠ n) →
          states !! n = _stateData c !! n).
Proof.
  intros Hinj.
  destruct (getState_fold_lookup (_plugins c) (_stateData c)
              (sorted_keys (_plugins c)) Hinj) as [Hhas Hother].
  eexists. split; [|split].
  - unfold PluginCollection_getState, bind.
    rewrite getState_loop; [done|].
    intros k Hk. by apply elem_of_sorted_keys.
  - intros b p Hp. apply (Hhas b); [|done].
    apply elem_of_sorted_keys. by exists p.
  - intros n Hfresh. apply Hother. intros k p _. apply Hfresh.
Qed.

(** [setState] with a mapping, plugin by plugin. *)
Lemma PluginCollection_setState_map {A} (states : gmap string PluginState)
    (c : PluginCollection World A) (s : St World) :
  ∃ plugins',
    PluginCollection_setState (CStateMap states) c s
    = Some (mkCollection (path c) plugins' states, s) ∧
    (∀ k, _plugins c !! k = None → plugins' !! k = None) ∧
    (∀ k p, _plugins c !! k = Some p →
            plugins' !! k
            = Some (if state_truthy (states !! getName p)
                    then from_option (λ st, Plugin_setState st p) p
                           (states !! getName p)
                    else p)).
Proof.
  unfold PluginCollection_setState.
  set (f := λ p : Plugin World A,
         if state_truthy (states !! getName p)
         then from_option (λ st, Plugin_setState st p) p (states !! getName p)
         else p).
  match goal with
  | |- context [for_plugins ?body _ _ _] =>
    destruct (for_all_plugins_rule body (λ _, True) (λ p p', p' = f p)
                (λ _, True) eq (_plugins c) tt s)
      as (plugins' & [] & s' & Hrun & _ & <- & Hout & Hvis); [|done..|]
  end.
  { intros p a s0 _ _. subst f. simpl.
    destruct (state_truthy (states !! getName p)); unfold ret;
      by eexists _, _, _. }
  exists plugins'. unfold bind at 1. rewrite Hrun. unfold ret at 1.
  split; [done|]. split; [done|].
  intros k p Hp. by destruct (Hvis k p Hp) as (p' & -> & ->).
Qed.

(** X8: what [getState] returns restores the plugins.  If the plugins
    of a collection have distinct names, [getState] leaves them as they
    are and returns a mapping that holds the state of each under its
    name, beside the entries the state data had for other names;
    [setState] with that mapping on a collection with plugins of the
    same names (the plugins as loaded after a restart, say) gives every
    plugin the cursor and the backlog of its namesake and changes
    nothing else of it. *)
Theorem getState_setState_restores {A} (c c2 : PluginCollection World A)
    (s s2 : St World) :
  (∀ b1 b2 p1 p2, _plugins c !! b1 = Some p1 → _plugins c !! b2 = Some p2 →
                  getName p1 = getName p2 → b1 = b2) →
  (∀ b, option_Forall2 (λ p p2, getName p2 = getName p)
          (_plugins c !! b) (_plugins c2 !! b)) →
  ∃ states c2',
    PluginCollection_getState c s
    = Some (mkCollection (path c) (_plugins c) states, states, s) ∧
    (∀ b p, _plugins c !! b = Some p →
            states !! getName p = Some (Plugin_getState p)) ∧
    (∀ n, (∀ b p, _plugins c !! b = Some p → getName p ≠ n) →
          states !! n = _stateData c !! n) ∧
    PluginCollection_setState (CStateMap states) c2 s2 = Some (c2', s2) ∧
    path c2' = path c2 ∧ _stateData c2' = states ∧
    ∀ b, option_Forall2
           (λ p p2', ∃ p2, _plugins c2 !! b = Some p2 ∧
                           p2' = with_cursor (_lastEventId p) (_backlog p) p2)
           (_plugins c !! b) (_plugins c2' !! b).
Proof.
  intros Hinj Hsame.
  destruct (PluginCollection_getState_spec c s Hinj)
    as (states & Hget & Hhas & Hother).
  destruct (PluginCollection_setState_map states c2 s2)
    as (plugins' & Hrun & Hout & Hvis).
  exists states, (mkCollection (path c2) plugins' states).
  repeat (split; [done|]). simpl.
  intros b. specialize (Hsame b).
  destruct (_plugins c !! b) as [p|] eqn:Hp;
    destruct (_plugins c2 !! b) as [p2|] eqn:Hp2; inversion Hsame; subst.
  - rewrite (Hvis b p2 Hp2). constructor. exists p2. split; [done|].
    match goal with Hn : getName p2 = getName p |- _ => rewrite Hn end.
    rewrite (Hhas b p Hp). done.
  - rewrite Hout by done. constructor.
Qed.

#[local] Instance invokes_active_only_refl event
    (plugins : gmap string (Plugin World Event)) :
  Reflexive (invokes_active_only event plugins).
Proof. intros s. exists []. by rewrite app_nil_r. Qed.

#[local] Instance invokes_active_only_trans event
    (plugins : gmap string (Plugin World Event)) :
  Transitive (invokes_active_only event plugins).
Proof.
  intros s1 s2 s3 (i1 & H1 & F1) (i2 & H2 & F2). exists (i1 ++ i2).
  split; [by rewrite H2, H1, app_assoc|]. by apply Forall_app.
Qed.







End MoreCollectionProperties.

(** ** Engine._getNewEvents (engine.py) *)

Section MoreEngineProperties.
Context {World : Type} `{Environment World}.

(** The retry loop, when an attempt before the end of the range
    succeeds after the attempts before it failed. *)
Lemma find_attempts_succeed {A} (eng : Engine World A) (nextEventId : Z)
    (events : list Event) :
  ∀ (failures : list FindOutcome) (n : nat) (i : Z) (s : St World),
    Forall is_failure failures →
    find_outcomes (nextEventId - 1) (maxEventBatchSize eng)
      (S (length failures)) (world s) = failures ++ [Found events] →
    (length failures < n)%nat →
    i + Z.of_nat n = _maxConnRetries eng →
    ∃ s',
      find_attempts eng nextEventId (seqZ i (Z.of_nat n)) s = Some (events, s') ∧
      trace s' = trace s ++
        imap (λ j o, Log "engine" WARNING
                       (UnableToConnect (i + Z.of_nat j) (_maxConnRetries eng)
                          (failure_message o))) failures
        ++ got_events_log events.
Proof.
  induction failures as [|o failures IH]; intros n i s Hfail Hout Hn Hi.
  - rewrite seqZ_cons by lia. cbn [find_attempts find_outcomes] in *.
    injection Hout as Hout. unfold bind at 1. unfold in_world.
    destruct (sg_find (nextEventId - 1) (maxEventBatchSize eng) (world s))
      as [o w]. simpl in Hout. subst o.
    destruct events as [|first rest]; unfold bind, emit, ret; eexists;
      (split; [done|]); simpl; by rewrite ?app_nil_r.
  - rewrite seqZ_cons by lia.
    replace (Z.pred (Z.of_nat n)) with (Z.of_nat (pred n)) by lia.
    apply Forall_cons in Hfail as [Hfail1 Hfail].
    cbn [length find_outcomes] in Hout. cbn [app] in Hout.
    injection Hout as Ho Hout.
    rewrite find_attempts_failed by (by rewrite Ho).
    rewrite Ho. unfold bind.
    rewrite _writeConnectionAttemptLog_before by (cbn [length] in Hn; lia).
    destruct (IH (pred n) (Z.succ i)
                (mkSt (sg_find (nextEventId - 1) (maxEventBatchSize eng)
                         (world s)).2
                   (trace s ++
                    [Log "engine" WARNING
                       (UnableToConnect i (_maxConnRetries eng)
                          (failure_message o))])))
      as (s' & Hrun & Htr); [done|done|cbn [length] in Hn; lia|lia|].
    simpl in *. rewrite Hrun. exists s'. split; [done|].
    rewrite Htr, <-app_assoc. simpl. rewrite Z.add_0_r. do 3 f_equal.
    apply imap_ext. intros j o' _. simpl. do 2 f_equal. lia.
Qed.

(** X10: a fetch that succeeds before the retries are used up.  When
    the first attempts of [_getNewEvents] fail, fewer of them than
    [maxConnRetries], and the next one succeeds, the fetch returns the
    events of that answer; each failed attempt is logged at warning and
    none at error, the daemon does not sleep, and a debug record is
    written if and only if the answer holds events. *)
Theorem fetch_succeeds_after_failures {A} (eng : Engine World A) (s : St World) :
  ∃ cs' ids s0,
    collections_nextIds (_pluginCollections eng) s = Some (cs', ids, s0) ∧
    ∀ nextEventId failures events,
      foldl keep_least None ids = Some nextEventId →
      Forall is_failure failures →
      Z.of_nat (length failures) < _maxConnRetries eng →
      find_outcomes (nextEventId - 1) (maxEventBatchSize eng)
        (S (length failures)) (world s0) = failures ++ [Found events] →
      ∃ s',
        _getNewEvents eng s = Some (with_collections cs' eng, events, s') ∧
        trace s' = trace s0 ++ retried_log (_maxConnRetries eng) failures
                            ++ got_events_log events.
Proof.
  destruct (collections_nextIds_prunes (_pluginCollections eng) s)
    as (cs' & ids & s0 & Hrun & _ & _).
  exists cs', ids, s0. split; [done|].
  intros nextEventId failures events Hnext Hfail Hlen Hout.
  unfold _getNewEvents. unfold bind at 1. rewrite Hrun. cbn [fst snd].
  rewrite Hnext.
  destruct (find_attempts_succeed (with_collections cs' eng) nextEventId events
              failures (Z.to_nat (_maxConnRetries eng)) 0 s0)
    as (s' & Hfind & Htr); [done|done|lia|simpl; lia|].
  rewrite Z2Nat.id in Hfind by lia.
  exists s'. unfold bind. simpl. rewrite Hfind. unfold ret. split; [done|].
  rewrite Htr. unfold retried_log. simpl. done.
Qed.

(** X11: an engine all of whose plugins are inactive fetches nothing.
    [_getNewEvents] returns the empty batch and touches neither the
    engine nor the world: no clock is read, no upstream call is made,
    nothing is logged. *)
Theorem no_fetch_when_all_inactive {A} (eng : Engine World A) (s : St World) :
  Forall (λ c, ∀ b p, _plugins c !! b = Some p → p_active p = false)
    (_pluginCollections eng) →
  _getNewEvents eng s = Some (eng, [], s).
Proof.
  intros Hoff.
  assert (Hcoll : ∀ c : PluginCollection World A,
            (∀ b p, _plugins c !! b = Some p → p_active p = false) →
            PluginCollection_getNextUnprocessedEventId c s = Some (c, None, s)).
  { intros c Hc. unfold PluginCollection_getNextUnprocessedEventId.
    match goal with
    | |- context [for_plugins ?body _ _ _] =>
      destruct (for_all_plugins_rule body (λ p, p_active p = false) eq
                  (λ a, a = None) eq (_plugins c) None s)
        as (plugins' & r & s' & Hrun & -> & <- & Hout & Hvis); [|done..|]
    end.
    { intros p a s0 Hp ->. rewrite Hp. simpl. unfold ret. by eexists _, _, _. }
    unfold bind at 1. rewrite Hrun. unfold ret. simpl.
    assert (plugins' = _plugins c) as ->.
    { apply map_eq. intros b. destruct (_plugins c !! b) as [p|] eqn:Hp.
      - by destruct (Hvis b p Hp) as (p' & -> & <-).
      - by apply Hout. }
    by destruct c. }
  assert (Hall : collections_nextIds (_pluginCollections eng) s
                 = Some (_pluginCollections eng,
                         replicate (length (_pluginCollections eng)) None, s)).
  { induction Hoff as [|c cs Hc _ IH]; [done|].
    cbn [collections_nextIds]. unfold bind at 1. rewrite (Hcoll c Hc).
    unfold bind at 1. rewrite IH. done. }
  unfold _getNewEvents, bind. rewrite Hall. cbn [fst snd].
  assert (foldl keep_least None
            (replicate (length (_pluginCollections eng)) None) = None) as ->.
  { clear. induction (length (_pluginCollections eng)) as [|n IH]; [done|].
    exact IH. }
  unfold ret. by destruct eng.
Qed.

End MoreEngineProperties.

(** ** Loading and reloading (plugin.py, pluginCollection.py) *)

(** *** Paths *)

Lemma str_app_cons (x : Ascii.ascii) (s t : string) :
  String x s +:+ t = String x (s +:+ t).
Proof. reflexivity. Qed.

Lemma str_app_assoc (s t u : string) : (s +:+ t) +:+ u = s +:+ (t +:+ u).
Proof.
  induction s as [|x s IH]; [reflexivity|]. by rewrite !str_app_cons, IH.
Qed.

Lemma str_endswith_app (suffix s : string) :
  str_endswith suffix s = true → ∃ r, s = r +:+ suffix.
Proof.
  induction s as [|x s IH]; simpl.
  - case_decide as Heq; [|done]. intros _. exists "". by subst suffix.
  - case_decide as Heq.
    + intros _. exists "". by subst suffix.
    + intros (r & ->)%IH. by exists (String x r).
Qed.

Lemma str_startswith_char (c : Ascii.ascii) (s : string) :
  str_startswith (String c "") s = true ↔ ∃ rest, s = String c rest.
Proof.
  unfold str_startswith. destruct s as [|x rest]; simpl.
  - split; [done|]. by intros [? ?].
  - destruct (Ascii.ascii_dec c x) as [->|Hne].
    + split; [by exists rest|]. intros _. by destruct rest.
    + split; [done|]. intros [? [= ? ?]]. done.
Qed.

Lemma rsplit_at_app (c : Ascii.ascii) (x y : string) :
  rsplit_at c y = None → rsplit_at c (x +:+ String c y) = Some (x, y).
Proof.
  intros Hy. induction x as [|a x IH].
  - change ("" +:+ String c y) with (String c y). simpl. rewrite Hy.
    by rewrite decide_True.
  - rewrite str_app_cons. simpl. by rewrite IH.
Qed.

Lemma rsplit_at_cons_None (c a : Ascii.ascii) (s : string) :
  rsplit_at c (String a s) = None → a ≠ c ∧ rsplit_at c s = None.
Proof.
  simpl. destruct (rsplit_at c s) as [[??]|]; [done|].
  case_decide; [done|]. by intros _.
Qed.

(** A name as [os.listdir] gives it, without a slash, is the basename
    of the path it is joined into. *)
Lemma os_path_basename_join (a b : string) :
  rsplit_at "/" b = None → os_path_basename (os_path_join a b) = b.
Proof.
  intros Hb. unfold os_path_join.
  destruct (str_startswith "/" b) eqn:Hstart.
  { apply str_startswith_char in Hstart as [rest ->].
    by apply rsplit_at_cons_None in Hb as [? _]. }
  assert (Hplain : os_path_basename b = b).
  { unfold os_path_basename. by rewrite Hb. }
  assert (Hslash : ∀ x, os_path_basename (x +:+ "/" +:+ b) = b).
  { intros x. unfold os_path_basename.
    change ("/" +:+ b) with (String "/" b). by rewrite rsplit_at_app. }
  case_decide; [done|].
  destruct (str_endswith "/" a) eqn:Hend; [|apply Hslash].
  apply str_endswith_app in Hend as [r ->]. rewrite str_app_assoc. apply Hslash.
Qed.

(** The name of the plugin in a file [r.py] that is not hidden is [r]. *)
Lemma splitext_root_py (b : string) :
  str_endswith ".py" b = true → str_startswith "." b = false →
  splitext_root b +:+ ".py" = b.
Proof.
  intros (r & ->)%str_endswith_app Hvisible. unfold splitext_root.
  change ".py" with (String "." "py") at 1 2.
  rewrite rsplit_at_app by reflexivity.
  destruct r as [|x r]; [done|]. simpl.
  case_bool_decide as Hdot; [|done]. subst x.
  rewrite str_app_cons in Hvisible. unfold str_startswith in Hvisible.
  simpl in Hvisible. by destruct (r +:+ ".py").
Qed.


Section LoaderProperties.
Context {World A : Type} `{Environment World} `{Disk World A}.
Variable settings : EngineSettings.

Lemma lbind_Some {X Y} (m : L World X) (k : X → L World Y) (s : LSt World) y s' :
  lbind m k s = Some (y, s') ↔ ∃ x s1, m s = Some (x, s1) ∧ k x s1 = Some (y, s').
Proof.
  unfold lbind. destruct (m s) as [[x s1]|]; [|naive_solver].
  split; [by exists x, s1|]. by intros (? & ? & [= <- <-] & ?).
Qed.

(** The callbacks a plugin has after the registrations [calls]. *)
Lemma foldl_registerCallback (calls : list (Registration World A)) :
  ∀ plugin : Plugin World A,
    foldl (Plugin_registerCallback settings) plugin calls
    = with_callbacks
        (_callbacks plugin ++ (Callback__init__ settings plugin <$> calls))
        (p_active plugin) plugin.
Proof.
  induction calls as [|r calls IH]; intros plugin; simpl.
  - rewrite app_nil_r. by destruct plugin.
  - rewrite IH. unfold Plugin_registerCallback, with_callbacks. simpl.
    by rewrite <-app_assoc.
Qed.

(** [Plugin.load], case by case: either the file is not newer than at
    the last load and nothing happens at all, or the plugin is reset
    and loaded from the file. *)
Lemma Plugin_load_cases (_path : string) (_mtime : option Z)
    (plugin plugin' : Plugin World A) (mtime' : option Z) (s s' : LSt World) :
  Plugin_load settings _path _mtime plugin s = Some ((plugin', mtime'), s') →
  ∃ mtime,
    os_path_getmtime _path (disk s) = Some mtime ∧
    (((∃ loaded, _mtime = Some loaded ∧ mtime ≤ loaded) ∧
      plugin' = plugin ∧ mtime' = _mtime ∧ s' = s)
     ∨
     ((_mtime = None ∨ ∃ loaded, _mtime = Some loaded ∧ loaded < mtime) ∧
      mtime' = Some mtime ∧
      disk s' = (exec_plugin (_pluginName plugin) _path (disk s)).2 ∧
      plugin'
      = match (exec_plugin (_pluginName plugin) _path (disk s)).1 with
        | ExecFailed | NoRegisterFunction => with_callbacks [] false plugin
        | Registered calls raised =>
          with_callbacks (Callback__init__ settings plugin <$> calls)
            (negb raised) plugin
        end)).
Proof.
  unfold Plugin_load. intros (mtime & s0 & Hmtime & Hrest)%lbind_Some.
  unfold try_disk in Hmtime.
  destruct (os_path_getmtime _path (disk s)) as [t|] eqn:Ht; [|done].
  injection Hmtime as -> <-. exists mtime. split; [done|].
  apply lbind_Some in Hrest as (stale & s1 & Hstale & Hrest).
  assert (Hreload : disk s1 = disk s →
            (if negb true then lret (plugin, _mtime)
             else
               let plugin0 := with_callbacks [] true plugin in
               outcome <- in_disk (exec_plugin (_pluginName plugin0) _path) ;;
               match outcome with
               | ExecFailed =>
                 log_startup (logger plugin0) ERROR (CouldNotLoad _path) ;;
                 lret (with_callbacks [] false plugin0, Some mtime)
               | NoRegisterFunction =>
                 log_startup engine_log CRITICAL (NoRegisterCallbacks _path) ;;
                 lret (with_callbacks [] false plugin0, Some mtime)
               | Registered calls raised =>
                 let plugin1 :=
                   foldl (Plugin_registerCallback settings) plugin0 calls in
                 if raised then
                   log_startup engine_log CRITICAL (ErrorRunningRegister _path) ;;
                   lret (with_callbacks (_callbacks plugin1) false plugin1,
                         Some mtime)
                 else lret (plugin1, Some mtime)
               end)%loader s1 = Some ((plugin', mtime'), s') →
            mtime' = Some mtime ∧
            disk s' = (exec_plugin (_pluginName plugin) _path (disk s)).2 ∧
            plugin'
            = match (exec_plugin (_pluginName plugin) _path (disk s)).1 with
              | ExecFailed | NoRegisterFunction => with_callbacks [] false plugin
              | Registered calls raised =>
                with_callbacks (Callback__init__ settings plugin <$> calls)
                  (negb raised) plugin
              end).
  { intros Hdisk. cbn [negb].
    intros (outcome & s2 & Hexec & Hout)%lbind_Some.
    unfold in_disk in Hexec.
    cbn [with_callbacks _pluginName] in Hexec. rewrite Hdisk in Hexec.
    destruct (exec_plugin (_pluginName plugin) _path (disk s)) as [o w].
    injection Hexec as <- <-. cbn [fst snd].
    destruct o as [| |calls raised].
    - unfold lbind, log_startup, lret in Hout. by injection Hout as <- <- <-.
    - unfold lbind, log_startup, lret in Hout. by injection Hout as <- <- <-.
    - rewrite foldl_registerCallback in Hout. destruct raised.
      + unfold lbind, log_startup, lret in Hout. by injection Hout as <- <- <-.
      + unfold lret in Hout. by injection Hout as <- <- <-. }
  destruct _mtime as [loaded|].
  - case_bool_decide as Hnewer.
    + apply lbind_Some in Hstale as ([] & s2 & Hlog & Hret).
      unfold log_startup in Hlog. injection Hlog as <-.
      unfold lret in Hret. injection Hret as <- <-.
      right. split; [right; by exists loaded|]. by apply Hreload.
    + unfold lret in Hstale. injection Hstale as <- <-. cbn [negb] in Hrest.
      unfold lret in Hrest. injection Hrest as <- <- <-.
      left. split; [exists loaded; split; [done|lia]|done].
  - apply lbind_Some in Hstale as ([] & s2 & Hlog & Hret).
    unfold log_startup in Hlog. injection Hlog as <-.
    unfold lret in Hret. injection Hret as <- <-.
    right. split; [by left|]. by apply Hreload.
Qed.

Lemma Plugin_load_same_state (_path : string) (_mtime : option Z)
    (plugin plugin' : Plugin World A) (mtime' : option Z) (s s' : LSt World) :
  Plugin_load settings _path _mtime plugin s = Some ((plugin', mtime'), s') →
  same_state plugin plugin'.
Proof.
  intros (mtime & _ & [(_ & -> & _)|(_ & _ & _ & ->)])%Plugin_load_cases;
    [done|].
  by destruct (exec_plugin (_pluginName plugin) _path (disk s)).1.
Qed.

(** X12: [Plugin.load] never touches the name, the cursor or the
    backlog of a plugin.  When the file is not newer than it was at the
    last load, the call does nothing at all: the plugin (a deactivated
    one included), its [_mtime], the world and the log are as before. *)
Theorem Plugin_load_keeps_state (_path : string) (_mtime : option Z)
    (plugin plugin' : Plugin World A) (mtime' : option Z) (s s' : LSt World) :
  Plugin_load settings _path _mtime plugin s = Some ((plugin', mtime'), s') →
  same_state plugin plugin' ∧
  ∀ loaded mtime,
    _mtime = Some loaded → os_path_getmtime _path (disk s) = Some mtime →
    mtime ≤ loaded →
    plugin' = plugin ∧ mtime' = _mtime ∧ s' = s.
Proof.
  intros Hload. split; [by eapply Plugin_load_same_state|].
  intros loaded mtime -> Hmtime Hle.
  apply Plugin_load_cases in Hload
    as (mtime0 & Hmtime0 & [(_ & -> & -> & ->)|([Hnone|Hnewer] & _)]);
    [done|done|].
  destruct Hnewer as (loaded0 & [= <-] & Hlt).
  rewrite Hmtime in Hmtime0. injection Hmtime0 as <-. lia.
Qed.

(** X13: a plugin that is loaded for the first time, or whose file is
    newer than at the last load, starts afresh.  Its [_mtime] is that
    of the file; the callbacks it had, and any deactivation of them or
    of the plugin, are gone; it has one active callback for each call
    of [registerCallback] that was completed, in this order, whose
    logger is named after the plugin and the function; and it is active
    if and only if the file could be executed and its
    [registerCallbacks] was found and returned. *)
Theorem Plugin_load_resets (_path : string) (_mtime : option Z)
    (plugin plugin' : Plugin World A) (mtime' : option Z) (mtime : Z)
    (s s' : LSt World) :
  Plugin_load settings _path _mtime plugin s = Some ((plugin', mtime'), s') →
  os_path_getmtime _path (disk s) = Some mtime →
  (_mtime = None ∨ ∃ loaded, _mtime = Some loaded ∧ loaded < mtime) →
  let outcome := (exec_plugin (_pluginName plugin) _path (disk s)).1 in
  mtime' = Some mtime ∧
  (p_active plugin' = true ↔ ∃ calls, outcome = Registered calls false) ∧
  _callbacks plugin'
  = match outcome with
    | Registered calls _ =>
      (λ r, mkCallback (reg_name r)
              ("plugin." +:+ _pluginName plugin +:+ "." +:+ reg_name r)
              settings (reg_matchEvents r) (reg_stopOnError r) true
              (reg_callback r)) <$> calls
    | _ => []
    end.
Proof.
  intros Hload Hmtime Hstale outcome.
  apply Plugin_load_cases in Hload
    as (mtime0 & Hmtime0 & [((loaded & -> & Hle) & _)|(_ & -> & _ & ->)]).
  { rewrite Hmtime in Hmtime0. injection Hmtime0 as <-.
    destruct Hstale as [?|(loaded0 & [= <-] & ?)]; [done|lia]. }
  rewrite Hmtime in Hmtime0. injection Hmtime0 as <-.
  split; [done|]. subst outcome.
  destruct (exec_plugin (_pluginName plugin) _path (disk s)).1
    as [| |calls raised]; simpl.
  - split; [|done]. split; [done|]. by intros [? ?].
  - split; [|done]. split; [done|]. by intros [? ?].
  - split; [|done]. destruct raised; simpl.
    + split; [done|]. by intros [? ?].
    + split; [by exists calls|done].
Qed.

(** The loop of [PluginCollection.load]: which basenames it fills in,
    and with which plugins. *)
Lemma load_loop_spec (collection_path : string)
    (old : gmap string (Plugin World A)) (listing : list string) :
  ∀ (plugins newPlugins new' : gmap string (Plugin World A))
    (mtimes mtimes' : gmap string Z) (s s' : LSt World),
    load_loop settings collection_path listing plugins newPlugins mtimes s
    = Some ((new', mtimes'), s') →
    (∀ b, option_Forall2 same_state (old !! b) (plugins !! b)) →
    (∀ b p', newPlugins !! b = Some p' → kept_or_new collection_path old b p') →
    (∀ b, is_Some (new' !! b) ↔
          is_Some (newPlugins !! b) ∨ (b ∈ listing ∧ is_plugin_file b)) ∧
    (∀ b p', new' !! b = Some p' → kept_or_new collection_path old b p').
Proof.
  induction listing as [|b0 listing IH];
    intros plugins newPlugins new' mtimes mtimes' s s' Hrun Hold Hnew.
  - simpl in Hrun. unfold lret in Hrun. injection Hrun as <- _ _.
    split; [|done]. intros b. split; [by left|].
    intros [?|[Hb _]]; [done|]. by apply elem_of_nil in Hb.
  - cbn [load_loop] in Hrun.
    destruct (negb (str_endswith ".py" b0) || str_startswith "." b0) eqn:Hskip.
    { destruct (IH _ _ _ _ _ _ _ Hrun Hold Hnew) as [Hkeys Hkept].
      split; [|done]. intros b. rewrite Hkeys. split.
      - intros [?|[Hb Hfile]]; [by left|]. right. split; [by right|done].
      - intros [?|[Hb Hfile]]; [by left|].
        apply elem_of_cons in Hb as [->|Hb]; [|by right].
        destruct Hfile as [Hpy Hdot]. by rewrite Hpy, Hdot in Hskip. }
    assert (Hfile0 : is_plugin_file b0).
    { unfold is_plugin_file.
      by destruct (str_endswith ".py" b0), (str_startswith "." b0). }
    assert (Hkeys_step : ∀ (p1 : Plugin World A) (keys : Prop) b,
              (keys ↔ is_Some (<[b0 := p1]> newPlugins !! b) ∨
                      (b ∈ listing ∧ is_plugin_file b)) →
              (keys ↔ is_Some (newPlugins !! b) ∨
                      (b ∈ b0 :: listing ∧ is_plugin_file b))).
    { intros p1 keys b ->. destruct (decide (b = b0)) as [->|Hne].
      - rewrite lookup_insert_eq. split; [|by left].
        intros _. right. split; [by left|done].
      - rewrite lookup_insert_ne by done. rewrite elem_of_cons. naive_solver. }
    destruct (plugins !! b0) as [p|] eqn:Hp.
    + apply lbind_Some in Hrun as ([p1 m1] & s1 & Hload & Hrun).
      apply Plugin_load_same_state in Hload as Hsame. cbn [fst snd] in Hrun.
      assert (∃ p0, old !! b0 = Some p0 ∧ same_state p0 p) as (p0 & Hp0 & Hsame0).
      { specialize (Hold b0). rewrite Hp in Hold.
        inversion Hold as [p0 ? Hs|]; subst. by exists p0. }
      assert (same_state p0 p1) as Hsame1.
      { destruct Hsame as (Hn & Hl & Hb), Hsame0 as (Hn0 & Hl0 & Hb0).
        unfold same_state. by rewrite Hn, Hl, Hb. }
      destruct (IH _ _ _ _ _ _ _ Hrun) as [Hkeys Hkept].
      * intros b. destruct (decide (b = b0)) as [->|Hne].
        -- rewrite lookup_insert_eq, Hp0. by constructor.
        -- rewrite lookup_insert_ne by done. apply Hold.
      * intros b p'. destruct (decide (b = b0)) as [->|Hne].
        -- rewrite lookup_insert_eq. intros [= <-].
           unfold kept_or_new. by rewrite Hp0.
        -- rewrite lookup_insert_ne by done. apply Hnew.
      * split; [|done]. intros b. by eapply Hkeys_step.
    + apply lbind_Some in Hrun as (p & s0 & Hinit & Hrun).
      apply lbind_Some in Hrun as ([p1 m1] & s1 & Hload & Hrun).
      apply Plugin_load_same_state in Hload as (Hn1 & Hl1 & Hb1).
      cbn [fst snd] in Hrun.
      unfold get_plugin, Plugin__init__ in Hinit.
      apply lbind_Some in Hinit as (isfile & s2 & _ & Hinit).
      destruct isfile; [|done]. unfold lret in Hinit. simpl in Hinit.
      injection Hinit as <- _.
      assert (old !! b0 = None) as Hfresh.
      { specialize (Hold b0). rewrite Hp in Hold. by inversion Hold. }
      destruct (IH _ _ _ _ _ _ _ Hrun) as [Hkeys Hkept]; [done| |].
      * intros b p'. destruct (decide (b = b0)) as [->|Hne].
        -- rewrite lookup_insert_eq. intros [= <-].
           unfold kept_or_new. by rewrite Hfresh.
        -- rewrite lookup_insert_ne by done. apply Hnew.
      * split; [|done]. intros b. by eapply Hkeys_step.
Qed.

(** X14: what [PluginCollection.load] leaves, when it returns.  Path
    and state data are as before.  The collection has a plugin for
    exactly the names of the directory listing that end in ".py" and do
    not begin with a dot: plugins whose file is gone are dropped.  A
    plugin that was in the collection before has kept its name, its
    cursor and its backlog through the reload; a plugin that was not is
    new, named after its file, with no cursor and an empty backlog. *)
Theorem PluginCollection_load_spec (c c' : PluginCollection World A)
    (mtimes mtimes' : gmap string Z) (s s' : LSt World) :
  PluginCollection_load settings c mtimes s = Some ((c', mtimes'), s') →
  ∃ listing,
    os_listdir (path c) (disk s) = Some listing ∧
    path c' = path c ∧ _stateData c' = _stateData c ∧
    (∀ b, is_Some (_plugins c' !! b) ↔ b ∈ listing ∧ is_plugin_file b) ∧
    (∀ b p', _plugins c' !! b = Some p' →
             kept_or_new (path c) (_plugins c) b p') ∧
    (∀ b, is_Some (mtimes' !! b) → is_Some (_plugins c' !! b)).
Proof.
  unfold PluginCollection_load.
  intros (listing & s0 & Hlist & Hrun)%lbind_Some.
  unfold try_disk in Hlist.
  destruct (os_listdir (path c) (disk s)) as [l|] eqn:Hl; [|done].
  injection Hlist as -> <-.
  apply lbind_Some in Hrun as ([new' m'] & s1 & Hloop & Hret).
  unfold lret in Hret. injection Hret as <- <- _. cbn [fst snd].
  exists listing. split; [done|]. split; [done|]. split; [done|].
  destruct (load_loop_spec (path c) (_plugins c) listing _ _ _ _ _ _ _ Hloop)
    as [Hkeys Hkept].
  { intros b. destruct (_plugins c !! b); by constructor. }
  { intros b p'. by rewrite lookup_empty. }
  split.
  { intros b. simpl. rewrite Hkeys, lookup_empty. split; [|by right].
    intros [[? ?]|?]; done. }
  split; [done|].
  intros b [t Ht]. simpl. by apply map_lookup_filter_Some in Ht as [_ ?].
Qed.

(** X15: plugins are named after their files.  If the names of the
    directory listing hold no slash and every plugin of the collection
    bears the name of its file without the ".py", the same is true
    after [PluginCollection.load], new plugins included; so the plugins
    of a collection have distinct names. *)
Theorem loaded_plugins_named_after_files (c c' : PluginCollection World A)
    (mtimes mtimes' : gmap string Z) (s s' : LSt World) :
  PluginCollection_load settings c mtimes s = Some ((c', mtimes'), s') →
  (∀ listing b, os_listdir (path c) (disk s) = Some listing → b ∈ listing →
                rsplit_at "/" b = None) →
  (∀ b p, _plugins c !! b = Some p → _pluginName p +:+ ".py" = b) →
  (∀ b p', _plugins c' !! b = Some p' → _pluginName p' +:+ ".py" = b) ∧
  (∀ b1 b2 p1 p2,
     _plugins c' !! b1 = Some p1 → _plugins c' !! b2 = Some p2 →
     getName p1 = getName p2 → b1 = b2).
Proof.
  intros Hload Hnames Hwf.
  apply PluginCollection_load_spec in Hload
    as (listing & Hlist & _ & _ & Hkeys & Hkept & _).
  assert (Hwf' : ∀ b p', _plugins c' !! b = Some p' →
                         _pluginName p' +:+ ".py" = b).
  { intros b p' Hp'. specialize (Hkept b p' Hp'). unfold kept_or_new in Hkept.
    destruct (_plugins c !! b) as [p|] eqn:Hp.
    - destruct Hkept as (-> & _). by apply Hwf.
    - destruct Hkept as (-> & _).
      destruct (Hkeys b) as [Hin _].
      destruct Hin as [Hb [Hpy Hdot]]; [by eexists|].
      rewrite os_path_basename_join by (by eapply Hnames).
      by apply splitext_root_py. }
  split; [done|].
  intros b1 b2 p1 p2 Hp1 Hp2 Hname. unfold getName in Hname.
  by rewrite <-(Hwf' b1 p1 Hp1), <-(Hwf' b2 p2 Hp2), Hname.
Qed.


End LoaderProperties.


(** ** Keeping the event ids (engine.py) *)

Section PersistenceProperties.
Context {World A : Type} `{Environment World} `{Storage World}.

Lemma lift_Some {X} (m : M World X) (s : LSt World) (x : X) (w : World)
    (tr : list Effect) :
  m (mkSt (disk s) []) = Some (x, mkSt w tr) →
  lift m s = Some (x, mkLSt w (journal s ++ (Ran <$> tr))).
Proof. unfold lift. by intros ->. Qed.

(** A computation of the dispatching code that does not depend on the
    state and leaves it alone is the same when lifted. *)
Lemma lift_pure {X} (m : M World X) (s : LSt World) (x : X) :
  (∀ d, m d = Some (x, d)) → lift m s = Some (x, s).
Proof.
  intros Hm. unfold lift. rewrite Hm. simpl. rewrite app_nil_r. by destruct s.
Qed.

Lemma last_answer_cons (a last0 : option Z) (l : list (option Z)) :
  default last0 (last (a :: l)) = default a (last l).
Proof.
  destruct l as [|b l]; [done|]. rewrite last_cons_cons.
  destruct (last (b :: l)) eqn:Hlast; [done|]. by apply last_None in Hlast.
Qed.

Lemma answers_app (j1 j2 : list Entry) :
  answers (j1 ++ j2) = answers j1 ++ answers j2.
Proof. apply omap_app. Qed.

Lemma failed_attempts_app (j1 j2 : list Entry) :
  failed_attempts (j1 ++ j2) = failed_attempts j1 ++ failed_attempts j2.
Proof. apply omap_app. Qed.

(** The loop over the attempts: every attempt is made, each leaves one
    record, and the result is the last answer. *)
Lemma find_one_attempts_spec (eng : Engine World A) (attempts : list Z) :
  ∀ (lastEventId : option Z) (s : LSt World),
    ∃ r s' new,
      find_one_attempts eng attempts lastEventId s = Some (r, s') ∧
      journal s' = journal s ++ new ∧
      (length (answers new) + length (failed_attempts new) = length attempts)%nat ∧
      r = default lastEventId (last (answers new)).
Proof.
  induction attempts as [|i attempts IH]; intros lastEventId s.
  - exists lastEventId, s, []. simpl. unfold lret. by rewrite app_nil_r.
  - cbn [find_one_attempts]. unfold lbind at 1. unfold in_disk.
    destruct (sg_find_one (disk s)) as [o w].
    set (s0 := mkLSt w (journal s)).
    assert (Hfailed : ∀ msg,
              ∃ r s' new,
                (lift (_writeConnectionAttemptLog eng i msg) ;;
                 find_one_attempts eng attempts lastEventId)%loader s0
                = Some (r, s') ∧
                journal s' = journal s ++ new ∧
                (length (answers new) + length (failed_attempts new)
                 = length (i :: attempts))%nat ∧
                r = default lastEventId (last (answers new))).
    { intros msg. unfold lbind.
      destruct (decide (i = _maxConnRetries eng - 1)) as [Hlast|Hbefore].
      - rewrite (lift_Some _ s0 tt _ _
                   (_writeConnectionAttemptLog_last eng i msg _ Hlast)).
        match goal with
        | |- context [find_one_attempts _ _ _ ?st] =>
          destruct (IH lastEventId st) as (r & s' & new & Hrun & Hj & Hlen & Hr)
        end.
        eexists r, s', _. split; [exact Hrun|].
        split; [rewrite Hj; simpl; rewrite <-app_assoc; reflexivity|].
        rewrite answers_app, failed_attempts_app, !length_app.
        split; [simpl; lia|by rewrite Hr].
      - rewrite (lift_Some _ s0 tt _ _
                   (_writeConnectionAttemptLog_before eng i msg _ Hbefore)).
        match goal with
        | |- context [find_one_attempts _ _ _ ?st] =>
          destruct (IH lastEventId st) as (r & s' & new & Hrun & Hj & Hlen & Hr)
        end.
        eexists r, s', _. split; [exact Hrun|].
        split; [rewrite Hj; simpl; rewrite <-app_assoc; reflexivity|].
        rewrite answers_app, failed_attempts_app, !length_app.
        split; [simpl; lia|by rewrite Hr]. }
    destruct o as [result|msg|msg]; [|apply Hfailed..].
    unfold lbind, log_startup.
    match goal with
    | |- context [find_one_attempts _ _ ?l ?st] =>
      destruct (IH l st) as (r & s' & new & Hrun & Hj & Hlen & Hr)
    end.
    eexists r, s', _. split; [exact Hrun|].
    split; [rewrite Hj; simpl; rewrite <-app_assoc; reflexivity|].
    rewrite answers_app, failed_attempts_app, !length_app.
    split; [simpl; lia|].
    rewrite Hr. change (answers [Logged engine_log INFO
                                   (LastEventIdFromDatabase ?x)])
      with [x]. simpl. by rewrite last_answer_cons.
Qed.

(** X16: [_getLastEventIdFromDatabase] does not stop at an answer.  A
    turn of its loop makes all [maxConnRetries] calls upstream, each
    leaving one record in the log (the answer, or the failed attempt);
    its result is the id of the last answer that had one, and if there
    is such an answer the function returns it after this one turn. *)
Theorem getLastEventIdFromDatabase_makes_every_attempt
    (eng : Engine World A) (s : LSt World) :
  ∃ r s1 new,
    find_one_attempts eng (seqZ 0 (_maxConnRetries eng)) None s = Some (r, s1) ∧
    journal s1 = journal s ++ new ∧
    (length (answers new) + length (failed_attempts new)
     = Z.to_nat (_maxConnRetries eng))%nat ∧
    r = default None (last (answers new)) ∧
    ∀ id rounds,
      r = Some id →
      _getLastEventIdFromDatabase (S rounds) eng s = Some (id, s1).
Proof.
  destruct (find_one_attempts_spec eng (seqZ 0 (_maxConnRetries eng)) None s)
    as (r & s1 & new & Hrun & Hj & Hlen & Hr).
  exists r, s1, new. rewrite length_seqZ in Hlen.
  repeat (split; [done|]).
  intros id rounds ->. cbn [_getLastEventIdFromDatabase].
  unfold lbind. by rewrite Hrun.
Qed.




Lemma lift_silent {X} (m : M World X) (s : LSt World) (x : X) :
  m (mkSt (disk s) []) = Some (x, mkSt (disk s) []) → lift m s = Some (x, s).
Proof.
  intros Hm. unfold lift. rewrite Hm. simpl. rewrite app_nil_r. by destruct s.
Qed.






End PersistenceProperties.


(** ** Handlers (utilities.py, engine.py) *)

(** The loop with its index, on a list of which [pre] has been gone
    through: with fuel for the rest, it comes to [passes_over]. *)
Lemma remove_from_spec (selected : Handler → bool) :
  ∀ (fuel : nat) (pre suf : list Handler),
    (length suf ≤ fuel)%nat →
    remove_from fuel (length pre) selected (pre ++ suf)
    = pre ++ passes_over selected suf.
Proof.
  induction fuel as [|fuel IH]; intros pre suf Hfuel.
  - destruct suf; [done|]. simpl in Hfuel. lia.
  - cbn [remove_from]. destruct suf as [|h rest].
    + cbn [passes_over]. rewrite !app_nil_r.
      rewrite lookup_ge_None_2 by lia. done.
    + rewrite list_lookup_middle by done.
      simpl in Hfuel. cbn [passes_over]. destruct (selected h).
      * rewrite delete_middle. destruct rest as [|h' rest'].
        -- rewrite app_nil_r. destruct fuel; [done|]. cbn [remove_from].
           rewrite lookup_ge_None_2 by lia. done.
        -- rewrite (cons_middle h' pre rest'), app_assoc.
           replace (S (length pre)) with (length (pre ++ [h']))
             by (rewrite length_app; simpl; lia).
           rewrite IH by (simpl in Hfuel; lia). by rewrite <-app_assoc.
      * rewrite (cons_middle h pre rest), app_assoc.
        replace (S (length pre)) with (length (pre ++ [h]))
          by (rewrite length_app; simpl; lia).
        rewrite IH by lia. by rewrite <-app_assoc.
Qed.

Lemma passes_over_filter (selected : Handler → bool) :
  ∀ (n : nat) (handlers : list Handler),
    (length handlers ≤ n)%nat →
    none_adjacent selected handlers →
    passes_over selected handlers
    = filter (λ h, selected h = false) handlers.
Proof.
  induction n as [|n IH]; intros handlers Hn Hnone.
  { destruct handlers; [done|]. simpl in Hn. lia. }
  destruct handlers as [|h rest]; [done|]. simpl in Hn.
  assert (none_adjacent selected rest) as Hrest.
  { intros i x y Hx Hy. apply (Hnone (S i) x y); done. }
  cbn [passes_over]. destruct (selected h) eqn:Hh.
  - rewrite filter_cons_False by (by rewrite Hh).
    destruct rest as [|h' rest']; [done|].
    specialize (Hnone 0%nat h h' eq_refl eq_refl Hh).
    rewrite filter_cons_True by done. f_equal. apply IH; [simpl in Hn; lia|].
    intros i x y Hx Hy. apply (Hrest (S i) x y); done.
  - rewrite filter_cons_True by done. f_equal. apply IH; [lia|done].
Qed.

Lemma passes_over_keeps (selected : Handler → bool) :
  ∀ (n : nat) (handlers : list Handler),
    (length handlers ≤ n)%nat →
    filter (λ h, selected h = false) (passes_over selected handlers)
    = filter (λ h, selected h = false) handlers ∧
    passes_over selected handlers `sublist_of` handlers.
Proof.
  induction n as [|n IH]; intros handlers Hn.
  { destruct handlers; [done|]. simpl in Hn. lia. }
  destruct handlers as [|h rest]; [done|]. simpl in Hn.
  cbn [passes_over]. destruct (selected h) eqn:Hh.
  - rewrite (filter_cons_False _ h) by (by rewrite Hh).
    destruct rest as [|h' rest']; [split; [done|apply sublist_nil_l]|].
    destruct (IH rest') as [Hkeep Hsub]; [simpl in Hn; lia|].
    split.
    + destruct (selected h') eqn:Hh'.
      * rewrite !filter_cons_False by (by rewrite Hh'). done.
      * rewrite !filter_cons_True by done. by rewrite Hkeep.
    + apply sublist_cons, sublist_skip, Hsub.
  - destruct (IH rest) as [Hkeep Hsub]; [lia|].
    split; [rewrite !filter_cons_True by done; by rewrite Hkeep|].
    by apply sublist_skip.
Qed.

(** X20: [removeHandlersFromLogger] removes while it iterates.  It
    never removes a handler that is not of the given type and keeps the
    order of the handlers; but it does not look at the handler that
    follows one it has removed, which therefore stays, of the given
    type or not.  More turns of the loop than the list is long change
    nothing. *)
Theorem removeHandlers_passes_over (handlerTypes : option (Handler → bool))
    (handlers : list Handler) :
  let selected := λ handler, match handlerTypes with
                             | None => true
                             | Some isinstance => isinstance handler
                             end in
  removeHandlersFromLogger handlerTypes handlers
  = passes_over selected handlers ∧
  (∀ fuel, (length handlers ≤ fuel)%nat →
           remove_from fuel 0 selected handlers
           = removeHandlersFromLogger handlerTypes handlers) ∧
  filter (λ h, selected h = false)
    (removeHandlersFromLogger handlerTypes handlers)
  = filter (λ h, selected h = false) handlers ∧
  removeHandlersFromLogger handlerTypes handlers `sublist_of` handlers ∧
  (∀ h next rest,
     handlers = h :: next :: rest → selected h = true →
     removeHandlersFromLogger handlerTypes handlers
     = next :: removeHandlersFromLogger handlerTypes rest).
Proof.
  intros selected.
  assert (Hspec : ∀ fuel l, (length l ≤ fuel)%nat →
                            remove_from fuel 0 selected l = passes_over selected l).
  { intros fuel l Hfuel. apply (remove_from_spec selected fuel [] l Hfuel). }
  assert (Hdef : ∀ l, removeHandlersFromLogger handlerTypes l
                      = passes_over selected l).
  { intros l. unfold removeHandlersFromLogger. by apply Hspec. }
  split; [apply Hdef|]. split; [intros fuel Hfuel; by rewrite Hdef, Hspec|].
  rewrite Hdef.
  destruct (passes_over_keeps selected (length handlers) handlers) as [Hkeep Hsub];
    [done|].
  split; [done|]. split; [done|].
  intros h next rest -> Hh. rewrite Hdef. cbn [passes_over]. by rewrite Hh.
Qed.

(** X21: where no two handlers of the given type are neighbours,
    [removeHandlersFromLogger] does what its name says: the handlers
    left are exactly those not of the type, in their order. *)
Theorem removeHandlers_removes_all (handlerTypes : option (Handler → bool))
    (handlers : list Handler) :
  let selected := λ handler, match handlerTypes with
                             | None => true
                             | Some isinstance => isinstance handler
                             end in
  none_adjacent selected handlers →
  removeHandlersFromLogger handlerTypes handlers
  = filter (λ h, selected h = false) handlers.
Proof.
  intros selected Hnone. unfold removeHandlersFromLogger.
  etrans; [by apply (remove_from_spec selected (length handlers) [] handlers)|].
  by apply (passes_over_filter selected (length handlers)).
Qed.

Lemma one_selected_none_adjacent (selected : Handler → bool)
    (handlers : list Handler) :
  (length (filter (λ h, selected h = true) handlers) ≤ 1)%nat →
  none_adjacent selected handlers.
Proof.
  intros Hone i h h' Hh Hh' Hsel.
  destruct (selected h') eqn:Hsel'; [|done]. exfalso.
  apply list_elem_of_split_length in Hh as (pre & rest & -> & ->).
  rewrite (cons_middle h pre rest), app_assoc in Hh'.
  rewrite lookup_app_r in Hh' by (rewrite length_app; simpl; lia).
  replace (S (length pre) - length (pre ++ [h]))%nat with 0%nat in Hh'
    by (rewrite length_app; simpl; lia).
  destruct rest as [|x rest]; [done|]. injection Hh' as ->.
  rewrite filter_app, length_app in Hone.
  rewrite filter_cons_True in Hone by done.
  rewrite filter_cons_True in Hone by done. simpl in Hone. lia.
Qed.

Lemma removeHandlers_removes_all_aux (handlers : list Handler) :
  (length (filter (λ h, is_SMTPHandler h = true) handlers) ≤ 1)%nat →
  removeHandlersFromLogger (Some is_SMTPHandler) handlers
  = filter (λ h, is_SMTPHandler h = false) handlers.
Proof.
  intros Hone. unfold removeHandlersFromLogger.
  etrans;
    [by apply (remove_from_spec is_SMTPHandler (length handlers) [] handlers)|].
  apply (passes_over_filter is_SMTPHandler (length handlers)); [done|].
  by apply one_selected_none_adjacent.
Qed.

Lemma str_split_comma_truthy (s : string) :
  list_truthy (str_split_comma s) = true.
Proof.
  induction s as [|c s IH]; [done|]. simpl.
  case_decide; [done|]. by destruct (str_split_comma s).
Qed.

(** X22: a logger never gets a second mail handler.  When the logger
    has at most one mail handler, [Engine.setEmailsOnLogger] leaves all
    its other handlers in place and in order and, if it returns, at
    most one mail handler, the last handler of the logger: none for
    [emails=False], and otherwise the handler built from the
    configuration, which is installed if and only if sender, recipients
    and subject are not empty.  With [emails=True] the recipients are
    never empty: the handler is installed even where the configuration
    names no server and no recipient. *)
Theorem setEmailsOnLogger_spec (config : EmailConfig) (emails : Emails)
    (handlers handlers' : list Handler) :
  (length (filter (λ h, is_SMTPHandler h = true) handlers) ≤ 1)%nat →
  setEmailsOnLogger config emails handlers = Some handlers' →
  ∃ toAddrs,
    handlers'
    = filter (λ h, is_SMTPHandler h = false) handlers
      ++ match emails with
         | EmailsBool false => []
         | _ => mail_handler config toAddrs
         end ∧
    (length (filter (λ h, is_SMTPHandler h = true) handlers') ≤ 1)%nat ∧
    match emails with
    | EmailsBool true =>
      (∃ to, getToAddrs config = Some to ∧ toAddrs = PyStr <$> to) ∧
      list_truthy toAddrs = true
    | EmailsSeq addrs => toAddrs = addrs
    | _ => True
    end.
Proof.
  intros Hone. unfold setEmailsOnLogger.
  rewrite (removeHandlers_removes_all_aux handlers Hone).
  set (kept := filter (λ h, is_SMTPHandler h = false) handlers).
  assert (Hkept : filter (λ h, is_SMTPHandler h = true) kept = []).
  { subst kept. clear. induction handlers as [|h l IH]; [done|].
    destruct (is_SMTPHandler h) eqn:Hh.
    - by rewrite filter_cons_False by (by rewrite Hh).
    - rewrite filter_cons_True by done.
      by rewrite filter_cons_False by (by rewrite Hh). }
  assert (Hcount : ∀ toAddrs,
            (length (filter (λ h, is_SMTPHandler h = true)
                       (kept ++ mail_handler config toAddrs)) ≤ 1)%nat).
  { intros toAddrs. rewrite filter_app, Hkept. unfold mail_handler.
    repeat case_match; simpl; lia. }
  assert (Hadd : ∀ toAddrs,
            (smtpServer ← emails_server config;
             smtpPort ← getSMTPPort config;
             fromAddr ← emails_from config;
             emailSubject ← emails_subject config;
             secure ← getSecureSMTP config;
             Some (addMailHandlerToLogger (HostPort smtpServer smtpPort)
                     fromAddr toAddrs emailSubject (emails_username config)
                     (emails_password config) secure kept)) = Some handlers' →
            handlers' = kept ++ mail_handler config toAddrs).
  { intros toAddrs. unfold mail_handler, addMailHandlerToLogger.
    destruct (emails_server config); [|done].
    destruct (getSMTPPort config); [|done].
    destruct (emails_from config); [|done].
    destruct (emails_subject config); [|done].
    destruct (getSecureSMTP config); [|done]. simpl.
    intros [= <-]. case_match; [done|]. by rewrite app_nil_r. }
  destruct emails as [[|]|addrs|].
  - destruct (emails_server config) as [server|]; [|done]. simpl.
    destruct (getSMTPPort config) as [port|]; [|done]. simpl.
    destruct (emails_from config) as [fromAddr|]; [|done]. simpl.
    destruct (emails_subject config) as [subject|]; [|done]. simpl.
    destruct (getSecureSMTP config) as [secure|]; [|done]. simpl.
    destruct (getToAddrs config) as [to|] eqn:Hto; [|done]. simpl.
    intros Hrun. exists (PyStr <$> to).
    split.
    { apply Hadd. by rewrite ?Hto. }
    split.
    { rewrite (Hadd (PyStr <$> to)); [apply Hcount|]. done. }
    split; [exists to; split; reflexivity|].
    unfold getToAddrs in Hto. destruct (emails_to config); [|done].
    injection Hto as <-.
    pose proof (str_split_comma_truthy s) as Hsplit.
    by destruct (str_split_comma s).
  - intros [= <-]. exists []. rewrite app_nil_r. split; [done|].
    split; [rewrite Hkept; simpl; lia|done].
  - intros Hrun. exists addrs.
    assert (handlers' = kept ++ mail_handler config addrs) as ->.
    { apply Hadd. revert Hrun.
      destruct (emails_server config); [|done]. simpl.
      destruct (getSMTPPort config); [|done]. simpl.
      destruct (emails_from config); [|done]. simpl.
      destruct (emails_subject config); [|done]. simpl.
      by destruct (getSecureSMTP config). }
    split; [done|]. split; [apply Hcount|done].
  - destruct (emails_server config); [|done]. simpl.
    destruct (getSMTPPort config); [|done]. simpl.
    destruct (emails_from config); [|done]. simpl.
    destruct (emails_subject config); [|done]. simpl.
    by destruct (getSecureSMTP config).
Qed.


(** X23: what a plugin passes to [setEmails] is taken as the tuple of
    recipients, whatever it is.  When the logger has at most one mail
    handler and the call returns, the other handlers are in place and
    the mail handler, installed if and only if there is an argument and
    sender and subject are not empty, is addressed to the arguments as
    they are: [setEmails(False)] does not switch the mails off, and
    [setEmails(True)] does not choose the configured recipients; only
    a call without arguments leaves the logger without mail handler. *)
Theorem Plugin_setEmails_spec (config : EmailConfig) (emails : list PyValue)
    (handlers handlers' : list Handler) :
  (length (filter (λ h, is_SMTPHandler h = true) handlers) ≤ 1)%nat →
  Plugin_setEmails config emails handlers = Some handlers' →
  ∃ server port fromAddr subject secure,
    emails_server config = Some server ∧ getSMTPPort config = Some port ∧
    emails_from config = Some fromAddr ∧
    emails_subject config = Some subject ∧
    getSecureSMTP config = Some secure ∧
    handlers'
    = filter (λ h, is_SMTPHandler h = false) handlers
      ++ (if str_truthy fromAddr && list_truthy emails && str_truthy subject
          then [SMTPHandler (HostPort server port) fromAddr emails subject
                  (emails_username config, emails_password config) secure]
          else []).
Proof.
  intros Hone. unfold Plugin_setEmails, setEmailsOnLogger.
  rewrite (removeHandlers_removes_all_aux handlers Hone).
  destruct (emails_server config) as [server|]; [|done]. simpl.
  destruct (getSMTPPort config) as [port|]; [|done]. simpl.
  destruct (emails_from config) as [fromAddr|]; [|done]. simpl.
  destruct (emails_subject config) as [subject|]; [|done]. simpl.
  destruct (getSecureSMTP config) as [secure|]; [|done]. simpl.
  intros [= <-]. exists server, port, fromAddr, subject, secure.
  do 5 (split; [done|]). unfold addMailHandlerToLogger. simpl.
  case_match; [done|]. by rewrite app_nil_r.
Qed.

(** X24: a logger never gets a second file handler.  When the logger
    has at most one [TimedRotatingFileHandler] and the file can be
    opened, [setFilePathOnLogger] leaves the other handlers in place
    and in order, followed by one file handler for the new path; when
    the file cannot be opened the call raises. *)
Theorem setFilePathOnLogger_spec (can_open : string → bool) (file : string)
    (handlers : list Handler) :
  (length (filter (λ h, is_TimedRotatingFileHandler h = true) handlers) ≤ 1)%nat →
  setFilePathOnLogger can_open file handlers
  = if can_open file
    then Some (filter (λ h, is_TimedRotatingFileHandler h = false) handlers
               ++ [TimedRotatingFileHandler file])
    else None.
Proof.
  intros Hone.
  assert (removeHandlersFromLogger (Some is_TimedRotatingFileHandler) handlers
          = filter (λ h, is_TimedRotatingFileHandler h = false) handlers)
    as Hremoved.
  { unfold removeHandlersFromLogger.
    etrans; [by apply (remove_from_spec is_TimedRotatingFileHandler
                         (length handlers) [] handlers)|].
    apply (passes_over_filter is_TimedRotatingFileHandler (length handlers));
      [done|].
    by apply one_selected_none_adjacent. }
  unfold setFilePathOnLogger. by rewrite Hremoved.
Qed.


(** ** The main loop (engine.py) *)

Section MainLoopProperties.
Context {World : Type} `{Environment World} `{Storage World}.

#[local] Instance same_trace_refl :
  Reflexive (λ s s' : St World, trace s' = trace s).
Proof. by intros s. Qed.

#[local] Instance same_trace_trans :
  Transitive (λ s s' : St World, trace s' = trace s).
Proof. intros s1 s2 s3 H12 H23. by rewrite H23. Qed.

(** A plugin without cursor and backlog has no next id, and asking it
    changes neither the plugin nor the trace. *)
Lemma getNextUnprocessedEventId_no_cursor {A} (p : Plugin World A)
    (s : St World) :
  no_cursor p →
  ∃ s', Plugin_getNextUnprocessedEventId p s = Some (p, None, s') ∧
        trace s' = trace s.
Proof.
  intros [Hempty Hcursor]. destruct p as [name active cbs l b].
  simpl in Hempty, Hcursor. subst b.
  unfold Plugin_getNextUnprocessedEventId.
  unfold bind at 1. unfold now. destruct (clock_now (world s)) as [t w].
  cbn [_backlog]. rewrite map_to_list_empty. simpl. unfold bind, ret.
  destruct Hcursor as [->| ->]; eexists; (split; [reflexivity|done]).
Qed.

Lemma collections_nextIds_no_cursor {A} (cs : list (PluginCollection World A)) :
  all_without_cursor cs →
  ∀ s : St World,
    ∃ s', collections_nextIds cs s
          = Some (cs, replicate (length cs) None, s') ∧
          trace s' = trace s.
Proof.
  induction 1 as [|c cs Hc _ IH]; intros s.
  - exists s. by simpl.
  - assert (∃ s1, PluginCollection_getNextUnprocessedEventId c s
                  = Some (c, None, s1) ∧ trace s1 = trace s)
      as (s1 & Hrun1 & Htr1).
    { unfold PluginCollection_getNextUnprocessedEventId.
      match goal with
      | |- context [for_plugins ?body _ _ _] =>
        destruct (for_all_plugins_rule body no_cursor eq (λ a, a = None)
                    (λ s s' : St World, trace s' = trace s)
                    (_plugins c) None s)
          as (plugins' & r & s1 & Hrun & -> & Htr & Hout & Hvis); [|done..|]
      end.
      { intros p a s0 Hp ->. destruct (p_active p); simpl.
        - destruct (getNextUnprocessedEventId_no_cursor p s0 Hp)
            as (s0' & Hnext & Htr).
          unfold bind. rewrite Hnext. unfold ret. by eexists _, _, _.
        - unfold ret. by eexists _, _, _. }
      exists s1. split; [|done]. unfold bind at 1. rewrite Hrun. unfold ret.
      simpl. assert (plugins' = _plugins c) as ->.
      { apply map_eq. intros b. destruct (_plugins c !! b) as [p|] eqn:Hp.
        - by destruct (Hvis b p Hp) as (p' & -> & <-).
        - by apply Hout. }
      by destruct c. }
    destruct (IH s1) as (s' & Hrun & Htr).
    exists s'. cbn [collections_nextIds]. unfold bind at 1. rewrite Hrun1.
    unfold bind at 1. rewrite Hrun. unfold ret. split; [done|].
    by rewrite Htr.
Qed.

Lemma foldl_keep_least_None (n : nat) :
  foldl keep_least None (replicate n None) = None.
Proof. induction n as [|n IH]; [done|]. exact IH. Qed.

Lemma dispatch_batch_nil (cs : list (PluginCollection World (list Event)))
    (s : St World) :
  dispatch_batch [] cs s = Some (cs, s).
Proof.
  induction cs as [|c cs IH]; [done|]. cbn [dispatch_batch].
  unfold bind at 1. unfold ret at 1. unfold bind at 1. by rewrite IH.
Qed.

(** Reloading keeps the plugins without cursor and backlog. *)
Lemma load_collections_no_cursor {A} `{Disk World A}
    (settings : EngineSettings) (cs : list (PluginCollection World A)) :
  all_without_cursor cs →
  ∀ (mtimes : list (gmap string Z)) cs' mtimes' (s s' : LSt World),
    load_collections settings cs mtimes s = Some ((cs', mtimes'), s') →
    all_without_cursor cs'.
Proof.
  induction 1 as [|c cs Hc _ IH]; intros mtimes cs' mtimes' s s'.
  - simpl. unfold lret. intros [= <- _ _]. constructor.
  - cbn [load_collections].
    intros ([c1 m1] & s1 & Hload & Hrest)%lbind_Some.
    apply lbind_Some in Hrest as ([cs1 ms1] & s2 & Hloop & Hret).
    unfold lret in Hret. injection Hret as <- _ _. cbn [fst snd].
    constructor; [|by eapply IH].
    unfold PluginCollection_load in Hload.
    apply lbind_Some in Hload as (listing & s0 & _ & Hload).
    apply lbind_Some in Hload as ([new' m'] & s3 & Hloaded & Hret).
    unfold lret in Hret. injection Hret as <- _ _. cbn [_plugins fst].
    destruct (load_loop_spec settings (path c) (_plugins c) listing
                _ _ _ _ _ _ _ Hloaded) as [_ Hkept].
    { intros b. destruct (_plugins c !! b); by constructor. }
    { intros b p'. by rewrite lookup_empty. }
    intros b p' Hp'. specialize (Hkept b p' Hp'). unfold kept_or_new in Hkept.
    destruct (_plugins c !! b) as [p|] eqn:Hp.
    + destruct Hkept as (_ & Hl & Hb). unfold no_cursor.
      rewrite Hl, Hb. by eapply Hc.
    + destruct Hkept as (_ & Hl & Hb). split; [done|by left].
Qed.

(** The main loop of an engine whose plugins have no cursor and no
    backlog, whatever the dispatch to the collections is, if it does
    nothing without events. *)
Lemma mainLoop_with_idle {A} `{Disk World A}
    (dispatch : list Event → list (PluginCollection World A)
                → M World (list (PluginCollection World A)))
    (settings : EngineSettings)
    (fallback : list nat → EngineData World A → L World (EngineData World A))
    (rounds : nat) (r : Runtime World A) (s : LSt World) :
  (∀ cs d, dispatch [] cs d = Some (cs, d)) →
  start_engine r = true →
  all_without_cursor (_pluginCollections (engine (engine_data r))) →
  mainLoop_with dispatch settings fallback rounds r s = idle_turn settings r s ∧
  ∀ r' s',
    mainLoop_with dispatch settings fallback rounds r s = Some (r', s') →
    all_without_cursor (_pluginCollections (engine (engine_data r'))) ∧
    start_engine r' = true ∧
    _eventIdData (engine_data r') = _eventIdData (engine_data r).
Proof.
  intros Hdispatch Hstart Hidle.
  destruct (collections_nextIds_no_cursor _ Hidle (mkSt (disk s) []))
    as ([w tr] & Hasked & Htr). simpl in Htr. subst tr.
  assert (Hfetch : _getNewEvents (engine (engine_data r)) (mkSt (disk s) [])
                   = Some (engine (engine_data r), [], mkSt w [])).
  { unfold _getNewEvents, bind. rewrite Hasked. cbn [fst snd].
    rewrite foldl_keep_least_None. unfold ret.
    by destruct (engine (engine_data r)). }
  assert (Heq : mainLoop_with dispatch settings fallback rounds r s
                = idle_turn settings r s).
  { unfold mainLoop_with, idle_turn. rewrite Hstart.
    unfold lbind at 1. rewrite (lift_Some _ _ _ _ _ Hfetch). cbn [fst snd].
    unfold lbind at 1.
    rewrite (lift_silent _ _ _ (Hdispatch _ _)).
    unfold lbind at 1. unfold lret at 1.
    symmetry. unfold lbind at 1. rewrite (lift_Some _ _ _ _ _ Hasked).
    by destruct (engine (engine_data r)). }
  split; [exact Heq|]. intros r' s'. rewrite Heq. unfold idle_turn.
  intros (? & s1 & _ & Hrest)%lbind_Some.
  apply lbind_Some in Hrest as (? & s2 & _ & Hrest).
  apply lbind_Some in Hrest as ([cs' ms'] & s3 & Hloaded & Hret).
  unfold lret in Hret. injection Hret as <- _. cbn.
  split; [|done]. by eapply load_collections_no_cursor.
Qed.

(** X25: an engine whose plugins have no cursor and no backlog idles,
    and stays idle.  In either mode a turn of [mainLoop] is then
    nothing but this: the plugins are asked for their next ids, the
    engine sleeps for the fetch interval, and the plugins are reloaded;
    no event is fetched, none is dispatched, the ids are neither saved
    nor loaded.  After the turn the plugins, those just loaded
    included, are again without cursor and backlog. *)
Theorem idle_engine_stays_idle `{!Disk World Event} `{!Disk World (list Event)}
    (settings : EngineSettings) (rounds : nat) :
  (∀ fallback (r : Runtime World Event) (s : LSt World),
     start_engine r = true →
     all_without_cursor (_pluginCollections (engine (engine_data r))) →
     mainLoop settings fallback rounds r s = idle_turn settings r s ∧
     ∀ r' s',
       mainLoop settings fallback rounds r s = Some (r', s') →
       all_without_cursor (_pluginCollections (engine (engine_data r'))) ∧
       start_engine r' = true) ∧
  (∀ fallback (r : Runtime World (list Event)) (s : LSt World),
     start_engine r = true →
     all_without_cursor (_pluginCollections (engine (engine_data r))) →
     batch_mainLoop settings fallback rounds r s = idle_turn settings r s ∧
     ∀ r' s',
       batch_mainLoop settings fallback rounds r s = Some (r', s') →
       all_without_cursor (_pluginCollections (engine (engine_data r'))) ∧
       start_engine r' = true).
Proof.
  split; intros fallback r s Hstart Hidle.
  - destruct (mainLoop_with_idle dispatch_each settings fallback rounds r s)
      as [Heq Hkeep]; [done..|].
    split; [exact Heq|]. intros r' s' Hrun.
    by destruct (Hkeep r' s' Hrun) as (? & ? & _).
  - destruct (mainLoop_with_idle dispatch_batch settings fallback rounds r s)
      as [Heq Hkeep]; [apply dispatch_batch_nil|done..|].
    split; [exact Heq|]. intros r' s' Hrun.
    by destruct (Hkeep r' s' Hrun) as (? & ? & _).
Qed.

End MainLoopProperties.


Section SentryProperties.
Context {V : Type}.

Lemma tag_from_extra_spec (event : SentryEvent V) tag extra :
  sen_extra event = Some extra →
  ∃ event',
    tag_from_extra event tag = Some event' ∧
    sen_extra event' = Some (delete tag extra) ∧
    sen_level event' = sen_level event ∧
    sen_tags event'
    = match extra !! tag with
      | Some v => Some (<[tag := v]> (default ∅ (sen_tags event)))
      | None => sen_tags event
      end.
Proof.
  intros Hextra. unfold tag_from_extra. rewrite Hextra. simpl.
  destruct (extra !! tag) as [v|] eqn:Hv.
  - eexists. split; [done|]. by simpl.
  - exists event. split; [done|]. by rewrite delete_id.
Qed.

Lemma sentry_pre_send_nothing_to_move (event : SentryEvent V) extra :
  sen_extra event = Some extra →
  (∀ k, k ∈ moved_keys → extra !! k = None) →
  sentry_pre_send event = Some event.
Proof.
  intros Hextra Hnone. unfold sentry_pre_send, level_from_extra.
  rewrite Hextra. simpl.
  rewrite (Hnone "level"%string) by (unfold moved_keys; left). simpl.
  unfold tag_from_extra. rewrite Hextra. simpl.
  rewrite (Hnone "plugin_name"%string)
    by (unfold moved_keys, sentry_tags; rewrite !elem_of_cons; tauto).
  simpl. rewrite Hextra. simpl.
  rewrite (Hnone "stop_on_error"%string)
    by (unfold moved_keys, sentry_tags; rewrite !elem_of_cons; tauto).
  simpl. rewrite Hextra. simpl.
  by rewrite (Hnone "event_id"%string)
    by (unfold moved_keys, sentry_tags; rewrite !elem_of_cons; tauto).
Qed.

(** X29: [sentry_pre_send] raises (KeyError) exactly when the event has
    no ['extra'].  Otherwise it returns the event with the keys 'level',
    'plugin_name', 'stop_on_error' and 'event_id' moved out of
    ['extra']: they are gone from it and its other entries are as
    before; ['level'] is the level of ['extra'] if it had one and as
    before if not; the three tags of ['extra'] are written over those of
    ['tags'], whose other entries stay, and ['tags'] is created only
    when there is a tag to write.  Sending the result through
    [sentry_pre_send] again changes nothing. *)
Theorem sentry_pre_send_moves (event : SentryEvent V) :
  match sen_extra event with
  | None => sentry_pre_send event = None
  | Some extra =>
    ∃ event',
      sentry_pre_send event = Some event' ∧
      moved_out extra event event' ∧
      sentry_pre_send event' = Some event'
  end.
Proof.
  destruct (sen_extra event) as [extra|] eqn:Hextra.
  2:{ unfold sentry_pre_send, level_from_extra. by rewrite Hextra. }
  assert (∃ event0, level_from_extra event = Some event0 ∧
            sen_extra event0 = Some (delete "level"%string extra) ∧
            sen_level event0
            = from_option Some (sen_level event) (extra !! "level"%string) ∧
            sen_tags event0 = sen_tags event)
    as (event0 & Hlevel & Hextra0 & Hlevel0 & Htags0).
  { unfold level_from_extra. rewrite Hextra. simpl.
    destruct (extra !! "level"%string) eqn:Hl.
    - eexists. split; [done|]. by simpl.
    - exists event. split; [done|]. by rewrite delete_id. }
  destruct (tag_from_extra_spec event0 "plugin_name"%string _ Hextra0)
    as (event1 & Hrun1 & Hextra1 & Hlevel1 & Htags1).
  destruct (tag_from_extra_spec event1 "stop_on_error"%string _ Hextra1)
    as (event2 & Hrun2 & Hextra2 & Hlevel2 & Htags2).
  destruct (tag_from_extra_spec event2 "event_id"%string _ Hextra2)
    as (event3 & Hrun3 & Hextra3 & Hlevel3 & Htags3).
  assert (∀ k, delete "event_id"%string
                 (delete "stop_on_error"%string
                    (delete "plugin_name"%string
                       (delete "level"%string extra))) !! k
               = if decide (k ∈ moved_keys) then None else extra !! k)
    as Hlookup.
  { intros k. unfold moved_keys, sentry_tags.
    destruct (decide (k ∈ _)) as [Hk|Hk].
    - rewrite !elem_of_cons in Hk.
      destruct Hk as [->|[->|[->|[->|Hk]]]]; [..|by apply elem_of_nil in Hk].
      + rewrite !lookup_delete_ne by done. apply lookup_delete_eq.
      + rewrite !lookup_delete_ne by done. apply lookup_delete_eq.
      + rewrite !lookup_delete_ne by done. apply lookup_delete_eq.
      + apply lookup_delete_eq.
    - rewrite !not_elem_of_cons in Hk.
      destruct Hk as (? & ? & ? & ? & _).
      by rewrite !lookup_delete_ne by done. }
  exists event3. split; [|split].
  - unfold sentry_pre_send. rewrite Hlevel. simpl.
    rewrite Hrun1. simpl. rewrite Hrun2. simpl. by rewrite Hrun3.
  - unfold moved_out. split; [by eexists|].
    split; [congruence|].
    rewrite Htags3, Htags2, Htags1, Htags0.
    rewrite !lookup_delete_ne by done.
    split.
    + intros k. unfold sentry_tags.
      destruct (decide (k ∈ _)) as [Hk|Hk].
      * rewrite !elem_of_cons in Hk.
        destruct Hk as [->|[->|[->|Hk]]]; [..|by apply elem_of_nil in Hk];
          destruct (extra !! "plugin_name"%string) as [v1|] eqn:H1,
                   (extra !! "stop_on_error"%string) as [v2|] eqn:H2,
                   (extra !! "event_id"%string) as [v3|] eqn:H3;
          cbn [default from_option id];
          repeat (rewrite lookup_insert_eq || rewrite lookup_insert_ne by done);
          done.
      * rewrite !not_elem_of_cons in Hk. destruct Hk as (? & ? & ? & _).
        destruct (extra !! "plugin_name"%string) as [v1|],
                 (extra !! "stop_on_error"%string) as [v2|],
                 (extra !! "event_id"%string) as [v3|];
          cbn [default from_option id];
          by rewrite ?lookup_insert_ne by done.
    + unfold sentry_tags.
      destruct (extra !! "plugin_name"%string) as [v1|] eqn:H1,
               (extra !! "stop_on_error"%string) as [v2|] eqn:H2,
               (extra !! "event_id"%string) as [v3|] eqn:H3;
        cbn [default from_option id];
        (split;
         [ intros Hnone;
           first [ discriminate Hnone
                 | split; [exact Hnone|];
                   intros k Hk; rewrite !elem_of_cons in Hk;
                   destruct Hk as [->|[->|[->|Hk]]];
                   [done..|by apply elem_of_nil in Hk] ]
         | intros [Hnone Hall];
           first [ exact Hnone
                 | by rewrite (Hall "plugin_name"%string) in H1
                     by (rewrite !elem_of_cons; tauto)
                 | by rewrite (Hall "stop_on_error"%string) in H2
                     by (rewrite !elem_of_cons; tauto)
                 | by rewrite (Hall "event_id"%string) in H3
                     by (rewrite !elem_of_cons; tauto) ] ]).
  - apply (sentry_pre_send_nothing_to_move _ _ Hextra3).
    intros k Hk. rewrite Hlookup. by rewrite decide_True.
Qed.

End SentryProperties.

(** * Further concrete runs *)

(** Event 11 is handled and offered again. *)
Lemma Plugin_process_again_is_dropped_witness :
  ∃ p1 s1,
    Plugin_process (event 11 0) cursor10 at_noon = Some (p1, true, s1) ∧
    Plugin_process (event 11 0) p1 s1
    = Some (p1, true,
            mkSt (world s1)
              (trace s1 ++ [Log "plugin.p" DEBUG (EventTooOld 11 11)])).
Proof.
  set (p1 := mkPlugin "p" true [cb_f] (Some 11) ∅ : Plugin ScriptedWorld Event).
  set (s1 := mkSt (mkSW noon [])
               [Log "plugin.p" DEBUG (Dispatching [11] "f");
                Invoke "f" [event 11 0]]).
  assert (Hrun : Plugin_process (event 11 0) cursor10 at_noon
                 = Some (p1, true, s1)) by (vm_compute; reflexivity).
  destruct (Plugin_process_again_is_dropped _ _ _ _ _ Hrun)
    as (l & Hl & _ & Hagain).
  injection Hl as <-.
  exists p1, s1. split; [exact Hrun|]. apply Hagain.
Defined.


(** Event 14 at a plugin with its cursor at 10. *)
Lemma cursor_monotone_outside_backlog_witness :
  ∃ p' ok s' l',
    Plugin_process (event 14 10) cursor10 at_noon = Some (p', ok, s') ∧
    _lastEventId p' = Some l' ∧ 10 ≤ l'.
Proof.
  destruct (Plugin_process (event 14 10) cursor10 at_noon)
    as [[[p' ok] s']|] eqn:Hrun; [|vm_compute in Hrun; discriminate].
  destruct (cursor_monotone_outside_backlog cursor10 p' (event 14 10)
              at_noon s' ok 10) as (l' & Hl' & Hle).
  - reflexivity.
  - reflexivity.
  - exact Hrun.
  - exists p', ok, s', l'. split; [reflexivity|]. split; [exact Hl'|exact Hle].
Defined.


(** 13 is at the cursor, so 14 is dropped with it. *)
Lemma batch_old_event_drops_list_witness :
  BatchPlugin_process [event 13 0; event 14 0] batch13_B at_noon
  = Some (batch13_B, true,
          mkSt (mkSW noon []) [Log "plugin.p" DEBUG (EventsTooOld [13] 13)]).
Proof.
  rewrite (batch_old_event_drops_list [event 13 0; event 14 0] batch13_B
             at_noon 13 (event 13 0)).
  - reflexivity.
  - repeat constructor.
  - reflexivity.
  - by left.
  - simpl. lia.
Defined.


(** The state of a plugin with cursor 13 and a backlog is given back to
    the plugin after a restart. *)
Lemma getState_setState_restores_witness :
  ∃ c1 states c2',
    PluginCollection_getState one_collection at_noon
    = Some (c1, states, at_noon) ∧
    PluginCollection_setState (CStateMap states) reloaded_collection at_noon
    = Some (c2', at_noon) ∧
    Plugin_getState <$> _plugins c2' !! "p.py"
    = Some (Plugin_getState cursor13_backlog).
Proof.
  destruct (getState_setState_restores one_collection reloaded_collection
              at_noon at_noon) as (states & c2' & Hget & _ & _ & Hset & _ & _ & Hp).
  - simpl.
    intros b1 b2 p1 p2 [<- _]%lookup_singleton_Some [<- _]%lookup_singleton_Some _.
    reflexivity.
  - intros b. simpl. destruct (decide (b = "p.py")) as [->|Hb].
    + rewrite !lookup_singleton_eq. by constructor.
    + rewrite !lookup_singleton_ne by done. constructor.
  - eexists _, states, c2'. split; [exact Hget|]. split; [exact Hset|].
    specialize (Hp "p.py"). simpl in Hp. rewrite lookup_singleton_eq in Hp.
    inversion Hp as [p p2' (p2 & Hp2 & ->) |]; subst. reflexivity.
Defined.

(** One socket error, then two events: one warning, no sleep. *)
Lemma fetch_succeeds_after_failures_witness :
  ∃ eng' s',
    _getNewEvents engine3 upstream_flaky
    = Some (eng', [event 12 1; event 14 0], s') ∧
    trace s'
    = [Log "plugin.p" WARNING (TimeoutElapsed 8);
       Log "engine" WARNING (UnableToConnect 0 3 "timed out");
       Log "engine" DEBUG (GotEvents 2 12 14)].
Proof.
  destruct (fetch_succeeds_after_failures engine3 upstream_flaky)
    as (cs' & ids & s0 & Hrun & Hfetch).
  vm_compute in Hrun. injection Hrun as <- <- <-.
  destruct (Hfetch 12 [SocketError "timed out"] [event 12 1; event 14 0])
    as (s' & Hget & Htrace).
  - vm_compute. reflexivity.
  - repeat constructor.
  - simpl. lia.
  - vm_compute. reflexivity.
  - eexists _, s'. split; [exact Hget|]. rewrite Htrace. vm_compute. reflexivity.
Defined.

(** The upstream is not asked although it would answer. *)
Lemma no_fetch_when_all_inactive_witness :
  _getNewEvents engine_idle upstream_flaky = Some (engine_idle, [], upstream_flaky).
Proof.
  apply no_fetch_when_all_inactive. repeat constructor. simpl.
  intros b p [<- <-]%lookup_singleton_Some. reflexivity.
Defined.

(** [p.py] has not changed since it was loaded: the plugin stays
    deactivated. *)
Lemma Plugin_load_keeps_state_witness :
  Plugin_load quiet "/plugins/p.py" (Some 100) stopped_p plugins_dir
  = Some ((stopped_p, Some 100), plugins_dir).
Proof.
  destruct (Plugin_load quiet "/plugins/p.py" (Some 100) stopped_p plugins_dir)
    as [[[p' m'] s']|] eqn:Hload; [|vm_compute in Hload; discriminate].
  destruct (Plugin_load_keeps_state quiet _ _ _ _ _ _ _ Hload) as [_ Hsame].
  destruct (Hsame 100 100) as (-> & -> & ->).
  - reflexivity.
  - reflexivity.
  - lia.
  - reflexivity.
Defined.

(** [p.py] has changed since it was loaded: the plugin is active again,
    with the callback the file registers. *)
Lemma Plugin_load_resets_witness :
  ∃ p' s',
    Plugin_load quiet "/plugins/p.py" (Some 90) stopped_p plugins_dir
    = Some ((p', Some 100), s') ∧
    p_active p' = true ∧ _name <$> _callbacks p' = ["f"].
Proof.
  destruct (Plugin_load quiet "/plugins/p.py" (Some 90) stopped_p plugins_dir)
    as [[[p' m'] s']|] eqn:Hload; [|vm_compute in Hload; discriminate].
  destruct (Plugin_load_resets quiet _ _ _ _ _ 100 _ _ Hload)
    as (-> & Hactive & Hcallbacks).
  - reflexivity.
  - right. exists 90. split; [reflexivity|lia].
  - exists p', s'. split; [reflexivity|]. split.
    + apply Hactive. eexists. vm_compute. reflexivity.
    + rewrite Hcallbacks. vm_compute. reflexivity.
Defined.

(** The reload keeps [p.py] with its cursor, adds [q.py] and drops
    [gone.py]. *)
Lemma PluginCollection_load_spec_witness :
  ∃ c' mtimes' s',
    PluginCollection_load quiet before_reload {["p.py" := 100]} plugins_dir
    = Some ((c', mtimes'), s') ∧
    (∀ b, is_Some (_plugins c' !! b) ↔
          b ∈ ["p.py"; "README"; ".hidden.py"; "q.py"] ∧ is_plugin_file b) ∧
    (∀ b p', _plugins c' !! b = Some p' →
             kept_or_new "/plugins" (_plugins before_reload) b p').
Proof.
  assert (∃ r, PluginCollection_load quiet before_reload {["p.py" := 100]}
                 plugins_dir = Some r) as [[[c' m'] s'] Hload]
    by (eexists; vm_compute; reflexivity).
  destruct (PluginCollection_load_spec quiet _ _ _ _ _ _ Hload)
    as (listing & Hlist & _ & _ & Hkeys & Hkept & _).
  assert (os_listdir (path before_reload) (disk plugins_dir)
          = Some ["p.py"; "README"; ".hidden.py"; "q.py"]) as Hdir
    by (vm_compute; reflexivity).
  rewrite Hdir in Hlist. injection Hlist as <-.
  exists c', m', s'. split; [exact Hload|]. split; [exact Hkeys|exact Hkept].
Defined.

(** In the same reload every plugin bears the name of its file. *)
Lemma loaded_plugins_named_after_files_witness :
  ∃ c' mtimes' s',
    PluginCollection_load quiet before_reload {["p.py" := 100]} plugins_dir
    = Some ((c', mtimes'), s') ∧
    ∀ b p', _plugins c' !! b = Some p' → _pluginName p' +:+ ".py" = b.
Proof.
  assert (∃ r, PluginCollection_load quiet before_reload {["p.py" := 100]}
                 plugins_dir = Some r) as [[[c' m'] s'] Hload]
    by (eexists; vm_compute; reflexivity).
  destruct (loaded_plugins_named_after_files quiet _ _ _ _ _ _ Hload)
    as [Hnamed _].
  - assert (os_listdir (path before_reload) (disk plugins_dir)
            = Some ["p.py"; "README"; ".hidden.py"; "q.py"]) as Hdir
      by (vm_compute; reflexivity).
    intros listing b Hlist Hb. rewrite Hdir in Hlist. injection Hlist as <-.
    repeat (apply elem_of_cons in Hb as [->|Hb]; [vm_compute; reflexivity|]).
    apply elem_of_nil in Hb as [].
  - intros b p. unfold before_reload. cbn [_plugins]. intros Hp.
    apply lookup_insert_Some in Hp as [[<- <-]|[_ Hp]]; [reflexivity|].
    apply lookup_singleton_Some in Hp as [<- <-]. reflexivity.
  - exists c', m', s'. split; [exact Hload|exact Hnamed].
Defined.

(** The database answers 100, fails once and answers 101: all three
    calls are made and 101 is the result. *)
Lemma getLastEventIdFromDatabase_makes_every_attempt_witness :
  ∃ s1,
    _getLastEventIdFromDatabase 1 (engine running) answering = Some (101, s1) ∧
    answers (journal s1) = [Some 100; Some 101] ∧
    failed_attempts (journal s1) = [1].
Proof.
  destruct (getLastEventIdFromDatabase_makes_every_attempt (engine running)
              answering) as (r & s1 & new & Hrun & Hj & _ & _ & Hreturns).
  assert (∃ s1',
            find_one_attempts (engine running)
              (seqZ 0 (_maxConnRetries (engine running))) None answering
            = Some (Some 101, s1') ∧
            answers (journal s1') = [Some 100; Some 101] ∧
            failed_attempts (journal s1') = [1])
    as (s1' & Hconcrete & Hanswers & Hfailed)
    by (eexists; split; [vm_compute; reflexivity|split; vm_compute; reflexivity]).
  rewrite Hconcrete in Hrun. injection Hrun as <- <-.
  exists s1'. split; [by apply Hreturns|]. split; [exact Hanswers|exact Hfailed].
Defined.




(** With no type given all handlers should go; the second stays. *)
Example removeHandlers_leaves_every_other :
  removeHandlersFromLogger None
    [stream; old_mail; TimedRotatingFileHandler "daemon.log"]
  = [old_mail].
Proof. reflexivity. Qed.

(** One mail handler between two others is removed. *)
Lemma removeHandlers_removes_all_witness :
  removeHandlersFromLogger (Some is_SMTPHandler)
    [stream; old_mail; TimedRotatingFileHandler "daemon.log"]
  = [stream; TimedRotatingFileHandler "daemon.log"].
Proof.
  rewrite (removeHandlers_removes_all (Some is_SMTPHandler)).
  - reflexivity.
  - intros i h h' Hh Hh' Hsel.
    destruct i as [|[|[|i]]]; simpl in Hh, Hh'; simplify_eq; done.
Defined.

(** The default addresses, with a configuration that has none: the
    handler is installed all the same, for the recipient "" and the
    server "". *)
Lemma setEmailsOnLogger_spec_witness :
  setEmailsOnLogger mail_config (EmailsBool true) [stream; old_mail]
  = Some [stream;
          SMTPHandler (HostPort "" 25) "daemon@studio" [PyStr ""] "SG daemon"
            (None, None) false].
Proof.
  destruct (setEmailsOnLogger mail_config (EmailsBool true) [stream; old_mail])
    as [handlers'|] eqn:Hrun; [|vm_compute in Hrun; discriminate].
  destruct (setEmailsOnLogger_spec mail_config (EmailsBool true)
              [stream; old_mail] handlers')
    as (toAddrs & -> & _ & (to & Hto & ->) & _).
  - simpl. lia.
  - exact Hrun.
  - injection Hto as <-. reflexivity.
Defined.

(** A plugin calls [setEmails(False)]. *)
Lemma Plugin_setEmails_spec_witness :
  Plugin_setEmails mail_config [PyBool false] [stream; old_mail]
  = Some [stream;
          SMTPHandler (HostPort "" 25) "daemon@studio" [PyBool false]
            "SG daemon" (None, None) false].
Proof.
  destruct (Plugin_setEmails mail_config [PyBool false] [stream; old_mail])
    as [handlers'|] eqn:Hrun; [|vm_compute in Hrun; discriminate].
  destruct (Plugin_setEmails_spec mail_config [PyBool false]
              [stream; old_mail] handlers')
    as (server & port & fromAddr & subject & secure
        & Hserver & Hport & Hfrom & Hsubject & Hsecure & ->).
  - simpl. lia.
  - exact Hrun.
  - injection Hserver as <-. injection Hport as <-. injection Hfrom as <-.
    injection Hsubject as <-. injection Hsecure as <-. reflexivity.
Defined.

(** The log file of a logger is changed. *)
Lemma setFilePathOnLogger_spec_witness :
  setFilePathOnLogger (λ _, true) "new.log"
    [TimedRotatingFileHandler "old.log"; stream]
  = Some [stream; TimedRotatingFileHandler "new.log"].
Proof.
  rewrite setFilePathOnLogger_spec.
  - reflexivity.
  - simpl. lia.
Defined.

(** The upstream would answer, but the engine does not ask. *)
Lemma idle_engine_stays_idle_witness :
  ∃ r' s',
    mainLoop quiet no_fallback 1 idle answering = Some (r', s') ∧
    all_without_cursor (_pluginCollections (engine (engine_data r'))) ∧
    journal s' = [Ran (Sleep 5); Logged "engine" INFO (LoadingPlugin "/plugins/p.py");
                  Logged "engine" CRITICAL (NoRegisterCallbacks "/plugins/p.py")].
Proof.
  assert (∃ x, mainLoop quiet no_fallback 1 idle answering = Some x ∧
               journal x.2
               = [Ran (Sleep 5);
                  Logged "engine" INFO (LoadingPlugin "/plugins/p.py");
                  Logged "engine" CRITICAL (NoRegisterCallbacks "/plugins/p.py")])
    as ([r' s'] & Hrun & Hjournal)
    by (eexists; split; vm_compute; reflexivity).
  destruct (idle_engine_stays_idle (World:=StoreWorld) quiet 1) as [Heach _].
  destruct (Heach no_fallback idle answering) as [_ Hkeep].
  - reflexivity.
  - apply Forall_cons. split; [|constructor]. simpl.
    intros b0 p0 [_ <-]%lookup_singleton_Some.
    split; [reflexivity|by left].
  - exists r', s'. split; [exact Hrun|].
    split; [apply (Hkeep r' s' Hrun)|exact Hjournal].
Defined.


(** 12 is awaited and comes twice in one list. *)
Lemma BatchPlugin_process_repeated_id_witness :
  BatchPlugin_process [event 12 0; event 12 0] batch13_B at_noon = None.
Proof.
  apply (BatchPlugin_process_repeated_id [] (event 12 0) (event 12 0) []
           batch13_B at_noon).
  - reflexivity.
  - eexists. vm_compute. reflexivity.
  - eexists _, _. vm_compute. reflexivity.
Defined.
